(** * slurm_gpustat: node-range parsing, usage aggregation and availability

    A shallow embedding of [slurm_gpustat/slurm_gpustat.py] and the
    properties of its parser, its usage aggregator, its availability
    estimator and its log serialisation.

    Python values are modelled as follows.
    - [str]: a list of characters, restricted to code points below 256.
    - [int]: [Z].
    - exceptions: the [Raise] branch of [result].
    - [dict]: an insertion-ordered association list.
    - the [{"type": .., "count": ..}] records of the inventory are mutable
      objects that several mappings may reference; they live in a [heap]
      and the inventory holds their addresses. *)

From Stdlib Require Import Ascii String ZArith NArith Lia Bool Arith List.
From Stdlib Require Import Sorted Permutation.
Import ListNotations.

(** ** Exceptions *)

Inductive exn : Type :=
| IndexError
| ValueError
| KeyError
| UnboundLocalError
| SyntaxError
| TypeError.

Inductive result (A : Type) : Type :=
| Ok (a : A)
| Raise (e : exn).

Arguments Ok {A} a.
Arguments Raise {A} e.

Definition bind {A B : Type} (c : result A) (k : A -> result B) : result B :=
  match c with
  | Ok a => k a
  | Raise e => Raise e
  end.

Declare Scope result_scope.
Delimit Scope result_scope with result.
Notation "x <- c ;; k" := (bind c (fun x => k))
  (at level 61, c at next level, right associativity) : result_scope.
Open Scope result_scope.

(** ** Python strings *)

Module PyStr.

Definition str : Type := list ascii.

Definition lit (s : string) : str := list_ascii_of_string s.

(** The empty string. *)
Definition empty : str := [].

Definition str_eqb (a b : str) : bool :=
  if list_eq_dec ascii_dec a b then true else false.

Definition code (c : ascii) : nat := nat_of_ascii c.

(** [str.isspace] on one character, for code points below 256. *)
Definition isspace (c : ascii) : bool :=
  let n := code c in
  ((9 <=? n) && (n <=? 13)) || ((28 <=? n) && (n <=? 32))
  || (n =? 133) || (n =? 160).

Fixpoint lstrip (s : str) : str :=
  match s with
  | [] => []
  | c :: r => if isspace c then lstrip r else s
  end.

Definition rstrip (s : str) : str := rev (lstrip (rev s)).

(** [s.strip()] *)
Definition strip (s : str) : str := rstrip (lstrip s).

(** [c in s] for a one-character [c]. *)
Definition contains (c : ascii) (s : str) : bool :=
  existsb (Ascii.eqb c) s.

(** [s.index(c)]: the first position of [c]; ValueError when absent. *)
Fixpoint index (c : ascii) (s : str) : result nat :=
  match s with
  | [] => Raise ValueError
  | x :: r => if Ascii.eqb x c then Ok 0 else i <- index c r ;; Ok (S i)
  end.

(** [s[i:j]] for non-negative [i] and [j]. *)
Definition slice (s : str) (i j : nat) : str := firstn (j - i) (skipn i s).

(** [s.split(sep)] for a one-character separator. *)
Fixpoint split (sep : ascii) (s : str) : list str :=
  match s with
  | [] => [[]]
  | c :: r =>
      if Ascii.eqb c sep then [] :: split sep r
      else match split sep r with
           | p :: ps => (c :: p) :: ps
           | [] => [[c]]
           end
  end.

(** [sep.join(parts)] *)
Fixpoint join (sep : str) (parts : list str) : str :=
  match parts with
  | [] => []
  | [p] => p
  | p :: ps => p ++ sep ++ join sep ps
  end.

Definition isdigit (c : ascii) : bool := (48 <=? code c) && (code c <=? 57).

Definition digit_value (c : ascii) : Z := Z.of_nat (code c - 48).

(** The whitespace [int()] skips around a number: ASCII whitespace and
    the two non-ASCII spaces below 256. *)
Definition int_space (c : ascii) : bool :=
  let n := code c in
  ((9 <=? n) && (n <=? 13)) || (n =? 32) || (n =? 133) || (n =? 160).

Fixpoint int_lstrip (s : str) : str :=
  match s with
  | [] => []
  | c :: r => if int_space c then int_lstrip r else s
  end.

(** Decimal digits, single underscores allowed between two digits. *)
Fixpoint digits_value (acc : Z) (after_digit : bool) (s : str) : option Z :=
  match s with
  | [] => if after_digit then Some acc else None
  | c :: r =>
      if isdigit c then digits_value (10 * acc + digit_value c) true r
      else if Ascii.eqb c "_" && after_digit then
        match r with
        | [] => None
        | _ => digits_value acc false r
        end
      else None
  end.

(** [int(s)] in base 10 (the limit on the number of digits that recent
    interpreters impose is not part of the model). *)
Definition int (s : str) : result Z :=
  let body := rev (int_lstrip (rev (int_lstrip s))) in
  let parsed :=
    match body with
    | c :: r =>
        if Ascii.eqb c "+" then digits_value 0 false r
        else if Ascii.eqb c "-" then option_map Z.opp (digits_value 0 false r)
        else digits_value 0 false body
    | [] => None
    end in
  match parsed with
  | Some z => Ok z
  | None => Raise ValueError
  end.

Definition digit_char (n : N) : ascii := ascii_of_N (48 + n).

Fixpoint digits_of (fuel : nat) (n : N) (acc : str) : str :=
  match fuel with
  | O => acc
  | S fuel' =>
      let acc' := digit_char (n mod 10) :: acc in
      if (n / 10 =? 0)%N then acc' else digits_of fuel' (n / 10) acc'
  end.

Definition str_of_N (n : N) : str := digits_of (S (N.to_nat (N.log2 n))) n [].

(** [str(x)] for an integer. *)
Definition str_of_int (x : Z) : str :=
  match x with
  | Z0 => lit "0"
  | Zpos p => str_of_N (Npos p)
  | Zneg p => "-"%char :: str_of_N (Npos p)
  end.

(** [s.zfill(width)] *)
Definition zfill (s : str) (width : nat) : str :=
  if width <=? length s then s
  else
    let fill := repeat "0"%char (width - length s) in
    match s with
    | c :: r => if Ascii.eqb c "+" || Ascii.eqb c "-" then c :: fill ++ r
                else fill ++ s
    | [] => fill
    end.

(** [range(a, b)] *)
Definition range (a b : Z) : list Z :=
  map (fun k => (a + Z.of_nat k)%Z) (seq 0 (Z.to_nat (b - a))).

End PyStr.
Import PyStr.

(** ** NodeRangeParser *)

(** The loop of [split_node_str]: [ii] is the index of the next character,
    [stack] holds the pending opening brackets. [stack.pop()] on an empty
    stack raises IndexError. *)
Fixpoint scan_breakpoints (chars : str) (ii : nat)
         (breakpoints : list nat) (stack : list ascii) : result (list nat) :=
  match chars with
  | [] => Ok breakpoints
  | char :: rest =>
      if Ascii.eqb char "[" then
        scan_breakpoints rest (S ii) breakpoints (stack ++ [char])
      else if Ascii.eqb char "]" then
        match stack with
        | [] => Raise IndexError
        | _ => scan_breakpoints rest (S ii) breakpoints (removelast stack)
        end
      else if (match stack with [] => true | _ => false end)
              && Ascii.eqb char "," then
        scan_breakpoints rest (S ii) (breakpoints ++ [ii + 1]) stack
      else scan_breakpoints rest (S ii) breakpoints stack
  end.

Definition split_node_str (node_str : str) : result (list str) :=
  let node_str := strip node_str in
  breakpoints <- scan_breakpoints node_str 0 [0] [] ;;
  let end_ := length node_str + 1 in
  Ok (map (fun '(i, j) => slice node_str i (j - 1))
          (combine breakpoints (tl breakpoints ++ [end_]))).

(** The body of the loop over [subspecs] in [parse_node_names]. *)
Definition expand_subspec (prefix subspec : str) : result (list str) :=
  if negb (contains "-" subspec) then Ok [prefix ++ subspec]
  else
    match split "-" subspec with
    | [start; end_] =>
        let num_digits := length start in
        a <- int start ;;
        b <- int end_ ;;
        Ok (map (fun x => prefix ++ zfill (str_of_int x) num_digits)
                (range a (b + 1)))
    | _ => Raise ValueError
    end.

Fixpoint expand_subspecs (prefix : str) (subspecs : list str)
         (names : list str) : result (list str) :=
  match subspecs with
  | [] => Ok names
  | subspec :: rest =>
      subnames <- expand_subspec prefix subspec ;;
      expand_subspecs prefix rest (names ++ subnames)
  end.

(** The loop over [node_specs] in [parse_node_names]. *)
Fixpoint expand_specs (node_specs : list str) (names : list str)
  : result (list str) :=
  match node_specs with
  | [] => Ok names
  | node_spec :: rest =>
      if negb (contains "[" node_spec) then
        expand_specs rest (names ++ [node_spec])
      else
        head <- index "[" node_spec ;;
        tail <- index "]" node_spec ;;
        let prefix := firstn head node_spec in
        let subspecs := split "," (slice node_spec (head + 1) tail) in
        names' <- expand_subspecs prefix subspecs names ;;
        expand_specs rest names'
  end.

Definition parse_node_names (node_str : str) : result (list str) :=
  node_specs <- split_node_str node_str ;;
  expand_specs node_specs [].

(** *** Bracket depth, as [split_node_str] tracks it

    The stack only ever holds opening brackets, so its length is the
    bracket depth. *)

(** Depth after the loop has consumed [s], entered at depth [d]; [None]
    when a closing bracket meets an empty stack. *)
Fixpoint depth_after (d : nat) (s : str) : option nat :=
  match s with
  | [] => Some d
  | c :: r =>
      if Ascii.eqb c "[" then depth_after (S d) r
      else if Ascii.eqb c "]" then
        match d with
        | O => None
        | S d' => depth_after d' r
        end
      else depth_after d r
  end.

(** Whether the loop, entered at depth [d], meets a comma at depth zero
    before the stack underflows. *)
Fixpoint top_level_comma (d : nat) (s : str) : bool :=
  match s with
  | [] => false
  | c :: r =>
      if Ascii.eqb c "[" then top_level_comma (S d) r
      else if Ascii.eqb c "]" then
        match d with
        | O => false
        | S d' => top_level_comma d' r
        end
      else if (d =? 0) && Ascii.eqb c "," then true
      else top_level_comma d r
  end.

(** Positions of the commas met at depth zero. *)
Fixpoint top_commas (d : nat) (s : str) : option (list nat) :=
  match s with
  | [] => Some []
  | c :: r =>
      if Ascii.eqb c "[" then option_map (map S) (top_commas (S d) r)
      else if Ascii.eqb c "]" then
        match d with
        | O => None
        | S d' => option_map (map S) (top_commas d' r)
        end
      else if (d =? 0) && Ascii.eqb c "," then
        option_map (fun q => 0 :: map S q) (top_commas 0 r)
      else option_map (map S) (top_commas d r)
  end.

(** The substrings of [s] between the positions [q], from [start] on. *)
Fixpoint cut_at (s : str) (start : nat) (q : list nat) : list str :=
  match q with
  | [] => [slice s start (length s)]
  | p :: q' => slice s start p :: cut_at s (S p) q'
  end.

(** ** Dictionaries

    A [dict] keeps its keys in insertion order and holds each key once. *)

Module Dict.

Definition dict (V : Type) : Type := list (str * V).

(** [d.get(k)] *)
Fixpoint get {V : Type} (d : dict V) (k : str) : option V :=
  match d with
  | [] => None
  | (k', v) :: r => if str_eqb k' k then Some v else get r k
  end.

(** [d[k] = v]: overwrite in place, or add at the end. *)
Fixpoint set {V : Type} (d : dict V) (k : str) (v : V) : dict V :=
  match d with
  | [] => [(k, v)]
  | (k', v') :: r =>
      if str_eqb k' k then (k', v) :: r else (k', v') :: set r k v
  end.

(** [d.get(k, default)] *)
Definition get_default {V : Type} (d : dict V) (k : str) (default : V) : V :=
  match get d k with
  | Some v => v
  | None => default
  end.

Definition keys {V : Type} (d : dict V) : list str := map fst d.

Definition values {V : Type} (d : dict V) : list V := map snd d.

(** The dict without the key [k]. *)
Definition remove {V : Type} (d : dict V) (k : str) : dict V :=
  filter (fun kv => negb (str_eqb (fst kv) k)) d.

End Dict.

(** ** Data model *)

(** One [{"type": .., "count": ..}] record of the inventory. *)
Record GPUResourceSpec : Type := mkSpec {
  spec_type : str;
  spec_count : Z
}.

(** The store of the inventory's records; an address is a position. *)
Definition addr : Type := nat.
Definition heap : Type := list GPUResourceSpec.

Definition heap_get (h : heap) (a : addr) : GPUResourceSpec :=
  nth a h (mkSpec [] 0).

(** [x["count"] = count] for the record at address [a]. *)
Fixpoint set_count (h : heap) (a : addr) (count : Z) : heap :=
  match h, a with
  | [], _ => []
  | x :: r, O => mkSpec (spec_type x) count :: r
  | x :: r, S a' => x :: set_count r a' count
  end.

(** Inventory: node name to the list of its records. The lists are built
    once by [parse_all_gpus] and only read afterwards, so a list is kept
    by value; the records in it are referenced by address. *)
Definition inventory : Type := Dict.dict (list addr).

(** UsageRecord: user, then GPU type, then node name, to a count. *)
Definition usage_record : Type := Dict.dict (Dict.dict (Dict.dict Z)).

(** Node states as [sinfo] reports them. *)
Definition node_state_map : Type := Dict.dict str.

(** SLURM states of nodes that take no new job. *)
Definition INACCESSIBLE : list str :=
  [lit "drain*"; lit "down*"; lit "drng"; lit "drain"; lit "down"].

Definition in_set (x : str) (set : list str) : bool :=
  existsb (str_eqb x) set.

(** [[x["type"] for x in specs]] *)
Definition types_of (h : heap) (specs : list addr) : list str :=
  map (fun a => spec_type (heap_get h a)) specs.

(** [l.index(x)]: the first position of [x]; ValueError when absent. *)
Fixpoint list_index (l : list str) (x : str) : result nat :=
  match l with
  | [] => Raise ValueError
  | y :: r => if str_eqb y x then Ok 0 else i <- list_index r x ;; Ok (S i)
  end.

(** ** More string operations *)

(** [s.split()]: the maximal runs of non-whitespace characters; [cur]
    is the run being read, reversed. *)
Fixpoint split_whitespace (cur : str) (s : str) : list str :=
  match s with
  | [] => match cur with
          | [] => []
          | _ => [rev cur]
          end
  | c :: r =>
      if isspace c then
        match cur with
        | [] => split_whitespace [] r
        | _ => rev cur :: split_whitespace [] r
        end
      else split_whitespace (c :: cur) r
  end.

(** [s.startswith(p)] *)
Fixpoint startswith (s p : str) : bool :=
  match p, s with
  | [], _ => true
  | _ :: _, [] => false
  | x :: p', y :: s' => Ascii.eqb x y && startswith s' p'
  end.

Definition newline : ascii := ascii_of_nat 10.

(** [sum(values)] *)
Definition sum (values : list Z) : Z := fold_left Z.add values 0%Z.

(** ** The scheduler, as the tool sees it

    What [parse_cmd] returns for each of the three commands (the
    non-empty output lines), and the draws of [random.choice]. *)
Record scheduler : Type := mkScheduler {
  sinfo_gpus : list str;
  sinfo_states : list str;
  squeue_jobs : list str;
  random_draw : nat -> nat
}.

(** [l[i]]: IndexError when out of range. *)
Definition getitem_list {A : Type} (l : list A) (i : nat) : result A :=
  match nth_error l i with
  | Some x => Ok x
  | None => Raise IndexError
  end.

(** [node_states]: the loop over the rows of [sinfo --noheader]. *)
Fixpoint node_states_rows (rows : list str) (states : node_state_map)
  : result node_state_map :=
  match rows with
  | [] => Ok states
  | row :: rest =>
      let tokens := split_whitespace [] row in
      state <- getitem_list tokens 4 ;;
      names <- getitem_list tokens 5 ;;
      node_names <- parse_node_names names ;;
      node_states_rows rest
        (fold_left (fun st name => Dict.set st name state) node_names states)
  end.

Definition node_states (sched : scheduler) : result node_state_map :=
  node_states_rows (sinfo_states sched) [].

(** ** InventoryBuilder *)

(** [resources[name].append({"type": gpu_type, "count": gpu_count})] on a
    [defaultdict(list)], for every name: each record is a new object. *)
Fixpoint append_specs (node_names : list str) (gpu_type : str)
         (gpu_count : Z) (h : heap) (resources : inventory)
  : heap * inventory :=
  match node_names with
  | [] => (h, resources)
  | name :: rest =>
      let a := length h in
      let specs := Dict.get_default resources name [] in
      append_specs rest gpu_type gpu_count
                   (h ++ [mkSpec gpu_type gpu_count])
                   (Dict.set resources name (specs ++ [a]))
  end.

(** The loop over the resource strings of one row. *)
Fixpoint parse_resource_strs (default_gpus : Z) (node_str : str)
         (resource_strs : list str) (h : heap) (resources : inventory)
  : result (heap * inventory) :=
  match resource_strs with
  | [] => Ok (h, resources)
  | resource_str :: rest =>
      if negb (startswith resource_str (lit "gpu")) then
        parse_resource_strs default_gpus node_str rest h resources
      else
        let tokens := split ":" (strip resource_str) in
        count_field <- getitem_list tokens 2 ;;
        gpu_type <- getitem_list tokens 1 ;;
        gpu_count <- match count_field with
                     | [] => Ok default_gpus
                     | _ => int count_field
                     end ;;
        node_names <- parse_node_names node_str ;;
        let '(h', resources') :=
          append_specs node_names gpu_type gpu_count h resources in
        parse_resource_strs default_gpus node_str rest h' resources'
  end.

(** The loop over the rows of [sinfo -o '%50N|%30G' --noheader]. *)
Fixpoint parse_gpu_rows (default_gpus : Z) (rows : list str)
         (h : heap) (resources : inventory) : result (heap * inventory) :=
  match rows with
  | [] => Ok (h, resources)
  | row :: rest =>
      match split "|" row with
      | [node_str; resource_strs] =>
          hr <- parse_resource_strs default_gpus node_str
                  (split "," resource_strs) h resources ;;
          parse_gpu_rows default_gpus rest (fst hr) (snd hr)
      | _ => Raise ValueError
      end
  end.

(** [parse_all_gpus(default_gpus)]: the records are allocated in [h]. *)
Definition parse_all_gpus (default_gpus : Z) (sched : scheduler) (h : heap)
  : result (heap * inventory) :=
  parse_gpu_rows default_gpus (sinfo_gpus sched) h [].

(** [by_type[spec["type"]] += spec["count"]] for the specs of one node. *)
Fixpoint add_specs (h : heap) (specs : list addr) (by_type : Dict.dict Z)
  : Dict.dict Z :=
  match specs with
  | [] => by_type
  | a :: rest =>
      let spec := heap_get h a in
      add_specs h rest
        (Dict.set by_type (spec_type spec)
           (Dict.get_default by_type (spec_type spec) 0 + spec_count spec)%Z)
  end.

Definition resource_by_type (h : heap) (resources : inventory)
  : Dict.dict Z :=
  fold_left (fun by_type specs => add_specs h specs by_type)
            (Dict.values resources) [].

(** [sorted(items, key=lambda x: x[1])]: a stable sort on the values. *)
Fixpoint insert_by_value (x : str * Z) (l : list (str * Z))
  : list (str * Z) :=
  match l with
  | [] => [x]
  | y :: r => if (snd x <=? snd y)%Z then x :: y :: r
              else y :: insert_by_value x r
  end.

Definition sorted_by_value (l : list (str * Z)) : list (str * Z) :=
  fold_right insert_by_value [] l.

(** [summary_by_type]: returns the two printed texts. *)
Definition summary_by_type (h : heap) (resources : inventory) (tag : str)
  : list str :=
  let by_type := resource_by_type h resources in
  let total := sum (Dict.values by_type) in
  let agg_str :=
    map (fun kv => str_of_int (snd kv) ++ lit " " ++ fst kv ++ lit " gpus")
        (sorted_by_value by_type) in
  [lit "There are a total of " ++ str_of_int total ++ lit " gpus ["
     ++ tag ++ lit "]";
   join [newline] agg_str].

(** The nodes kept by the comprehension that [summary] (mode
    "accessible") and [available] both build: a new plain dict holding,
    for every node whose state is not in [INACCESSIBLE], the very list of
    the original. A node without a state counts as "down". *)
Definition accessible (resources : inventory) (states : node_state_map)
  : inventory :=
  filter (fun kv =>
            negb (in_set (Dict.get_default states (fst kv) (lit "down"))
                         INACCESSIBLE))
         resources.

(** [if not x: x = query()] for an optional mapping argument. *)
Definition or_query {V S : Type} (arg : option (Dict.dict V)) (s : S)
           (query : S -> result (S * Dict.dict V))
  : result (S * Dict.dict V) :=
  match arg with
  | Some (kv :: d) => Ok (s, kv :: d)
  | _ => query s
  end.

(** [summary], once both arguments are there: the printed texts. *)
Definition summary_from (mode : str) (resources : inventory)
           (states : node_state_map) (h : heap) : result (list str) :=
  if str_eqb mode (lit "accessible") then
    Ok (summary_by_type h (accessible resources states) mode)
  else if str_eqb mode (lit "up") then
    Ok (summary_by_type h resources mode)
  else Raise ValueError.

(** [summary(mode, resources, states)]: the heap after the call (the
    inventory may have been queried) and the printed texts. *)
Definition summary (sched : scheduler) (mode : str)
           (resources : option inventory) (states : option node_state_map)
           (h : heap) : result (heap * list str) :=
  hr <- or_query resources h (parse_all_gpus 4 sched) ;;
  us <- or_query states tt
          (fun u => st <- node_states sched ;; Ok (u, st)) ;;
  out <- summary_from mode (snd hr) (snd us) (fst hr) ;;
  Ok (fst hr, out).

(** ** UsageAggregator *)

(** [gpu_usage] receives either the [defaultdict(list)] built by
    [parse_all_gpus] or the plain dict of accessible nodes. *)
Inductive mapping_kind : Type :=
| PlainDict
| DefaultDict.

(** [resources[node_name]]: a missing key raises KeyError on a plain dict
    and is added with an empty list on a [defaultdict(list)]. *)
Definition getitem_resources (kind : mapping_kind) (resources : inventory)
           (node_name : str) : result (list addr * inventory) :=
  match Dict.get resources node_name with
  | Some specs => Ok (specs, resources)
  | None =>
      match kind with
      | PlainDict => Raise KeyError
      | DefaultDict => Ok ([], Dict.set resources node_name [])
      end
  end.

(** The local variable [gpu_type] of [gpu_usage]: not yet assigned,
    [None], or a type name. *)
Inductive gpu_type_var : Type :=
| Unbound
| PyNone
| TypeName (t : str).

(** What the loops of [gpu_usage] read and write. *)
Record usage_state : Type := mkUsageState {
  st_resources : inventory;
  st_usage : usage_record;
  st_gpu_type : gpu_type_var;
  st_out : list str;
  st_draws : nat
}.

(** [random.choice(seq)]: IndexError on an empty sequence. *)
Definition choice (sched : scheduler) (draws : nat) (seq : list str)
  : result str :=
  match seq with
  | [] => Raise IndexError
  | x :: _ => Ok (nth (random_draw sched draws mod length seq) seq x)
  end.

Definition warning (user node_name gpu_type : str) : str :=
  lit "WARNING >>> cannot determine node gpu type for " ++ user
  ++ lit " on " ++ node_name ++ lit " (guesssing " ++ gpu_type ++ lit ")".

(** [usage[user][gpu_type][node_name] += num_gpus], where [usage] is a
    [defaultdict(dict)] and a new [usage[user][gpu_type]] starts as a
    [defaultdict(lambda: 0)]. *)
Definition add_usage (usage : usage_record) (user gpu_type node_name : str)
           (num_gpus : Z) : usage_record :=
  let by_type := Dict.get_default usage user [] in
  let by_node := Dict.get_default by_type gpu_type [] in
  let count := Dict.get_default by_node node_name 0%Z in
  Dict.set usage user
    (Dict.set by_type gpu_type
       (Dict.set by_node node_name (count + num_gpus)%Z)).

(** The body of the loop over [node_names] in [gpu_usage]. *)
Definition gpu_usage_node (sched : scheduler) (h : heap)
           (kind : mapping_kind) (user : str) (num_gpus : Z)
           (node_name : str) (st : usage_state) : result usage_state :=
  sr <- getitem_resources kind (st_resources st) node_name ;;
  let '(specs, resources) := sr in
  let node_gpu_types := types_of h specs in
  resolved <-
    match st_gpu_type st with
    | Unbound => Raise UnboundLocalError
    | PyNone =>
        if negb (length node_gpu_types =? 1) then
          gpu_type <- choice sched (st_draws st) node_gpu_types ;;
          Ok (gpu_type,
              st_out st ++ [warning user node_name gpu_type],
              S (st_draws st))
        else
          gpu_type <- getitem_list node_gpu_types 0 ;;
          Ok (gpu_type, st_out st, st_draws st)
    | TypeName gpu_type => Ok (gpu_type, st_out st, st_draws st)
    end ;;
  let '(gpu_type, out, draws) := resolved in
  Ok (mkUsageState resources
        (add_usage (st_usage st) user gpu_type node_name num_gpus)
        (TypeName gpu_type) out draws).

Fixpoint gpu_usage_nodes (sched : scheduler) (h : heap)
         (kind : mapping_kind) (user : str) (num_gpus : Z)
         (node_names : list str) (st : usage_state) : result usage_state :=
  match node_names with
  | [] => Ok st
  | node_name :: rest =>
      st' <- gpu_usage_node sched h kind user num_gpus node_name st ;;
      gpu_usage_nodes sched h kind user num_gpus rest st'
  end.

(** [l[-1]] *)
Definition last_item {A : Type} (l : list A) : result A :=
  match rev l with
  | x :: _ => Ok x
  | [] => Raise IndexError
  end.

(** The body of the loop over [rows] in [gpu_usage]. *)
Definition gpu_usage_row (sched : scheduler) (h : heap)
           (kind : mapping_kind) (row : str) (st : usage_state)
  : result usage_state :=
  let tokens := split_whitespace [] row in
  if (length tokens <? 3)
     || negb (startswith (nth 0 tokens []) (lit "gpu")) then Ok st
  else
    match tokens with
    | [gpu_count_str; node_str; user] =>
        let gpu_count_tokens := split ":" gpu_count_str in
        count_field <- last_item gpu_count_tokens ;;
        num_gpus <- int count_field ;;
        let gpu_type :=
          if length gpu_count_tokens =? 2 then PyNone
          else if length gpu_count_tokens =? 3 then
            TypeName (nth 1 gpu_count_tokens [])
          else st_gpu_type st in
        node_names <- parse_node_names node_str ;;
        gpu_usage_nodes sched h kind user num_gpus node_names
          (mkUsageState (st_resources st) (st_usage st) gpu_type
                        (st_out st) (st_draws st))
    | _ => Raise ValueError
    end.

Fixpoint gpu_usage_rows (sched : scheduler) (h : heap)
         (kind : mapping_kind) (rows : list str) (st : usage_state)
  : result usage_state :=
  match rows with
  | [] => Ok st
  | row :: rest =>
      st' <- gpu_usage_row sched h kind row st ;;
      gpu_usage_rows sched h kind rest st'
  end.

(** [gpu_usage(resources)]: the final state holds the usage record, the
    mapping (a [defaultdict] may have grown) and the printed warnings. *)
Definition gpu_usage (sched : scheduler) (h : heap) (kind : mapping_kind)
           (resources : inventory) (out : list str) (draws : nat)
  : result usage_state :=
  gpu_usage_rows sched h kind (squeue_jobs sched)
                 (mkUsageState resources [] Unbound out draws).

(** ** AvailabilityEstimator *)

(** The body of the innermost loop of [available]. *)
Definition subtract_one (res : inventory) (gpu_type node_name : str)
           (user_gpu_count : Z) (h : heap) : result heap :=
  match Dict.get res node_name with
  | None => Raise KeyError
  | Some specs =>
      resource_idx <- list_index (types_of h specs) gpu_type ;;
      let a := nth resource_idx specs 0 in
      let count := spec_count (heap_get h a) in
      let count := Z.max (count - user_gpu_count) 0 in
      Ok (set_count h a count)
  end.

Fixpoint subtract_nodes (res : inventory) (gpu_type : str)
         (node_dicts : Dict.dict Z) (h : heap) : result heap :=
  match node_dicts with
  | [] => Ok h
  | (node_name, user_gpu_count) :: rest =>
      h' <- subtract_one res gpu_type node_name user_gpu_count h ;;
      subtract_nodes res gpu_type rest h'
  end.

Fixpoint subtract_types (res : inventory)
         (subdict : Dict.dict (Dict.dict Z)) (h : heap) : result heap :=
  match subdict with
  | [] => Ok h
  | (gpu_type, node_dicts) :: rest =>
      h' <- subtract_nodes res gpu_type node_dicts h ;;
      subtract_types res rest h'
  end.

(** The loop over [usage.values()] in [available]. *)
Fixpoint subtract_usage (res : inventory) (usage : usage_record) (h : heap)
  : result heap :=
  match usage with
  | [] => Ok h
  | (_, subdict) :: rest =>
      h' <- subtract_types res subdict h ;;
      subtract_usage res rest h'
  end.

(** [available], once both arguments are there: the heap after the call
    and the printed texts. *)
Definition available_from (sched : scheduler) (resources : inventory)
           (states : node_state_map) (h : heap) : result (heap * list str) :=
  let res := accessible resources states in
  st <- gpu_usage sched h PlainDict res [] 0 ;;
  let usage := st_usage st in
  h' <- subtract_usage res usage h ;;
  let by_type := resource_by_type h' res in
  let total := sum (Dict.values by_type) in
  Ok (h',
      st_out st
      ++ [lit "There are " ++ str_of_int total ++ lit " gpus available:"]
      ++ map (fun kv => fst kv ++ lit ": " ++ str_of_int (snd kv)) by_type).

(** [available(resources, states)] *)
Definition available (sched : scheduler)
           (resources : option inventory) (states : option node_state_map)
           (h : heap) : result (heap * list str) :=
  hr <- or_query resources h (parse_all_gpus 4 sched) ;;
  us <- or_query states tt
          (fun u => st <- node_states sched ;; Ok (u, st)) ;;
  available_from sched (snd hr) (snd us) (fst hr).

(** *** Reading the estimator's loops *)

(** The [(gpu_type, node_name, user_gpu_count)] triples in the order in
    which the three nested loops of [available] meet them. *)
Definition usage_triples (usage : usage_record) : list (str * str * Z) :=
  flat_map (fun user_entry =>
    flat_map (fun type_entry =>
      map (fun node_entry =>
             (fst type_entry, fst node_entry, snd node_entry))
          (snd type_entry))
      (snd user_entry))
    usage.

(** The sum of the counts allocated on [node_name] for [gpu_type], over
    all users. *)
Definition allocated (usage : usage_record) (node_name gpu_type : str) : Z :=
  sum (map (fun q => snd q)
           (filter (fun q => str_eqb (fst (fst q)) gpu_type
                             && str_eqb (snd (fst q)) node_name)
                   (usage_triples usage))).

(** Whether position [i] is the one [.index] finds for its own type. *)
Definition first_of_type (types : list str) (i : nat) : bool :=
  match nth_error types i with
  | Some t => match list_index types t with
              | Ok j => j =? i
              | Raise _ => false
              end
  | None => false
  end.


(** Every record of the inventory is allocated in the heap and belongs
    to one node, once (what [parse_all_gpus] builds). *)
Definition inventory_wf (h : heap) (res : inventory) : Prop :=
  NoDup (concat (Dict.values res)) /\
  Forall (fun a => a < length h) (concat (Dict.values res)).

(** The pair of a usage triple is in the inventory. *)
Definition in_inventory (h : heap) (res : inventory) (q : str * str * Z)
  : bool :=
  match Dict.get res (snd (fst q)) with
  | Some specs => in_set (fst (fst q)) (types_of h specs)
  | None => false
  end.

(** The address whose count one step of the loop rewrites. *)
Definition target (res : inventory) (h : heap) (gpu_type node_name : str)
  : result addr :=
  match Dict.get res node_name with
  | None => Raise KeyError
  | Some specs =>
      resource_idx <- list_index (types_of h specs) gpu_type ;;
      Ok (nth resource_idx specs 0)
  end.

(** The three loops, run over the flattened triples. *)
Fixpoint subtract_triples (res : inventory) (triples : list (str * str * Z))
         (h : heap) : result heap :=
  match triples with
  | [] => Ok h
  | q :: rest =>
      h' <- subtract_one res (fst (fst q)) (snd (fst q)) (snd q) h ;;
      subtract_triples res rest h'
  end.

Definition targets (res : inventory) (h : heap) (a : addr)
           (q : str * str * Z) : bool :=
  match target res h (fst (fst q)) (snd (fst q)) with
  | Ok a' => a' =? a
  | Raise _ => false
  end.

(** The sum of the counts of the triples that rewrite address [a]. *)
Definition allocated_at (res : inventory) (h : heap)
           (triples : list (str * str * Z)) (a : addr) : Z :=
  sum (map (fun q => snd q) (filter (targets res h a) triples)).

(** What the original mapping shows: types and counts, node by node. *)
Definition inventory_view (h : heap) (resources : inventory)
  : Dict.dict (list (str * Z)) :=
  map (fun kv =>
         (fst kv,
          map (fun a => (spec_type (heap_get h a), spec_count (heap_get h a)))
              (snd kv)))
      resources.

(** ** The historical log: [repr] and [ast.literal_eval]

    [serialize_usage] writes the [repr] of nested dicts of strings and
    integers; [deserialize_usage] reads it back with [ast.literal_eval].
    The values of that fragment: *)

Inductive pykey : Type :=
| KInt (z : Z)
| KStr (s : str).

#[warning="-register-all"]
Inductive pyval : Type :=
| VInt (z : Z)
| VStr (s : str)
| VDict (items : list (pykey * pyval)).

Definition pykey_eqb (a b : pykey) : bool :=
  match a, b with
  | KInt x, KInt y => (x =? y)%Z
  | KStr x, KStr y => str_eqb x y
  | _, _ => false
  end.

(** [d[k] = v] on the items of a dict value. *)
Fixpoint items_set (d : list (pykey * pyval)) (k : pykey) (v : pyval)
  : list (pykey * pyval) :=
  match d with
  | [] => [(k, v)]
  | (k', v') :: r =>
      if pykey_eqb k' k then (k', v) :: r else (k', v') :: items_set r k v
  end.

Definition squote : ascii := "'"%char.
Definition dquote : ascii := ascii_of_nat 34.
Definition backslash : ascii := ascii_of_nat 92.
Definition tab : ascii := ascii_of_nat 9.
Definition carriage_return : ascii := ascii_of_nat 13.

(** [str.isprintable] on one character, for code points below 256. *)
Definition isprintable (c : ascii) : bool :=
  let n := code c in
  ((32 <=? n) && (n <? 127)) || ((161 <=? n) && negb (n =? 173)).

Definition hex_digit (n : nat) : ascii :=
  nth n (lit "0123456789abcdef") "0"%char.

(** One character of a string, as [repr] writes it between [quote]s. *)
Definition repr_char (quote c : ascii) : str :=
  if Ascii.eqb c quote || Ascii.eqb c backslash then [backslash; c]
  else if Ascii.eqb c tab then [backslash; "t"%char]
  else if Ascii.eqb c newline then [backslash; "n"%char]
  else if Ascii.eqb c carriage_return then [backslash; "r"%char]
  else if negb (isprintable c) then
    [backslash; "x"%char; hex_digit (code c / 16); hex_digit (code c mod 16)]
  else [c].

(** [repr(s)] for a string: double quotes only when [s] holds a single
    quote and no double quote. *)
Definition repr_str (s : str) : str :=
  let quote :=
    if contains squote s && negb (contains dquote s) then dquote
    else squote in
  quote :: flat_map (repr_char quote) s ++ [quote].

(** [repr(d)] for a dict with string keys, given the [repr] of its
    values. *)
Definition repr_dict {V : Type} (repr_value : V -> str) (d : Dict.dict V)
  : str :=
  lit "{"
  ++ join (lit ", ")
       (map (fun kv => repr_str (fst kv) ++ lit ": " ++ repr_value (snd kv))
            d)
  ++ lit "}".

(** [serialize_usage(usage)]: the inner [defaultdict]s are turned into
    dicts with the same items, then [usage.__repr__()]. *)
Definition serialize_usage (usage : usage_record) : str :=
  repr_dict (repr_dict (repr_dict str_of_int)) usage.

(** The value a usage record is. *)
Definition value_of_dict {V : Type} (value_of : V -> pyval)
           (d : Dict.dict V) : pyval :=
  VDict (map (fun kv => (KStr (fst kv), value_of (snd kv))) d).

Definition value_of_usage (usage : usage_record) : pyval :=
  value_of_dict (value_of_dict (value_of_dict VInt)) usage.

(** *** String literals *)

Definition hex_value (c : ascii) : option nat :=
  let n := code c in
  if (48 <=? n) && (n <=? 57) then Some (n - 48)
  else if (97 <=? n) && (n <=? 102) then Some (n - 87)
  else if (65 <=? n) && (n <=? 70) then Some (n - 55)
  else None.

Definition oct_value (c : ascii) : option nat :=
  let n := code c in
  if (48 <=? n) && (n <=? 55) then Some (n - 48) else None.

(** Where the scanner of a string literal stands. *)
Inductive scan_mode : Type :=
| Plain
| Escape
| Hex0
| Hex1 (d : nat)
| Oct1 (d : nat)
| Oct2 (d : nat).

Inductive scan_step : Type :=
| Next (mode : scan_mode) (acc : str)
| Closed (acc : str)
| Failed (e : exn).

(** A character outside an escape sequence. *)
Definition scan_plain (quote : ascii) (acc : str) (c : ascii) : scan_step :=
  if Ascii.eqb c quote then Closed acc
  else if Ascii.eqb c newline then Failed SyntaxError
  else if Ascii.eqb c backslash then Next Escape acc
  else Next Plain (c :: acc).

(** The character after a backslash. An unknown escape keeps the
    backslash; the escapes that name a code point ([\N], [\u], [\U]) are
    outside the fragment. *)
Definition scan_escape (acc : str) (c : ascii) : scan_step :=
  let emit n := Next Plain (ascii_of_nat n :: acc) in
  if Ascii.eqb c newline then Next Plain acc
  else if Ascii.eqb c backslash || Ascii.eqb c squote || Ascii.eqb c dquote
  then Next Plain (c :: acc)
  else if Ascii.eqb c "a" then emit 7
  else if Ascii.eqb c "b" then emit 8
  else if Ascii.eqb c "f" then emit 12
  else if Ascii.eqb c "n" then emit 10
  else if Ascii.eqb c "r" then emit 13
  else if Ascii.eqb c "t" then emit 9
  else if Ascii.eqb c "v" then emit 11
  else if Ascii.eqb c "x" then Next Hex0 acc
  else if Ascii.eqb c "N" || Ascii.eqb c "u" || Ascii.eqb c "U"
  then Failed SyntaxError
  else match oct_value c with
       | Some d => Next (Oct1 d) acc
       | None => Next Plain (c :: backslash :: acc)
       end.

(** The end of an octal escape of value [n], met at character [c]. *)
Definition scan_octal_end (quote : ascii) (acc : str) (n : nat) (c : ascii)
  : scan_step :=
  if n <? 256 then scan_plain quote (ascii_of_nat n :: acc) c
  else Failed SyntaxError.

Definition scan_char (quote : ascii) (mode : scan_mode) (acc : str)
           (c : ascii) : scan_step :=
  match mode with
  | Plain => scan_plain quote acc c
  | Escape => scan_escape acc c
  | Hex0 =>
      match hex_value c with
      | Some d => Next (Hex1 d) acc
      | None => Failed SyntaxError
      end
  | Hex1 d =>
      match hex_value c with
      | Some d' => Next Plain (ascii_of_nat (16 * d + d') :: acc)
      | None => Failed SyntaxError
      end
  | Oct1 d =>
      match oct_value c with
      | Some d' => Next (Oct2 (8 * d + d')) acc
      | None => scan_octal_end quote acc d c
      end
  | Oct2 d =>
      match oct_value c with
      | Some d' =>
          if 8 * d + d' <? 256
          then Next Plain (ascii_of_nat (8 * d + d') :: acc)
          else Failed SyntaxError
      | None => scan_octal_end quote acc d c
      end
  end.

(** The body of a string literal, after the opening quote: the string
    and what follows the closing quote. [acc] is reversed. *)
Fixpoint scan_string (quote : ascii) (mode : scan_mode) (acc : str)
         (s : str) : result (str * str) :=
  match s with
  | [] => Raise SyntaxError
  | c :: r =>
      match scan_char quote mode acc c with
      | Next mode' acc' => scan_string quote mode' acc' r
      | Closed acc' => Ok (rev acc', r)
      | Failed e => Raise e
      end
  end.

(** *** Integer literals *)

(** The longest prefix of digits and underscores. *)
Fixpoint span_number (s : str) : str * str :=
  match s with
  | [] => ([], [])
  | c :: r =>
      if isdigit c || Ascii.eqb c "_" then
        let '(tok, rest) := span_number r in (c :: tok, rest)
      else ([], s)
  end.

(** A decimal integer literal: digits with single underscores between
    them, and no leading zero unless the value is zero. *)
Definition int_literal (s : str) : result (Z * str) :=
  let '(tok, rest) := span_number s in
  match digits_value 0 false tok with
  | Some z =>
      match tok with
      | c :: _ =>
          if Ascii.eqb c "0" && negb (z =? 0)%Z then Raise SyntaxError
          else Ok (z, rest)
      | [] => Raise SyntaxError
      end
  | None => Raise SyntaxError
  end.

(** *** [ast.literal_eval] on the fragment

    Dict displays, string literals in single or double quotes, decimal
    integers and a sign before an integer. On any other text the model
    answers SyntaxError, also where Python would accept it (other
    literals, comments, parentheses, adjacent strings). *)

(** White space between tokens; a line end only counts inside braces. *)
Fixpoint skip_space (nested : bool) (s : str) : str :=
  match s with
  | [] => []
  | c :: r =>
      if Ascii.eqb c " " || Ascii.eqb c tab || (code c =? 12)
         || (nested && (Ascii.eqb c newline || Ascii.eqb c carriage_return))
      then skip_space nested r
      else s
  end.

Definition key_of_value (v : pyval) : result pykey :=
  match v with
  | VInt z => Ok (KInt z)
  | VStr k => Ok (KStr k)
  | VDict _ => Raise TypeError
  end.

Fixpoint literal_value (fuel : nat) (nested : bool) (s : str)
  : result (pyval * str) :=
  match fuel with
  | O => Raise SyntaxError
  | S fuel' =>
      match skip_space nested s with
      | [] => Raise SyntaxError
      | c :: r =>
          if Ascii.eqb c squote || Ascii.eqb c dquote then
            sr <- scan_string c Plain [] r ;;
            Ok (VStr (fst sr), snd sr)
          else if isdigit c then
            zr <- int_literal (c :: r) ;;
            Ok (VInt (fst zr), snd zr)
          else if Ascii.eqb c "-" || Ascii.eqb c "+" then
            match skip_space nested r with
            | d :: r' =>
                if isdigit d then
                  zr <- int_literal (d :: r') ;;
                  Ok (VInt (if Ascii.eqb c "-" then (- fst zr)%Z
                            else fst zr),
                      snd zr)
                else Raise ValueError
            | [] => Raise SyntaxError
            end
          else if Ascii.eqb c "{" then literal_items fuel' r []
          else Raise SyntaxError
      end
  end

with literal_items (fuel : nat) (s : str) (acc : list (pykey * pyval))
  : result (pyval * str) :=
  match fuel with
  | O => Raise SyntaxError
  | S fuel' =>
      match skip_space true s with
      | [] => Raise SyntaxError
      | c :: r =>
          if Ascii.eqb c "}" then Ok (VDict acc, r)
          else
            kr <- literal_value fuel' true (c :: r) ;;
            key <- key_of_value (fst kr) ;;
            match skip_space true (snd kr) with
            | c1 :: r1 =>
                if Ascii.eqb c1 ":" then
                  vr <- literal_value fuel' true r1 ;;
                  let acc' := items_set acc key (fst vr) in
                  match skip_space true (snd vr) with
                  | c2 :: r2 =>
                      if Ascii.eqb c2 "," then literal_items fuel' r2 acc'
                      else if Ascii.eqb c2 "}" then Ok (VDict acc', r2)
                      else Raise SyntaxError
                  | [] => Raise SyntaxError
                  end
                else Raise SyntaxError
            | [] => Raise SyntaxError
            end
      end
  end.

(** [ast.literal_eval(s)] *)
Definition literal_eval (s : str) : result pyval :=
  vr <- literal_value (S (length s)) false (skip_space true s) ;;
  match skip_space true (snd vr) with
  | [] => Ok (fst vr)
  | _ => Raise SyntaxError
  end.

(** *** Reading the log *)

(** The characters at which [str.splitlines] breaks, below 256. *)
Definition islinebreak (c : ascii) : bool :=
  let n := code c in
  ((10 <=? n) && (n <=? 13)) || ((28 <=? n) && (n <=? 30)) || (n =? 133).

(** [s.splitlines()]: [cur] is the line being read, reversed; a carriage
    return followed by a line feed is one break. *)
Fixpoint splitlines (cur : str) (s : str) : list str :=
  match s with
  | [] => match cur with
          | [] => []
          | _ => [rev cur]
          end
  | c :: r =>
      if islinebreak c then
        rev cur ::
        match r with
        | c' :: r' =>
            if Ascii.eqb c carriage_return && Ascii.eqb c' newline
            then splitlines [] r'
            else splitlines [] r
        | [] => []
        end
      else splitlines (c :: cur) r
  end.

(** [row.split(maxsplit=1)] *)
Fixpoint split_first (cur : str) (s : str) : list str :=
  match s with
  | [] => match cur with
          | [] => []
          | _ => [rev cur]
          end
  | c :: r =>
      if isspace c then
        match cur with
        | [] => split_first [] r
        | _ => rev cur :: match lstrip r with
                          | [] => []
                          | rest => [rest]
                          end
        end
      else split_first (c :: cur) r
  end.

Section Log.

(** [datetime.strptime(ts, GPUStatDaemon.timestamp_format)], taken as
    given. *)
Variable datetime : Type.
Variable strptime : str -> result datetime.

(** The loop over the rows in [deserialize_usage]. *)
Fixpoint deserialize_rows (rows : list str)
         (data : list (datetime * pyval)) : result (list (datetime * pyval)) :=
  match rows with
  | [] => Ok data
  | row :: rest =>
      match split_first [] row with
      | [ts; usage] =>
          dt <- strptime ts ;;
          usage <- literal_eval usage ;;
          deserialize_rows rest (data ++ [(dt, usage)])
      | _ => Raise ValueError
      end
  end.

(** [deserialize_usage(log_path)], on the text of the log file ([None]
    when the file does not exist). *)
Definition deserialize_usage (log : option str)
  : result (list (datetime * pyval)) :=
  match log with
  | None => Raise ValueError
  | Some text => deserialize_rows (splitlines [] text) []
  end.

End Log.

(** The row [run] appends to the log for one sample. *)
Definition log_row (timestamp : str) (usage : usage_record) : str :=
  timestamp ++ lit " " ++ serialize_usage usage ++ [newline].

(** A dict holds each key once, at every level of a usage record. *)
Definition keys_unique {V : Type} (d : Dict.dict V) : Prop :=
  NoDup (Dict.keys d).

Definition usage_wf (usage : usage_record) : Prop :=
  keys_unique usage /\
  Forall (fun by_type =>
            keys_unique by_type /\ Forall keys_unique (Dict.values by_type))
         (Dict.values usage).

(** The number a list of decimal digits writes, after [a]. *)
Definition digits_number (ds : list N) (a : Z) : Z :=
  fold_left (fun v d => (10 * v + Z.of_N d)%Z) ds a.

(** What may follow an integer literal: not a digit, not an underscore. *)
Definition ends_number (rest : str) : bool :=
  match rest with
  | [] => true
  | c :: _ => negb (isdigit c || Ascii.eqb c "_")
  end.

(** What follows a value inside a dict display. *)
Definition closes (rest : str) : bool :=
  match rest with
  | [] => false
  | c :: _ => Ascii.eqb c "," || Ascii.eqb c "}"
  end.

(** No character of [s] breaks a line. *)
Definition no_break (s : str) : bool :=
  forallb (fun c => negb (islinebreak c)) s.

(** No character of [s] is white space, and [s] is not empty. *)
Definition is_token (s : str) : bool :=
  negb (length s =? 0) && forallb (fun c => negb (isspace c)) s.

(** No character of [s] is one of [chars]. *)
Definition free_of (chars s : str) : bool :=
  forallb (fun c => negb (contains c chars)) s.

(** ** Reading the results *)

(** *** Reading the inventory *)

(** The records of an inventory, node after node. *)
Definition inventory_specs (h : heap) (resources : inventory)
  : list GPUResourceSpec :=
  map (heap_get h) (concat (Dict.values resources)).

(** The sum of the counts of the records of type [gpu_type]. *)
Definition type_total (h : heap) (resources : inventory) (gpu_type : str)
  : Z :=
  sum (map spec_count
           (filter (fun spec => str_eqb (spec_type spec) gpu_type)
                   (inventory_specs h resources))).

(** *** Reading a usage record *)

(** [usage[user][gpu_type][node_name]], zero when an entry is missing. *)
Definition usage_count (usage : usage_record)
           (user gpu_type node_name : str) : Z :=
  Dict.get_default
    (Dict.get_default (Dict.get_default usage user []) gpu_type [])
    node_name 0%Z.

(** The sum of all counts of a usage record. *)
Definition usage_total (usage : usage_record) : Z :=
  sum (map (fun q => snd q) (usage_triples usage)).

(** ** The daemon, the history action and the command output *)

(** [parse_cmd], after the command has run: the non-empty lines of its
    decoded output. *)
Definition parse_cmd (output : str) : list str :=
  filter (fun x => negb (length x =? 0)) (split newline output).

(** One pass of the loop of [GPUStatDaemon.run]: [timestamp] is
    [datetime.now().strftime(timestamp_format)] and [log] the text of the
    log file before the pass. Returns the heap, the printed warnings and
    the text of the log file after the pass. *)
Definition run_iteration (sched : scheduler) (timestamp : str) (h : heap)
           (log : str) : result (heap * list str * str) :=
  hr <- parse_all_gpus 4 sched h ;;
  st <- gpu_usage sched (fst hr) DefaultDict (snd hr) [] 0 ;;
  Ok (fst hr, st_out st, log ++ log_row timestamp (st_usage st)).

Section History.

Variable datetime : Type.
Variable strptime : str -> result datetime.

(** [str(ts)] for a timestamp, taken as given. *)
Variable show_datetime : datetime -> str.

(** The first two statements of [historical_summary]: the samples at
    positions 0 and 1 are read, and the first line is printed. The
    averages that follow are floating-point and are not modelled. *)
Definition historical_summary_head (data : list (datetime * pyval))
  : result str :=
  first <- getitem_list data 0 ;;
  second <- getitem_list data 1 ;;
  Ok (lit "Historical data contains "
      ++ str_of_int (Z.of_nat (length data)) ++ lit " samples ("
      ++ show_datetime (fst first) ++ lit " to "
      ++ show_datetime (fst second) ++ lit ")").

(** The "history" action of [main], up to that first line. *)
Definition history_action (log : option str) : result str :=
  data <- deserialize_usage datetime strptime log ;;
  historical_summary_head data.

End History.

(** A row [gpu_usage] ignores: fewer than three fields, or a first field
    that does not start with "gpu". *)
Definition ignored_row (row : str) : bool :=
  let tokens := split_whitespace [] row in
  (length tokens <? 3) || negb (startswith (nth 0 tokens []) (lit "gpu")).

(** * Properties *)

(** ** NodeRangeParser *)

Section SplitNodeStr.

Let open_bracket : ascii := "["%char.

Lemma stack_push (d : nat) :
  repeat open_bracket d ++ [open_bracket] = repeat open_bracket (S d).
Proof. now rewrite <- repeat_cons. Qed.

Lemma stack_pop (d : nat) :
  removelast (repeat open_bracket (S d)) = repeat open_bracket d.
Proof.
  rewrite <- stack_push. apply removelast_last.
Qed.

(** The breakpoints the loop appends are the depth-zero commas, shifted
    by one. *)
Lemma scan_breakpoints_top_commas (chars : str) :
  forall ii breakpoints d,
    scan_breakpoints chars ii breakpoints (repeat open_bracket d) =
    match top_commas d chars with
    | Some q => Ok (breakpoints ++ map (fun p => ii + p + 1) q)
    | None => Raise IndexError
    end.
Proof.
  induction chars as [|char rest IH]; intros ii bps d; simpl.
  - now rewrite app_nil_r.
  - destruct (Ascii.eqb char "[") eqn:Hopen.
    + apply Ascii.eqb_eq in Hopen. subst char.
      fold open_bracket. rewrite stack_push, IH.
      destruct (top_commas (S d) rest) as [q|]; simpl; [|reflexivity].
      rewrite map_map. do 2 f_equal. apply map_ext. intros; lia.
    + destruct (Ascii.eqb char "]") eqn:Hclose.
      * destruct d as [|d']; [reflexivity|].
        change (open_bracket :: repeat open_bracket d')
          with (repeat open_bracket (S d')).
        rewrite stack_pop, IH.
        destruct (top_commas d' rest) as [q|]; simpl; [|reflexivity].
        rewrite map_map. do 2 f_equal. apply map_ext. intros; lia.
      * destruct d as [|d']; simpl.
        -- destruct (Ascii.eqb char ",") eqn:Hcomma.
           ++ pose proof (IH (S ii) (bps ++ [ii + 1]) 0) as E.
              simpl in E. rewrite E.
              destruct (top_commas 0 rest) as [q|]; simpl; [|reflexivity].
              rewrite <- app_assoc. simpl. rewrite map_map.
              do 3 f_equal; [lia|]. apply map_ext. intros; lia.
           ++ pose proof (IH (S ii) bps 0) as E. simpl in E. rewrite E.
              destruct (top_commas 0 rest) as [q|]; simpl; [|reflexivity].
              rewrite map_map. do 2 f_equal. apply map_ext. intros; lia.
        -- change (open_bracket :: repeat open_bracket d')
             with (repeat open_bracket (S d')).
           rewrite IH.
           destruct (top_commas (S d') rest) as [q|]; simpl; [|reflexivity].
           rewrite map_map. do 2 f_equal. apply map_ext. intros; lia.
Qed.

Lemma combine_breakpoints (s : str) (q : list nat) :
  forall b e,
    e = S (length s) ->
    map (fun '(i, j) => slice s i (j - 1))
        (combine (b :: map S q) (map S q ++ [e])) = cut_at s b q.
Proof.
  induction q as [|p q IH]; intros b e ->; simpl.
  - now rewrite Nat.sub_0_r.
  - rewrite Nat.sub_0_r. f_equal. now apply IH.
Qed.

(** [split_node_str] cuts the stripped string at its depth-zero commas,
    and raises IndexError when the stack underflows. *)
Lemma split_node_str_cut (node_str : str) :
  split_node_str node_str =
  match top_commas 0 (strip node_str) with
  | Some q => Ok (cut_at (strip node_str) 0 q)
  | None => Raise IndexError
  end.
Proof.
  unfold split_node_str.
  change (@nil ascii) with (repeat open_bracket 0).
  rewrite (scan_breakpoints_top_commas (strip node_str) 0 [0] 0).
  destruct (top_commas 0 (strip node_str)) as [q|]; simpl; [|reflexivity].
  f_equal.
  replace (map (fun p => p + 1) q) with (map S q)
    by (apply map_ext; intros; lia).
  apply (combine_breakpoints (strip node_str) q 0). lia.
Qed.

Lemma cut_at_shift (c : ascii) (r : str) (q : list nat) :
  forall start, cut_at (c :: r) (S start) (map S q) = cut_at r start q.
Proof.
  induction q as [|p q IH]; intros start; simpl; [reflexivity|].
  f_equal. apply IH.
Qed.

Lemma cut_at_head (c : ascii) (r : str) (q : list nat) :
  cut_at (c :: r) 0 (map S q) =
  match cut_at r 0 q with
  | p :: ps => (c :: p) :: ps
  | [] => []
  end.
Proof.
  destruct q as [|p q]; simpl.
  - unfold slice. now rewrite !Nat.sub_0_r.
  - rewrite cut_at_shift. unfold slice. now rewrite !Nat.sub_0_r.
Qed.

Lemma join_head (sep : str) (c : ascii) (p : str) (ps : list str) :
  join sep ((c :: p) :: ps) = c :: join sep (p :: ps).
Proof. destruct ps; reflexivity. Qed.

(** What a correct split at depth-zero commas looks like, entered at
    depth [d]: no piece holds a depth-zero comma, and every piece but the
    last ends at depth zero. *)
Fixpoint well_split (d : nat) (pieces : list str) : Prop :=
  match pieces with
  | [] => False
  | p :: rest =>
      top_level_comma d p = false /\
      match rest with
      | [] => depth_after d p <> None
      | _ => depth_after d p = Some 0 /\ well_split 0 rest
      end
  end.

Lemma well_split_head (c : ascii) (d d' : nat) (p : str) (ps : list str) :
  top_level_comma d (c :: p) = top_level_comma d' p ->
  depth_after d (c :: p) = depth_after d' p ->
  well_split d' (p :: ps) -> well_split d ((c :: p) :: ps).
Proof.
  intros Hc Hd [H1 H2]. split; [congruence|].
  destruct ps; rewrite Hd; exact H2.
Qed.

Lemma cut_at_well_split (s : str) :
  forall d q,
    top_commas d s = Some q ->
    join [","%char] (cut_at s 0 q) = s /\ well_split d (cut_at s 0 q).
Proof.
  induction s as [|c r IH]; intros d q Hq; simpl in Hq.
  - inversion Hq; subst. simpl. repeat split; discriminate.
  - assert (Hstep : forall d' q',
               top_commas d' r = Some q' -> q = map S q' ->
               top_level_comma d (c :: r) = top_level_comma d' r ->
               (forall p, top_level_comma d (c :: p) = top_level_comma d' p) ->
               (forall p, depth_after d (c :: p) = depth_after d' p) ->
               join [","%char] (cut_at (c :: r) 0 q) = c :: r /\
               well_split d (cut_at (c :: r) 0 q)).
    { intros d' q' Hq' -> _ Hc Hd.
      destruct (IH d' q' Hq') as [Hj Hw].
      rewrite cut_at_head.
      destruct (cut_at r 0 q') as [|p ps]; [contradiction|].
      split.
      - rewrite join_head. now f_equal.
      - apply (well_split_head c d d'); auto. }
    destruct (Ascii.eqb c "[") eqn:Hopen.
    { destruct (top_commas (S d) r) as [q'|] eqn:Hq'; [|discriminate].
      inversion Hq; subst q.
      apply (Hstep (S d) q'); auto; intros; simpl; now rewrite Hopen. }
    destruct (Ascii.eqb c "]") eqn:Hclose.
    { destruct d as [|d']; [discriminate|].
      destruct (top_commas d' r) as [q'|] eqn:Hq'; [|discriminate].
      inversion Hq; subst q.
      apply (Hstep d' q'); auto; intros; simpl; now rewrite Hopen, Hclose. }
    destruct ((d =? 0) && Ascii.eqb c ",") eqn:Hcomma.
    { apply andb_true_iff in Hcomma. destruct Hcomma as [Hd0 Hcomma].
      apply Nat.eqb_eq in Hd0. subst d.
      apply Ascii.eqb_eq in Hcomma. subst c.
      destruct (top_commas 0 r) as [q'|] eqn:Hq'; [|discriminate].
      inversion Hq; subst q. clear Hstep.
      destruct (IH 0 q' Hq') as [Hj Hw].
      simpl. rewrite cut_at_shift.
      destruct (cut_at r 0 q') as [|p ps] eqn:Hcut; [contradiction|].
      split.
      - change (","%char :: join [","%char] (p :: ps) = ","%char :: r).
        now f_equal.
      - simpl. repeat split; try reflexivity; apply Hw. }
    destruct (top_commas d r) as [q'|] eqn:Hq'; [|discriminate].
    inversion Hq; subst q.
    apply (Hstep d q'); auto; intros;
      cbn [top_level_comma depth_after];
      now rewrite ?Hopen, ?Hclose, ?Hcomma.
Qed.

Lemma well_split_Forall (pieces : list str) :
  well_split 0 pieces ->
  Forall (fun p => top_level_comma 0 p = false) pieces /\
  Forall (fun p => depth_after 0 p = Some 0) (removelast pieces).
Proof.
  induction pieces as [|p rest IH]; [contradiction|].
  intros [Hc Hrest]. destruct rest as [|p' rest'].
  - split; constructor; auto.
  - destruct Hrest as [Hd Hw]. destruct (IH Hw) as [F1 F2].
    split; constructor; auto.
Qed.

Lemma top_commas_depth_after (s : str) :
  forall d, top_commas d s = None <-> depth_after d s = None.
Proof.
  induction s as [|c r IH]; intros d; simpl; [split; discriminate|].
  destruct (Ascii.eqb c "["); [|destruct (Ascii.eqb c "]")].
  - rewrite <- IH. destruct (top_commas (S d) r); simpl; split; congruence.
  - destruct d as [|d']; [tauto|].
    rewrite <- IH. destruct (top_commas d' r); simpl; split; congruence.
  - rewrite <- IH.
    destruct ((d =? 0) && Ascii.eqb c ",") eqn:Hcomma.
    + apply andb_true_iff in Hcomma. destruct Hcomma as [Hd0 _].
      apply Nat.eqb_eq in Hd0. subst d.
      destruct (top_commas 0 r); simpl; split; congruence.
    + destruct (top_commas d r); simpl; split; congruence.
Qed.

End SplitNodeStr.

(** C6: [split_node_str] splits at a comma only when the bracket depth
    is zero, keeps the pieces in their original order, and commas inside
    brackets never split. For every expression the split returns, the
    pieces joined by commas give back the stripped expression, no piece
    holds a depth-zero comma, and every piece but the last ends at depth
    zero (so every separating comma stood at depth zero); in particular
    "a[1,2],b[3,4]" splits into "a[1,2]" and "b[3,4]". *)
Theorem split_node_str_top_level (node_str : str) (node_specs : list str)
        (Hsplit : split_node_str node_str = Ok node_specs) :
  split_node_str (lit "a[1,2],b[3,4]") = Ok [lit "a[1,2]"; lit "b[3,4]"] /\
  join (lit ",") node_specs = strip node_str /\
  Forall (fun spec => top_level_comma 0 spec = false) node_specs /\
  Forall (fun spec => depth_after 0 spec = Some 0) (removelast node_specs).
Proof.
  split; [reflexivity|].
  rewrite split_node_str_cut in Hsplit.
  destruct (top_commas 0 (strip node_str)) as [q|] eqn:Hq; [|discriminate].
  inversion Hsplit; subst node_specs.
  destruct (cut_at_well_split _ _ _ Hq) as [Hjoin Hwell].
  split; [exact Hjoin|]. now apply well_split_Forall.
Qed.

Lemma split_node_str_top_level_witness :
  split_node_str (lit " n[1-3,7],gpu[01,02],z ") =
    Ok [lit "n[1-3,7]"; lit "gpu[01,02]"; lit "z"] /\
  join (lit ",") [lit "n[1-3,7]"; lit "gpu[01,02]"; lit "z"] =
    strip (lit " n[1-3,7],gpu[01,02],z ").
Proof.
  split; [reflexivity|].
  apply (split_node_str_top_level (lit " n[1-3,7],gpu[01,02],z ")
           [lit "n[1-3,7]"; lit "gpu[01,02]"; lit "z"]).
  reflexivity.
Defined.

(** C2 (as the code has it): [split_node_str] fails exactly when a
    closing bracket meets depth zero, and the failure is the IndexError of
    popping the empty stack. An expression whose depth merely ends above
    zero is not rejected: the split returns the pieces between its
    depth-zero commas. *)
Theorem split_node_str_unbalanced (node_str : str) :
  match depth_after 0 (strip node_str) with
  | None => split_node_str node_str = Raise IndexError
  | Some _ =>
      exists node_specs,
        split_node_str node_str = Ok node_specs /\
        join (lit ",") node_specs = strip node_str
  end.
Proof.
  rewrite split_node_str_cut.
  destruct (depth_after 0 (strip node_str)) as [d|] eqn:Hd.
  - destruct (top_commas 0 (strip node_str)) as [q|] eqn:Hq.
    + exists (cut_at (strip node_str) 0 q). split; [reflexivity|].
      now apply cut_at_well_split with (d := 0).
    + apply top_commas_depth_after in Hq. congruence.
  - apply top_commas_depth_after in Hd. now rewrite Hd.
Qed.

(** C2, as stated, fails: "a[1,2" ends at depth one and is returned as
    a single piece. *)
Lemma split_node_str_unclosed_bracket :
  depth_after 0 (strip (lit "a[1,2")) = Some 1 /\
  split_node_str (lit "a[1,2") = Ok [lit "a[1,2"].
Proof. split; reflexivity. Qed.

(** C8 (as the code has it): the empty expression splits into one empty
    piece, which is kept as a name: the result is the one-element
    sequence holding the empty string. *)
Theorem parse_node_names_empty :
  split_node_str empty = Ok [empty] /\
  parse_node_names empty = Ok [empty].
Proof. split; reflexivity. Qed.

(** C8, as stated, fails: the result is not the empty sequence. *)
Lemma parse_node_names_empty_not_nil :
  parse_node_names empty <> Ok [].
Proof. discriminate. Qed.

Section ExpandRange.

#[local] Arguments Ascii.eqb : simpl never.

Lemma contains_app (c : ascii) (a b : str) :
  contains c (a ++ b) = contains c a || contains c b.
Proof. apply existsb_app. Qed.

Lemma contains_cons (c x : ascii) (s : str) :
  contains c (x :: s) = Ascii.eqb c x || contains c s.
Proof. reflexivity. Qed.

Lemma split_absent (sep : ascii) (s : str) :
  contains sep s = false -> split sep s = [s].
Proof.
  induction s as [|c r IH]; simpl; [reflexivity|].
  intros H. apply orb_false_iff in H. destruct H as [Hc Hr].
  rewrite Ascii.eqb_sym, Hc, (IH Hr). reflexivity.
Qed.

Lemma split_once (sep : ascii) (a b : str) :
  contains sep a = false -> contains sep b = false ->
  split sep (a ++ sep :: b) = [a; b].
Proof.
  intros Ha Hb. induction a as [|c r IH]; simpl.
  - now rewrite Ascii.eqb_refl, split_absent.
  - simpl in Ha. apply orb_false_iff in Ha. destruct Ha as [Hc Hr].
    rewrite Ascii.eqb_sym, Hc, (IH Hr). reflexivity.
Qed.

Lemma index_app (c : ascii) (a b : str) :
  contains c a = false -> index c (a ++ c :: b) = Ok (length a).
Proof.
  induction a as [|x r IH]; simpl; intros Ha.
  - now rewrite Ascii.eqb_refl.
  - apply orb_false_iff in Ha. destruct Ha as [Hx Hr].
    rewrite Ascii.eqb_sym, Hx, (IH Hr). reflexivity.
Qed.

Lemma depth_after_plain (s : str) :
  forall d,
    contains "[" s = false -> contains "]" s = false ->
    depth_after d s = Some d.
Proof.
  induction s as [|c r IH]; intros d Ho Hc; simpl; [reflexivity|].
  simpl in Ho, Hc.
  apply orb_false_iff in Ho. destruct Ho as [Ho1 Ho2].
  apply orb_false_iff in Hc. destruct Hc as [Hc1 Hc2].
  rewrite Ascii.eqb_sym, Ho1, Ascii.eqb_sym, Hc1. now apply IH.
Qed.

Lemma depth_after_app (a b : str) :
  forall d d',
    depth_after d a = Some d' ->
    depth_after d (a ++ b) = depth_after d' b.
Proof.
  induction a as [|c r IH]; intros d d' Ha; simpl in *.
  - now inversion Ha.
  - destruct (Ascii.eqb c "["); [now apply IH|].
    destruct (Ascii.eqb c "]"); [|now apply IH].
    destruct d; [discriminate|now apply IH].
Qed.

Lemma top_commas_no_comma (s : str) :
  forall d,
    contains "," s = false -> depth_after d s <> None ->
    top_commas d s = Some [].
Proof.
  induction s as [|c r IH]; intros d Hc Hd; simpl in *; [reflexivity|].
  apply orb_false_iff in Hc. destruct Hc as [Hc1 Hc2].
  rewrite Ascii.eqb_sym in Hc1. rewrite Hc1, andb_false_r.
  destruct (Ascii.eqb c "["); [now rewrite IH|].
  destruct (Ascii.eqb c "]"); [|now rewrite IH].
  destruct d; [contradiction|now rewrite IH].
Qed.

Lemma lstrip_fixed (s : str) :
  match s with [] => True | c :: _ => isspace c = false end ->
  lstrip s = s.
Proof. destruct s as [|c r]; simpl; [reflexivity|]. now intros ->. Qed.

Lemma strip_fixed (a : str) (last : ascii) :
  match a ++ [last] with [] => True | c :: _ => isspace c = false end ->
  isspace last = false ->
  strip (a ++ [last]) = a ++ [last].
Proof.
  intros Hfirst Hlast. unfold strip, rstrip.
  rewrite (lstrip_fixed _ Hfirst), rev_app_distr. simpl.
  rewrite Hlast. simpl. now rewrite rev_involutive.
Qed.

Lemma slice_all (s : str) : slice s 0 (length s) = s.
Proof. unfold slice. simpl. rewrite Nat.sub_0_r. apply firstn_all. Qed.

Lemma slice_middle (a b c : str) (x : ascii) :
  slice (a ++ x :: b ++ c) (length a + 1) (length a + S (length b)) = b.
Proof.
  unfold slice.
  replace (length a + S (length b) - (length a + 1)) with (length b) by lia.
  replace (length a + 1) with (length (a ++ [x]))
    by (rewrite length_app; reflexivity).
  change (a ++ x :: b ++ c) with (a ++ [x] ++ b ++ c).
  rewrite app_assoc, skipn_app, skipn_all, Nat.sub_diag. simpl.
  rewrite firstn_app, firstn_all, Nat.sub_diag. simpl. apply app_nil_r.
Qed.

Lemma free_of_contains (chars s : str) (c : ascii) :
  free_of chars s = true -> contains c chars = true -> contains c s = false.
Proof.
  intros Hfree Hc. induction s as [|x r IH]; simpl in *; [reflexivity|].
  apply andb_true_iff in Hfree. destruct Hfree as [Hx Hr].
  rewrite (IH Hr), orb_false_r.
  destruct (Ascii.eqb c x) eqn:E; [|reflexivity].
  apply Ascii.eqb_eq in E. subst x. now rewrite Hc in Hx.
Qed.

Lemma lstrip_length (s : str) : length (lstrip s) <= length s.
Proof.
  induction s as [|c r IH]; simpl; [lia|].
  destruct (isspace c); simpl; lia.
Qed.

Lemma lstrip_fixed_head (c : ascii) (r : str) :
  lstrip (c :: r) = c :: r -> isspace c = false.
Proof.
  simpl. destruct (isspace c); [|reflexivity].
  intros H. pose proof (lstrip_length r) as L. rewrite H in L.
  simpl in L. lia.
Qed.

(** [range(a, b)] holds the integers from [a] up to [b], [b] excluded,
    in ascending order. *)
Lemma range_in (a b x : Z) : In x (range a b) <-> (a <= x < b)%Z.
Proof.
  unfold range. rewrite in_map_iff. split.
  - intros [k [<- Hk]]. apply in_seq in Hk. lia.
  - intros H. exists (Z.to_nat (x - a)). split; [lia|].
    apply in_seq. lia.
Qed.

Lemma range_sorted (a b : Z) : StronglySorted Z.lt (range a b).
Proof.
  unfold range. generalize (Z.to_nat (b - a)) as n. generalize 0 as s.
  intros s n. revert s.
  induction n as [|n IH]; intros s; cbn [seq map]; constructor.
  - apply IH.
  - apply Forall_forall. intros y Hy.
    apply in_map_iff in Hy. destruct Hy as [k [<- Hk]].
    apply in_seq in Hk. lia.
Qed.

(** The expansion of one ranged subspec, whatever the prefix. *)
Lemma expand_subspec_range (prefix start end_ : str) (a b : Z) :
  contains "-" start = false -> contains "-" end_ = false ->
  int start = Ok a -> int end_ = Ok b ->
  expand_subspec prefix (start ++ "-"%char :: end_) =
  Ok (map (fun x => prefix ++ zfill (str_of_int x) (length start))
          (range a (b + 1))).
Proof.
  intros Hs He Ha Hb. unfold expand_subspec.
  rewrite contains_app, contains_cons, Ascii.eqb_refl, orb_true_r. simpl.
  rewrite (split_once _ _ _ Hs He), Ha, Hb. reflexivity.
Qed.

(** A spec with one bracket group and no comma is a single piece. *)
Lemma split_node_str_single (prefix inner : str) :
  lstrip prefix = prefix ->
  free_of (lit "[],") prefix = true ->
  free_of (lit "[],") inner = true ->
  split_node_str (prefix ++ "["%char :: inner ++ ["]"%char]) =
  Ok [prefix ++ "["%char :: inner ++ ["]"%char]].
Proof.
  intros Hstrip Hp Hi.
  set (s := prefix ++ "["%char :: inner ++ ["]"%char]).
  assert (Hs : strip s = s).
  { unfold s.
    change (prefix ++ "["%char :: inner ++ ["]"%char])
      with (prefix ++ ("["%char :: inner) ++ ["]"%char]).
    rewrite app_assoc. apply strip_fixed; [|reflexivity].
    destruct prefix as [|c r]; simpl; [reflexivity|].
    now apply (lstrip_fixed_head c r). }
  rewrite split_node_str_cut, Hs.
  rewrite top_commas_no_comma.
  - simpl. now rewrite slice_all.
  - unfold s. rewrite contains_app, contains_cons, contains_app.
    rewrite (free_of_contains _ _ _ Hp), (free_of_contains _ _ _ Hi);
      reflexivity.
  - unfold s.
    rewrite (depth_after_app _ _ 0 0).
    + cbn [depth_after]. rewrite Ascii.eqb_refl.
      rewrite (depth_after_app _ _ 1 1); [discriminate|].
      apply depth_after_plain; apply (free_of_contains _ _ _ Hi); reflexivity.
    + apply depth_after_plain; apply (free_of_contains _ _ _ Hp); reflexivity.
Qed.

(** The names of a spec with one bracket group holding one subspec. *)
Lemma parse_node_names_single (prefix inner : str) :
  lstrip prefix = prefix ->
  free_of (lit "[],") prefix = true ->
  free_of (lit "[],") inner = true ->
  parse_node_names (prefix ++ "["%char :: inner ++ ["]"%char]) =
  expand_subspec prefix inner.
Proof.
  intros Hstrip Hp Hi. unfold parse_node_names.
  rewrite (split_node_str_single _ _ Hstrip Hp Hi).
  cbn [bind expand_specs].
  rewrite contains_app, contains_cons, Ascii.eqb_refl, orb_true_r.
  cbn [negb].
  rewrite index_app by (apply (free_of_contains _ _ _ Hp); reflexivity).
  cbn [bind].
  change (prefix ++ "["%char :: inner ++ ["]"%char])
    with (prefix ++ ("["%char :: inner) ++ "]"%char :: []).
  rewrite app_assoc, index_app.
  2:{ rewrite contains_app, contains_cons.
      rewrite (free_of_contains _ _ _ Hp), (free_of_contains _ _ _ Hi);
      reflexivity. }
  cbn [bind]. rewrite <- app_assoc.
  rewrite firstn_app, firstn_all, Nat.sub_diag. simpl firstn.
  rewrite app_nil_r, length_app.
  change (("["%char :: inner) ++ ["]"%char])
    with ("["%char :: inner ++ ["]"%char]).
  cbn [length]. rewrite slice_middle.
  rewrite split_absent by (apply (free_of_contains _ _ _ Hi); reflexivity).
  cbn [expand_subspecs]. destruct (expand_subspec prefix inner); reflexivity.
Qed.

End ExpandRange.

(** An expression that is one bracket group holding one range. *)
Lemma parse_node_names_lone_range (prefix start end_ : str) (a b : Z)
        (Hstrip : lstrip prefix = prefix)
        (Hprefix : free_of (lit "[],") prefix = true)
        (Hstart : free_of (lit "[],-") start = true)
        (Hend : free_of (lit "[],-") end_ = true)
        (Ha : int start = Ok a) (Hb : int end_ = Ok b) :
  parse_node_names (prefix ++ lit "[" ++ start ++ lit "-" ++ end_ ++ lit "]") =
    Ok (map (fun x => prefix ++ zfill (str_of_int x) (length start))
            (range a (b + 1))) /\
  (forall x, In x (range a (b + 1)) <-> (a <= x <= b)%Z) /\
  StronglySorted Z.lt (range a (b + 1)) /\
  parse_node_names (lit "x[01-03]") = Ok [lit "x01"; lit "x02"; lit "x03"].
Proof.
  split; [|split; [|split; [apply range_sorted|reflexivity]]].
  2:{ intros x. rewrite range_in. lia. }
  change (prefix ++ lit "[" ++ start ++ lit "-" ++ end_ ++ lit "]")
    with (prefix ++ "["%char :: start ++ "-"%char :: end_ ++ ["]"%char]).
  replace (start ++ "-"%char :: end_ ++ ["]"%char])
    with ((start ++ "-"%char :: end_) ++ ["]"%char])
    by (now rewrite <- app_assoc).
  assert (Hfree : forall s, free_of (lit "[],-") s = true ->
                            free_of (lit "[],") s = true).
  { intros s Hs. apply forallb_forall. intros c Hc.
    unfold free_of in Hs. rewrite forallb_forall in Hs.
    specialize (Hs c Hc). apply negb_true_iff in Hs.
    apply negb_true_iff. simpl in *.
    repeat (apply orb_false_iff in Hs; destruct Hs as [? Hs]).
    repeat (apply orb_false_iff; split); auto. }
  rewrite parse_node_names_single; auto.
  - apply expand_subspec_range; auto;
      eapply free_of_contains; eauto; reflexivity.
  - unfold free_of. rewrite forallb_app.
    apply andb_true_intro. split; [exact (Hfree _ Hstart)|].
    exact (Hfree _ Hend).
Qed.



(** ** UsageAggregator *)

(** C3, at a failing input: the row "gpu:2 nodeA,nodeB alice" omits the
    type; nodeA offers only v100 and nodeB only a100. The first node is
    resolved from the inventory, and the type found there is kept for the
    second node: nodeB's allocation is booked under v100, a type nodeB
    does not have. *)
Theorem gpu_usage_later_node_inherits_type :
  let h := [mkSpec (lit "v100") 4; mkSpec (lit "a100") 4] in
  let resources := [(lit "nodeA", [0]); (lit "nodeB", [1])] in
  let sched :=
    mkScheduler [] [] [lit "gpu:2 nodeA,nodeB alice"] (fun _ => 0) in
  types_of h [1] = [lit "a100"] /\
  exists st,
    gpu_usage sched h DefaultDict resources [] 0 = Ok st /\
    st_usage st =
      [(lit "alice",
        [(lit "v100", [(lit "nodeA", 2%Z); (lit "nodeB", 2%Z)])])] /\
    st_out st = [].
Proof.
  cbv zeta. split; [reflexivity|].
  eexists. split; [vm_compute; reflexivity|]. split; reflexivity.
Qed.

Lemma choice_in (sched : scheduler) (draws : nat) (x : str) (seq : list str) :
  exists y, choice sched draws (x :: seq) = Ok y /\ In y (x :: seq).
Proof.
  unfold choice. eexists. split; [reflexivity|].
  apply nth_In. apply Nat.mod_upper_bound. discriminate.
Qed.

(** C4 (as the code has it): when a node is reached while the type is
    still undetermined and the node does not have exactly one GPU spec,
    then either it has none, and [random.choice] raises IndexError, or
    it has several, and the aggregator books the allocation under one of
    that node's own types, prints a warning naming the user and the
    node, and goes on. *)
Theorem gpu_usage_node_ambiguous
        (sched : scheduler) (h : heap) (kind : mapping_kind)
        (user node_name : str) (num_gpus : Z) (st : usage_state)
        (specs : list addr)
        (Hnone : st_gpu_type st = PyNone)
        (Hspecs : Dict.get (st_resources st) node_name = Some specs)
        (Hambiguous : length specs <> 1) :
  match specs with
  | [] =>
      gpu_usage_node sched h kind user num_gpus node_name st
      = Raise IndexError
  | _ =>
      exists gpu_type,
        In gpu_type (types_of h specs) /\
        gpu_usage_node sched h kind user num_gpus node_name st
        = Ok (mkUsageState (st_resources st)
                (add_usage (st_usage st) user gpu_type node_name num_gpus)
                (TypeName gpu_type)
                (st_out st ++ [warning user node_name gpu_type])
                (S (st_draws st)))
  end.
Proof.
  assert (Hlen : (length (types_of h specs) =? 1) = false).
  { unfold types_of. rewrite length_map. now apply Nat.eqb_neq. }
  unfold gpu_usage_node, getitem_resources. rewrite Hspecs, Hnone.
  cbn [bind]. rewrite Hlen. cbn [negb].
  destruct specs as [|a specs']; [reflexivity|].
  destruct (choice_in sched (st_draws st) (spec_type (heap_get h a))
              (types_of h specs')) as [gpu_type [Hchoice Hin]].
  exists gpu_type. split; [exact Hin|].
  change (types_of h (a :: specs'))
    with (spec_type (heap_get h a) :: types_of h specs').
  rewrite Hchoice. reflexivity.
Qed.

Lemma gpu_usage_node_ambiguous_witness :
  exists gpu_type,
    In gpu_type [lit "v100"; lit "k80"] /\
    gpu_usage_node (mkScheduler [] [] [] (fun _ => 3))
      [mkSpec (lit "v100") 4; mkSpec (lit "k80") 2] PlainDict
      (lit "bob") 1 (lit "n1")
      (mkUsageState [(lit "n1", [0; 1])] [] PyNone [] 0)
    = Ok (mkUsageState [(lit "n1", [0; 1])]
            (add_usage [] (lit "bob") gpu_type (lit "n1") 1)
            (TypeName gpu_type)
            [warning (lit "bob") (lit "n1") gpu_type] 1).
Proof.
  apply (gpu_usage_node_ambiguous (mkScheduler [] [] [] (fun _ => 3))
           [mkSpec (lit "v100") 4; mkSpec (lit "k80") 2] PlainDict
           (lit "bob") (lit "n1") 1
           (mkUsageState [(lit "n1", [0; 1])] [] PyNone [] 0) [0; 1]).
  - reflexivity.
  - reflexivity.
  - simpl. lia.
Defined.

(** C4, as stated, fails on a node without any GPU type: the row
    "gpu:1 nodeX bob" on an inventory that does not list nodeX ends the
    aggregation with IndexError. *)
Lemma gpu_usage_no_type_raises :
  types_of [] (Dict.get_default [] (lit "nodeX") []) = [] /\
  gpu_usage (mkScheduler [] [] [lit "gpu:1 nodeX bob"] (fun _ => 0))
            [] DefaultDict [] [] 0
  = Raise IndexError.
Proof. split; reflexivity. Qed.

(** ** Accessible nodes *)

Lemma accessible_drops_stateless (resources : inventory)
      (states : node_state_map) (node : str) :
  Dict.get states node = None ->
  accessible (Dict.remove resources node) states
  = accessible resources states.
Proof.
  intros Hmissing. unfold accessible, Dict.remove.
  induction resources as [|[key val] rest IH]; [reflexivity|].
  cbn [filter fst]. unfold str_eqb at 1.
  destruct (list_eq_dec ascii_dec key node) as [->|Hne]; cbn [negb].
  - unfold Dict.get_default at 2. rewrite Hmissing.
    change (in_set (lit "down") INACCESSIBLE) with true. cbn [negb].
    exact IH.
  - cbn [filter fst]. now rewrite IH.
Qed.

Lemma get_accessible_stateless (resources : inventory)
      (states : node_state_map) (node : str) :
  Dict.get states node = None ->
  Dict.get (accessible resources states) node = None.
Proof.
  intros Hmissing. unfold accessible.
  induction resources as [|[key val] rest IH]; [reflexivity|].
  cbn [filter fst].
  destruct (in_set (Dict.get_default states key (lit "down")) INACCESSIBLE)
    eqn:Hstate; cbn [negb]; [exact IH|].
  cbn [Dict.get]. unfold str_eqb.
  destruct (list_eq_dec ascii_dec key node) as [->|Hne]; [|exact IH].
  unfold Dict.get_default in Hstate. rewrite Hmissing in Hstate.
  discriminate.
Qed.

(** C10: a node of the inventory without an entry in the node-state
    mapping counts as "down", which is an inaccessible state: the
    comprehension of [summary] (mode "accessible") and of [available]
    leaves it out, and both functions behave as if the inventory did not
    hold that node at all. *)
Theorem stateless_node_inaccessible
        (sched : scheduler) (resources : inventory)
        (states : node_state_map) (h : heap) (node : str)
        (Hmissing : Dict.get states node = None) :
  in_set (Dict.get_default states node (lit "down")) INACCESSIBLE = true /\
  Dict.get (accessible resources states) node = None /\
  summary_from (lit "accessible") resources states h
  = summary_from (lit "accessible") (Dict.remove resources node) states h /\
  available_from sched resources states h
  = available_from sched (Dict.remove resources node) states h.
Proof.
  split; [|split; [|split]].
  - unfold Dict.get_default. now rewrite Hmissing.
  - now apply get_accessible_stateless.
  - unfold summary_from. cbn [str_eqb].
    now rewrite (accessible_drops_stateless resources states node Hmissing).
  - unfold available_from.
    now rewrite (accessible_drops_stateless resources states node Hmissing).
Qed.

Lemma stateless_node_inaccessible_witness :
  Dict.get (accessible [(lit "n1", [0]); (lit "n2", [1])]
                       [(lit "n1", lit "idle")]) (lit "n2") = None.
Proof.
  apply (stateless_node_inaccessible (mkScheduler [] [] [] (fun _ => 0))
           [(lit "n1", [0]); (lit "n2", [1])] [(lit "n1", lit "idle")]
           [mkSpec (lit "v100") 4; mkSpec (lit "v100") 4] (lit "n2")).
  reflexivity.
Defined.

(** ** AvailabilityEstimator *)

Section Heap.

Lemma str_eqb_eq (a b : str) : str_eqb a b = true <-> a = b.
Proof.
  unfold str_eqb. destruct (list_eq_dec ascii_dec a b); split;
    congruence.
Qed.

Lemma str_eqb_refl (a : str) : str_eqb a a = true.
Proof. now apply str_eqb_eq. Qed.

Lemma set_count_length (h : heap) :
  forall a count, length (set_count h a count) = length h.
Proof.
  induction h as [|x r IH]; intros [|a] count; simpl; auto.
Qed.

Lemma set_count_type (h : heap) :
  forall a count a',
    spec_type (heap_get (set_count h a count) a')
    = spec_type (heap_get h a').
Proof.
  unfold heap_get.
  induction h as [|x r IH]; intros [|a] count [|a']; simpl; auto.
Qed.

Lemma set_count_other (h : heap) :
  forall a count a',
    a' <> a -> heap_get (set_count h a count) a' = heap_get h a'.
Proof.
  unfold heap_get.
  induction h as [|x r IH]; intros [|a] count [|a'] Hne; simpl; auto;
    try contradiction.
Qed.

Lemma set_count_same (h : heap) :
  forall a count,
    a < length h -> spec_count (heap_get (set_count h a count) a) = count.
Proof.
  unfold heap_get.
  induction h as [|x r IH]; intros [|a] count Hlt; simpl in *;
    try lia; auto.
  apply IH. lia.
Qed.

Lemma set_count_types_of (h : heap) (a : addr) (count : Z)
      (specs : list addr) :
  types_of (set_count h a count) specs = types_of h specs.
Proof.
  unfold types_of. apply map_ext. intros a'. apply set_count_type.
Qed.

Lemma list_index_nth (l : list str) :
  forall x i, list_index l x = Ok i -> nth_error l i = Some x.
Proof.
  induction l as [|y r IH]; intros x i H; simpl in H; [discriminate|].
  destruct (str_eqb y x) eqn:E.
  - apply str_eqb_eq in E. inversion H; subst. reflexivity.
  - destruct (list_index r x) as [j|e] eqn:Hj; simpl in H; [|discriminate].
    inversion H; subst. simpl. now apply IH.
Qed.

Lemma list_index_in (l : list str) (x : str) :
  in_set x l = true -> exists i, list_index l x = Ok i.
Proof.
  induction l as [|y r IH]; simpl; [discriminate|].
  intros H. destruct (str_eqb y x) eqn:E; [now exists 0|].
  apply orb_true_iff in H. destruct H as [H|H].
  - apply str_eqb_eq in H. subst y. rewrite str_eqb_refl in E.
    discriminate.
  - destruct (IH H) as [i Hi]. exists (S i). now rewrite Hi.
Qed.

Lemma get_in {V : Type} (d : Dict.dict V) (k : str) (v : V) :
  Dict.get d k = Some v -> In (k, v) d.
Proof.
  induction d as [|[k' v'] r IH]; simpl; [discriminate|].
  destruct (str_eqb k' k) eqn:E.
  - apply str_eqb_eq in E. intros H. inversion H; subst. now left.
  - intros H. right. now apply IH.
Qed.

Lemma in_values (res : inventory) (node : str) (specs : list addr)
      (a : addr) :
  In (node, specs) res -> In a specs -> In a (concat (Dict.values res)).
Proof.
  intros Hin Ha. apply in_concat. exists specs. split; [|exact Ha].
  unfold Dict.values. apply in_map_iff. now exists (node, specs).
Qed.

(** What [target] returns is a record of the node it was asked about. *)
Lemma target_ok (res : inventory) (h : heap) (gpu_type node_name : str)
      (a : addr) :
  target res h gpu_type node_name = Ok a ->
  exists specs i,
    Dict.get res node_name = Some specs /\
    list_index (types_of h specs) gpu_type = Ok i /\
    nth_error specs i = Some a.
Proof.
  unfold target. destruct (Dict.get res node_name) as [specs|] eqn:Hget;
    [|discriminate].
  destruct (list_index (types_of h specs) gpu_type) as [i|e] eqn:Hi;
    [|discriminate].
  simpl. intros H. inversion H; subst. exists specs, i.
  repeat split; auto.
  pose proof (list_index_nth _ _ _ Hi) as Hn.
  assert (Hlt : i < length specs).
  { assert (nth_error (types_of h specs) i <> None) as Hs by congruence.
    apply nth_error_Some in Hs. unfold types_of in Hs.
    now rewrite length_map in Hs. }
  now apply nth_error_nth'.
Qed.

Lemma target_set_count (res : inventory) (h : heap) (a : addr) (count : Z)
      (gpu_type node_name : str) :
  target res (set_count h a count) gpu_type node_name
  = target res h gpu_type node_name.
Proof.
  unfold target. destruct (Dict.get res node_name); [|reflexivity].
  now rewrite set_count_types_of.
Qed.

Lemma subtract_one_target (res : inventory) (gpu_type node_name : str)
      (user_gpu_count : Z) (h : heap) :
  subtract_one res gpu_type node_name user_gpu_count h =
  a <- target res h gpu_type node_name ;;
  Ok (set_count h a
        (Z.max (spec_count (heap_get h a) - user_gpu_count) 0)).
Proof.
  unfold subtract_one, target.
  destruct (Dict.get res node_name); [|reflexivity].
  destruct (list_index (types_of h l) gpu_type); reflexivity.
Qed.

Lemma subtract_triples_app (res : inventory)
      (q1 q2 : list (str * str * Z)) :
  forall h,
    subtract_triples res (q1 ++ q2) h =
    h' <- subtract_triples res q1 h ;; subtract_triples res q2 h'.
Proof.
  induction q1 as [|q r IH]; intros h; simpl; [reflexivity|].
  destruct (subtract_one res (fst (fst q)) (snd (fst q)) (snd q) h);
    simpl; auto.
Qed.

Lemma subtract_nodes_triples (res : inventory) (gpu_type : str)
      (node_dicts : Dict.dict Z) :
  forall h,
    subtract_nodes res gpu_type node_dicts h =
    subtract_triples res
      (map (fun node_entry => (gpu_type, fst node_entry, snd node_entry))
           node_dicts) h.
Proof.
  induction node_dicts as [|[n k] r IH]; intros h; simpl; [reflexivity|].
  destruct (subtract_one res gpu_type n k h); simpl; auto.
Qed.

Lemma subtract_types_triples (res : inventory)
      (subdict : Dict.dict (Dict.dict Z)) :
  forall h,
    subtract_types res subdict h =
    subtract_triples res
      (flat_map (fun type_entry =>
         map (fun node_entry =>
                (fst type_entry, fst node_entry, snd node_entry))
             (snd type_entry)) subdict) h.
Proof.
  induction subdict as [|[t nd] r IH]; intros h; simpl; [reflexivity|].
  rewrite subtract_triples_app, subtract_nodes_triples.
  destruct (subtract_triples res _ h); simpl; auto.
Qed.

(** The nested loops visit the triples of [usage_triples], in order. *)
Lemma subtract_usage_triples (res : inventory) (usage : usage_record) :
  forall h,
    subtract_usage res usage h
    = subtract_triples res (usage_triples usage) h.
Proof.
  unfold usage_triples.
  induction usage as [|[u sd] r IH]; intros h; simpl; [reflexivity|].
  rewrite subtract_triples_app, subtract_types_triples.
  destruct (subtract_triples res _ h); simpl; auto.
Qed.

(** The loops touch nothing but counts of records on nodes of [res]. *)
Lemma subtract_triples_frame (res : inventory)
      (triples : list (str * str * Z)) :
  forall h h',
    subtract_triples res triples h = Ok h' ->
    length h' = length h /\
    (forall a, spec_type (heap_get h' a) = spec_type (heap_get h a)) /\
    (forall a, ~ In a (concat (Dict.values res)) ->
               heap_get h' a = heap_get h a).
Proof.
  induction triples as [|[[t n] k] rest IH]; intros h h' Hrun;
    simpl in Hrun.
  - inversion Hrun; subst. auto.
  - rewrite subtract_one_target in Hrun.
    destruct (target res h t n) as [a_t|e] eqn:Ht; [|discriminate].
    simpl in Hrun. apply IH in Hrun. destruct Hrun as [Hlen [Hty Hfr]].
    destruct (target_ok _ _ _ _ _ Ht) as [specs [i [Hget [_ Hnth]]]].
    split; [|split].
    + now rewrite Hlen, set_count_length.
    + intros a. now rewrite Hty, set_count_type.
    + intros a Ha. rewrite (Hfr a Ha). apply set_count_other.
      intros ->. apply Ha.
      apply (in_values res n specs); [now apply get_in|].
      now apply nth_error_In with i.
Qed.

Lemma sum_cons (x : Z) (l : list Z) : sum (x :: l) = (x + sum l)%Z.
Proof.
  unfold sum. simpl.
  assert (G : forall l a b,
             fold_left Z.add l (a + b)%Z = (a + fold_left Z.add l b)%Z).
  { clear. induction l as [|y r IH]; intros a b; simpl; [reflexivity|].
    rewrite <- IH. f_equal. lia. }
  rewrite <- G. f_equal. lia.
Qed.

Lemma sum_nonneg (l : list Z) :
  Forall (fun k => (0 <= k)%Z) l -> (0 <= sum l)%Z.
Proof.
  induction 1 as [|x r Hx Hr IH]; [reflexivity|].
  rewrite sum_cons. lia.
Qed.

Lemma allocated_at_nonneg (res : inventory) (h : heap)
      (triples : list (str * str * Z)) (a : addr) :
  Forall (fun q => (0 <= snd q)%Z) triples ->
  (0 <= allocated_at res h triples a)%Z.
Proof.
  intros Hpos. apply sum_nonneg. apply Forall_map.
  apply Forall_forall. intros q Hq. apply filter_In in Hq.
  rewrite Forall_forall in Hpos. now apply Hpos.
Qed.

Lemma allocated_at_set_count (res : inventory) (h : heap) (a' : addr)
      (count : Z) (triples : list (str * str * Z)) (a : addr) :
  allocated_at res (set_count h a' count) triples a
  = allocated_at res h triples a.
Proof.
  unfold allocated_at. do 2 f_equal. apply filter_ext. intros q.
  unfold targets. now rewrite target_set_count.
Qed.

(** Sequential clamped subtraction equals one clamped subtraction of the
    sum, address by address. *)
Lemma subtract_triples_floor (res : inventory)
      (triples : list (str * str * Z)) :
  forall h,
    Forall (fun a => a < length h) (concat (Dict.values res)) ->
    Forall (fun q => (0 <= snd q)%Z) triples ->
    forallb (in_inventory h res) triples = true ->
    exists h',
      subtract_triples res triples h = Ok h' /\
      forall a,
        In a (concat (Dict.values res)) ->
        (0 <= spec_count (heap_get h a))%Z ->
        spec_count (heap_get h' a)
        = Z.max (spec_count (heap_get h a) - allocated_at res h triples a) 0.
Proof.
  induction triples as [|[[t n] k] rest IH]; intros h Hvalid Hpos Hin.
  - exists h. split; [reflexivity|]. intros a _ Hcap.
    unfold allocated_at. simpl. unfold sum. simpl. lia.
  - inversion Hpos as [|q r Hk Hpos']; subst. simpl in Hk.
    cbn [forallb] in Hin. apply andb_true_iff in Hin.
    destruct Hin as [Hq Hin].
    assert (Htarget : exists a_t, target res h t n = Ok a_t).
    { unfold in_inventory in Hq. simpl in Hq. unfold target.
      destruct (Dict.get res n) as [specs|]; [|discriminate].
      destruct (list_index_in _ _ Hq) as [i Hi]. rewrite Hi.
      simpl. eauto. }
    destruct Htarget as [a_t Ht].
    destruct (target_ok _ _ _ _ _ Ht) as [specs [i [Hget [_ Hnth]]]].
    assert (Ha_t : In a_t (concat (Dict.values res))).
    { apply (in_values res n specs); [now apply get_in|].
      now apply nth_error_In with i. }
    set (c := Z.max (spec_count (heap_get h a_t) - k) 0).
    destruct (IH (set_count h a_t c)) as [h' [Hrun Hcount]].
    + now rewrite set_count_length.
    + exact Hpos'.
    + rewrite forallb_forall in Hin |- *. intros q Hq'.
      specialize (Hin q Hq'). unfold in_inventory in *.
      destruct (Dict.get res (snd (fst q))); [|exact Hin].
      now rewrite set_count_types_of.
    + exists h'. split.
      * simpl. rewrite subtract_one_target, Ht. simpl. exact Hrun.
      * intros a Ha Hcap.
        pose proof (allocated_at_nonneg res h rest a Hpos') as Hrest.
        destruct (Nat.eq_dec a a_t) as [->|Hne].
        -- rewrite Hcount; [|exact Ha|].
           ++ rewrite allocated_at_set_count, set_count_same.
              ** unfold allocated_at at 2. cbn [filter].
                 unfold targets at 1. cbn [fst snd]. rewrite Ht.
                 rewrite Nat.eqb_refl. cbn [map]. rewrite sum_cons.
                 fold (allocated_at res h rest a_t). cbn [snd].
                 unfold c. lia.
              ** rewrite Forall_forall in Hvalid. now apply Hvalid.
           ++ rewrite set_count_same; [unfold c; lia|].
              rewrite Forall_forall in Hvalid. now apply Hvalid.
        -- rewrite Hcount; [|exact Ha|].
           ++ rewrite allocated_at_set_count, set_count_other by exact Hne.
              unfold allocated_at at 2. cbn [filter].
              unfold targets at 1. cbn [fst snd]. rewrite Ht.
              assert (E : (a_t =? a) = false)
                by (apply Nat.eqb_neq; congruence).
              rewrite E. reflexivity.
           ++ now rewrite set_count_other.
Qed.

Lemma NoDup_app_disjoint {A : Type} (l1 l2 : list A) :
  NoDup (l1 ++ l2) -> forall a, In a l1 -> In a l2 -> False.
Proof.
  induction l1 as [|x r IH]; intros Hnd a H1 H2; [contradiction|].
  simpl in Hnd. inversion Hnd as [|y l Hx Hr]; subst.
  destruct H1 as [->|H1].
  - apply Hx. apply in_or_app. now right.
  - now apply (IH Hr a).
Qed.

(** A record belongs to one entry of a well-formed inventory. *)
Lemma entry_unique (res : inventory) :
  NoDup (concat (Dict.values res)) ->
  forall n specs n' specs' a,
    In (n, specs) res -> In (n', specs') res ->
    In a specs -> In a specs' ->
    n = n' /\ specs = specs' /\ NoDup specs.
Proof.
  induction res as [|[k v] r IH]; intros Hnd n specs n' specs' a H1 H2 Ha Ha';
    [contradiction|].
  simpl in Hnd.
  pose proof (NoDup_app_disjoint _ _ Hnd) as Hdis.
  destruct H1 as [H1|H1], H2 as [H2|H2].
  - inversion H1; inversion H2; subst. repeat split; auto.
    now apply NoDup_app_remove_r in Hnd.
  - inversion H1; subst. exfalso. apply (Hdis a Ha).
    now apply (in_values r n' specs').
  - inversion H2; subst. exfalso. apply (Hdis a Ha').
    now apply (in_values r n specs).
  - apply NoDup_app_remove_l in Hnd. now apply (IH Hnd n specs n' specs' a).
Qed.

Lemma first_of_type_index (types : list str) (i : nat) (t : str) :
  nth_error types i = Some t ->
  first_of_type types i = true <-> list_index types t = Ok i.
Proof.
  intros Hn. unfold first_of_type. rewrite Hn.
  destruct (list_index types t) as [j|e]; split; try discriminate.
  - intros H. apply Nat.eqb_eq in H. now subst.
  - intros H. inversion H. apply Nat.eqb_refl.
Qed.

(** Which triples rewrite the record at position [i] of a node. *)
Lemma targets_first (res : inventory) (h : heap) (n : str)
      (specs : list addr) (i : nat) (a : addr) (q : str * str * Z) :
  NoDup (concat (Dict.values res)) ->
  Dict.get res n = Some specs -> nth_error specs i = Some a ->
  targets res h a q =
  first_of_type (types_of h specs) i
  && (str_eqb (fst (fst q)) (spec_type (heap_get h a))
      && str_eqb (snd (fst q)) n).
Proof.
  intros Hnd Hget Hnth. destruct q as [[t' n'] k]. cbn [fst snd].
  assert (Hty : nth_error (types_of h specs) i
                = Some (spec_type (heap_get h a))).
  { unfold types_of.
    apply (map_nth_error (fun a => spec_type (heap_get h a)) i specs Hnth). }
  pose proof (first_of_type_index _ _ _ Hty) as Hfirst.
  unfold targets. cbn [fst snd].
  destruct (target res h t' n') as [a'|e] eqn:Ht.
  - destruct (Nat.eqb_spec a' a) as [->|Hne].
    + destruct (target_ok _ _ _ _ _ Ht) as [specs' [j [Hget' [Hj Hnth']]]].
      destruct (entry_unique res Hnd n specs n' specs' a) as [-> [-> Hnd']];
        try (now apply get_in);
        try (now eapply nth_error_In; eauto).
      assert (j = i) as ->.
      { apply (proj1 (NoDup_nth_error specs') Hnd').
        - apply nth_error_Some. congruence.
        - congruence. }
      pose proof (list_index_nth _ _ _ Hj) as Hj'.
      assert (t' = spec_type (heap_get h a)) as -> by congruence.
      symmetry. rewrite !str_eqb_refl, !andb_true_r. now apply Hfirst.
    + symmetry. apply not_true_is_false. intros Htrue.
      apply andb_true_iff in Htrue. destruct Htrue as [Hf Htrue].
      apply andb_true_iff in Htrue. destruct Htrue as [Et En].
      apply str_eqb_eq in Et, En. subst t' n'.
      apply Hfirst in Hf. unfold target in Ht. rewrite Hget, Hf in Ht.
      simpl in Ht. inversion Ht. subst a'.
      apply Hne. now apply nth_error_nth.
  - symmetry. apply not_true_is_false. intros Htrue.
    apply andb_true_iff in Htrue. destruct Htrue as [Hf Htrue].
    apply andb_true_iff in Htrue. destruct Htrue as [Et En].
    apply str_eqb_eq in Et, En. subst t' n'.
    apply Hfirst in Hf. unfold target in Ht. rewrite Hget, Hf in Ht.
    discriminate.
Qed.

Lemma allocated_at_first (res : inventory) (h : heap) (usage : usage_record)
      (n : str) (specs : list addr) (i : nat) (a : addr) :
  NoDup (concat (Dict.values res)) ->
  Dict.get res n = Some specs -> nth_error specs i = Some a ->
  allocated_at res h (usage_triples usage) a =
  if first_of_type (types_of h specs) i
  then allocated usage n (spec_type (heap_get h a))
  else 0%Z.
Proof.
  intros Hnd Hget Hnth. unfold allocated_at, allocated.
  rewrite (filter_ext _ _
             (fun q => targets_first res h n specs i a q Hnd Hget Hnth)).
  destruct (first_of_type (types_of h specs) i); cbn [andb].
  - reflexivity.
  - induction (usage_triples usage) as [|q r IH]; [reflexivity|exact IH].
Qed.

Lemma accessible_get_none (resources : inventory) (states : node_state_map)
      (node : str) :
  negb (in_set (Dict.get_default states node (lit "down")) INACCESSIBLE)
  = false ->
  Dict.get (accessible resources states) node = None.
Proof.
  intros Hacc. unfold accessible.
  induction resources as [|[key val] rest IH]; [reflexivity|].
  cbn [filter fst].
  destruct (negb (in_set (Dict.get_default states key (lit "down"))
                         INACCESSIBLE)) eqn:K; [|exact IH].
  cbn [Dict.get]. destruct (str_eqb key node) eqn:E; [|exact IH].
  apply str_eqb_eq in E. subst key. congruence.
Qed.

(** The working mapping of [available] holds the lists of the original:
    the same addresses, hence the same records. *)
Lemma accessible_get (resources : inventory) (states : node_state_map)
      (node : str) (specs : list addr) :
  Dict.get (accessible resources states) node = Some specs ->
  Dict.get resources node = Some specs.
Proof.
  destruct (negb (in_set (Dict.get_default states node (lit "down"))
                         INACCESSIBLE)) eqn:Hacc.
  - unfold accessible.
    induction resources as [|[key val] rest IH]; [discriminate|].
    cbn [filter fst Dict.get].
    destruct (str_eqb key node) eqn:E.
    + apply str_eqb_eq in E. subst key. rewrite Hacc.
      cbn [Dict.get]. now rewrite str_eqb_refl.
    + destruct (negb (in_set (Dict.get_default states key (lit "down"))
                             INACCESSIBLE)); [|exact IH].
      cbn [Dict.get]. rewrite E. exact IH.
  - now rewrite accessible_get_none.
Qed.

End Heap.

(** ** InventoryBuilder: the inventory it builds is well formed *)

Section InventoryBuilder.

Lemma set_append_permutation (res : inventory) (name : str) (a : addr) :
  Permutation
    (concat (Dict.values
               (Dict.set res name (Dict.get_default res name [] ++ [a]))))
    (a :: concat (Dict.values res)).
Proof.
  unfold Dict.get_default.
  induction res as [|[k v] r IH]; [apply Permutation_refl|].
  cbn [Dict.get Dict.set]. destruct (str_eqb k name).
  - cbn [Dict.values map snd concat]. rewrite <- app_assoc.
    apply Permutation_sym. apply Permutation_middle.
  - cbn [Dict.values map snd concat].
    apply Permutation_trans with (v ++ a :: concat (Dict.values r)).
    + apply Permutation_app_head. exact IH.
    + apply Permutation_sym. apply Permutation_middle.
Qed.

Lemma append_specs_wf (node_names : list str) (gpu_type : str)
      (gpu_count : Z) :
  forall h resources,
    inventory_wf h resources ->
    inventory_wf (fst (append_specs node_names gpu_type gpu_count h resources))
                 (snd (append_specs node_names gpu_type gpu_count h resources)).
Proof.
  induction node_names as [|name rest IH]; intros h resources [Hnd Hvalid];
    [split; assumption|].
  cbn [append_specs]. apply IH.
  pose proof (set_append_permutation resources name (length h)) as Hperm.
  apply Permutation_sym in Hperm. split.
  - apply (Permutation_NoDup Hperm). constructor; [|exact Hnd].
    intros Hin. rewrite Forall_forall in Hvalid.
    specialize (Hvalid _ Hin). lia.
  - apply (Permutation_Forall Hperm). rewrite length_app. cbn [length].
    constructor; [lia|].
    apply Forall_impl with (P := fun a => a < length h); [intros; lia|].
    exact Hvalid.
Qed.

Lemma parse_resource_strs_wf (default_gpus : Z) (node_str : str)
      (resource_strs : list str) :
  forall h resources h' resources',
    inventory_wf h resources ->
    parse_resource_strs default_gpus node_str resource_strs h resources
    = Ok (h', resources') ->
    inventory_wf h' resources'.
Proof.
  induction resource_strs as [|resource_str rest IH];
    intros h resources h' resources' Hwf Hrun; cbn [parse_resource_strs] in Hrun.
  - inversion Hrun; subst. exact Hwf.
  - destruct (negb (startswith resource_str (lit "gpu")));
      [now apply (IH h resources)|].
    destruct (getitem_list (split ":" (strip resource_str)) 2)
      as [count_field|]; [|discriminate].
    cbn [bind] in Hrun.
    destruct (getitem_list (split ":" (strip resource_str)) 1)
      as [gpu_type|]; [|discriminate].
    cbn [bind] in Hrun.
    destruct (match count_field with
              | [] => Ok default_gpus
              | _ :: _ => int count_field
              end) as [gpu_count|]; [|discriminate].
    cbn [bind] in Hrun.
    destruct (parse_node_names node_str) as [node_names|]; [|discriminate].
    cbn [bind] in Hrun.
    pose proof (append_specs_wf node_names gpu_type gpu_count h resources Hwf)
      as Hwf'.
    destruct (append_specs node_names gpu_type gpu_count h resources)
      as [h1 resources1].
    now apply (IH h1 resources1).
Qed.

Lemma parse_gpu_rows_wf (default_gpus : Z) (rows : list str) :
  forall h resources h' resources',
    inventory_wf h resources ->
    parse_gpu_rows default_gpus rows h resources = Ok (h', resources') ->
    inventory_wf h' resources'.
Proof.
  induction rows as [|row rest IH];
    intros h resources h' resources' Hwf Hrun; cbn [parse_gpu_rows] in Hrun.
  - inversion Hrun; subst. exact Hwf.
  - destruct (split "|" row) as [|node_str [|resource_strs [|x l]]];
      try discriminate.
    destruct (parse_resource_strs default_gpus node_str
                (split "," resource_strs) h resources)
      as [[h1 resources1]|] eqn:Hrow; [|discriminate].
    cbn [bind fst snd] in Hrun.
    apply (IH h1 resources1); [|exact Hrun].
    now apply (parse_resource_strs_wf _ _ _ _ _ _ _ Hwf Hrow).
Qed.

(** X10: whatever [sinfo] printed, the inventory [parse_all_gpus] returns
    is well formed in the heap it returns: every record it lists is in the
    store, and no record is listed twice, on one node or on two. *)
Lemma parse_all_gpus_wf (default_gpus : Z) (sched : scheduler)
      (h : heap) (resources : inventory) :
  parse_all_gpus default_gpus sched [] = Ok (h, resources) ->
  inventory_wf h resources.
Proof.
  unfold parse_all_gpus. apply parse_gpu_rows_wf.
  split; constructor.
Qed.

End InventoryBuilder.

Section PairCount.




End PairCount.




(** C5 (as the code has it): the estimator does not copy the records.
    Its working mapping holds, for the accessible nodes, the lists of the
    original inventory, and the decremented counts are written into the
    original's records. What it leaves alone: the heap keeps its size,
    every record keeps its type, and every record that is not on an
    accessible node keeps its count. *)
Theorem available_writes_shared_records
        (sched : scheduler) (resources : inventory)
        (states : node_state_map) (h h' : heap) (out : list str)
        (Hrun : available_from sched resources states h = Ok (h', out)) :
  (forall node specs,
      Dict.get (accessible resources states) node = Some specs ->
      Dict.get resources node = Some specs) /\
  length h' = length h /\
  (forall a, spec_type (heap_get h' a) = spec_type (heap_get h a)) /\
  (forall a,
      ~ In a (concat (Dict.values (accessible resources states))) ->
      heap_get h' a = heap_get h a).
Proof.
  split; [intros node specs; apply accessible_get|].
  unfold available_from in Hrun.
  destruct (gpu_usage sched h PlainDict (accessible resources states) [] 0)
    as [st|e]; [|discriminate].
  cbn [bind] in Hrun.
  destruct (subtract_usage (accessible resources states) (st_usage st) h)
    as [h1|e] eqn:Hsub; [|discriminate].
  cbn [bind] in Hrun. inversion Hrun; subst h1.
  rewrite subtract_usage_triples in Hsub.
  now apply subtract_triples_frame in Hsub.
Qed.

Lemma available_writes_shared_records_witness :
  length [mkSpec (lit "v100") 1; mkSpec (lit "k80") 2] = 2.
Proof.
  apply (available_writes_shared_records
           (mkScheduler [] [] [lit "gpu:v100:3 nodeA alice"] (fun _ => 0))
           [(lit "nodeA", [0]); (lit "nodeB", [1])]
           [(lit "nodeA", lit "idle"); (lit "nodeB", lit "drain")]
           [mkSpec (lit "v100") 4; mkSpec (lit "k80") 2]
           [mkSpec (lit "v100") 1; mkSpec (lit "k80") 2]
           [lit "There are 1 gpus available:"; lit "v100: 1"]).
  vm_compute. reflexivity.
Defined.

(** C5, as stated, fails: after the estimator has run on one idle node
    with 4 GPUs of which 3 are allocated, the original inventory shows 1
    GPU on that node. *)
Lemma available_changes_original_inventory :
  let sched :=
    mkScheduler [] [] [lit "gpu:v100:3 nodeA alice"] (fun _ => 0) in
  let resources := [(lit "nodeA", [0])] in
  let states := [(lit "nodeA", lit "idle")] in
  let h := [mkSpec (lit "v100") 4] in
  exists h' out,
    available sched (Some resources) (Some states) h = Ok (h', out) /\
    inventory_view h resources = [(lit "nodeA", [(lit "v100", 4%Z)])] /\
    inventory_view h' resources = [(lit "nodeA", [(lit "v100", 1%Z)])].
Proof.
  cbv zeta. do 2 eexists. split; [vm_compute; reflexivity|].
  split; reflexivity.
Qed.

(** ** The historical log *)

Section ReprStr.

(** Reading back one character as [repr] wrote it. *)
Lemma scan_repr_char (quote c : ascii) (acc rest : str) :
  quote = squote \/ quote = dquote ->
  scan_string quote Plain acc (repr_char quote c ++ rest)
  = scan_string quote Plain (c :: acc) rest.
Proof.
  intros [-> | ->]; destruct c as [[] [] [] [] [] [] [] []]; reflexivity.
Qed.

Lemma scan_repr_chars (quote : ascii) (s : str) :
  quote = squote \/ quote = dquote ->
  forall acc rest,
    scan_string quote Plain acc (flat_map (repr_char quote) s ++ quote :: rest)
    = Ok (rev acc ++ s, rest).
Proof.
  intros Hq. induction s as [|c r IH]; intros acc rest.
  - cbn [flat_map app scan_string scan_char scan_plain].
    unfold scan_plain. rewrite Ascii.eqb_refl. now rewrite app_nil_r.
  - cbn [flat_map]. rewrite <- app_assoc, (scan_repr_char _ _ _ _ Hq), IH.
    cbn [rev]. now rewrite <- app_assoc.
Qed.

Lemma repr_str_quote (s : str) :
  exists quote,
    (quote = squote \/ quote = dquote) /\
    repr_str s = quote :: flat_map (repr_char quote) s ++ [quote].
Proof.
  unfold repr_str.
  destruct (contains squote s && negb (contains dquote s));
    [exists dquote | exists squote]; split; auto.
Qed.

Lemma repr_str_length (s : str) : 2 <= length (repr_str s).
Proof.
  destruct (repr_str_quote s) as [quote [_ ->]].
  cbn [length]. rewrite length_app. cbn [length]. lia.
Qed.

Lemma skip_space_quote (quote : ascii) (nested : bool) (r : str) :
  quote = squote \/ quote = dquote ->
  skip_space nested (quote :: r) = quote :: r.
Proof. intros [-> | ->]; destruct nested; reflexivity. Qed.

(** A quoted string written by [repr] reads back as the string. *)
Lemma literal_value_quoted (quote : ascii) (s : str) (fuel : nat)
      (nested : bool) (rest : str) :
  quote = squote \/ quote = dquote ->
  literal_value (S fuel) nested
    (quote :: flat_map (repr_char quote) s ++ quote :: rest)
  = Ok (VStr s, rest).
Proof.
  intros Hq. cbn [literal_value]. rewrite (skip_space_quote _ _ _ Hq).
  rewrite (scan_repr_chars quote s Hq [] rest).
  destruct Hq as [-> | ->]; reflexivity.
Qed.

End ReprStr.

Section ReprInt.

Lemma digit_char_spec (d : N) :
  (d < 10)%N ->
  isdigit (digit_char d) = true /\
  digit_value (digit_char d) = Z.of_N d /\
  Ascii.eqb (digit_char d) "_" = false /\
  (Ascii.eqb (digit_char d) "0" = true -> d = 0%N).
Proof.
  intros Hd. apply N.ltb_lt in Hd.
  destruct d as [|p]; [repeat split|].
  do 4 (try destruct p as [p|p|]); try discriminate Hd;
    repeat split; discriminate.
Qed.

Lemma digits_number_app (ds : list N) (d : N) (a : Z) :
  digits_number (ds ++ [d]) a = (10 * digits_number ds a + Z.of_N d)%Z.
Proof. unfold digits_number. now rewrite fold_left_app. Qed.

(** With enough fuel, [digits_of] writes the decimal digits of [n], most
    significant first, without a leading zero. *)
Lemma digits_of_spec (fuel : nat) :
  forall n acc,
    (n < 2 ^ N.of_nat fuel)%N -> fuel <> 0 ->
    exists d ds,
      digits_of fuel n acc = map digit_char (d :: ds) ++ acc /\
      Forall (fun x => (x < 10)%N) (d :: ds) /\
      (forall a, digits_number (d :: ds) a
                 = (a * 10 ^ Z.of_nat (length (d :: ds)) + Z.of_N n)%Z) /\
      ((0 < n)%N -> d <> 0%N).
Proof.
  induction fuel as [|fuel IH]; intros n acc Hn Hfuel; [contradiction|].
  cbn [digits_of].
  assert (Hmod : (n mod 10 < 10)%N) by (apply N.mod_lt; discriminate).
  assert (Hdiv : n = (10 * (n / 10) + n mod 10)%N)
    by (apply N.div_mod; discriminate).
  destruct (N.eqb_spec (n / 10) 0) as [Hz|Hnz].
  - exists (n mod 10)%N, [].
    split; [reflexivity|]. split; [repeat constructor; exact Hmod|]. split.
    + intros a. unfold digits_number. cbn [fold_left length].
      change (Z.of_nat 1) with 1%Z. rewrite Z.pow_1_r.
      rewrite Hz in Hdiv. lia.
    + intros Hpos. rewrite Hz in Hdiv. lia.
  - assert (Hfuel' : fuel <> 0).
    { intros ->. apply Hnz. apply N.div_small.
      change (2 ^ N.of_nat 1)%N with 2%N in Hn. lia. }
    assert (Hn' : (n / 10 < 2 ^ N.of_nat fuel)%N).
    { apply N.Div0.div_lt_upper_bound.
      rewrite Nat2N.inj_succ, N.pow_succ_r' in Hn. lia. }
    destruct (IH (n / 10)%N (digit_char (n mod 10) :: acc) Hn' Hfuel')
      as [d [ds [Heq [Hall [Hval Hlead]]]]].
    exists d, (ds ++ [(n mod 10)%N]). split; [|split; [|split]].
    + rewrite Heq. cbn [map app]. f_equal.
      rewrite map_app, <- app_assoc. reflexivity.
    + change (d :: ds ++ [(n mod 10)%N]) with ((d :: ds) ++ [(n mod 10)%N]).
      apply Forall_app. split; [exact Hall|]. repeat constructor. exact Hmod.
    + intros a.
      change (d :: ds ++ [(n mod 10)%N]) with ((d :: ds) ++ [(n mod 10)%N]).
      remember (d :: ds) as dl eqn:Hdl.
      rewrite digits_number_app, Hval, length_app.
      change (length [(n mod 10)%N]) with 1.
      rewrite Nat.add_1_r, Nat2Z.inj_succ, Z.pow_succ_r by lia.
      assert (HdivZ : Z.of_N n
                      = (10 * Z.of_N (n / 10) + Z.of_N (n mod 10))%Z).
      { rewrite Hdiv at 1. now rewrite N2Z.inj_add, N2Z.inj_mul. }
      rewrite HdivZ. ring.
    + intros _. apply Hlead. lia.
Qed.

Lemma str_of_N_spec (n : N) :
  exists d ds,
    str_of_N n = map digit_char (d :: ds) /\
    Forall (fun x => (x < 10)%N) (d :: ds) /\
    digits_number (d :: ds) 0 = Z.of_N n /\
    ((0 < n)%N -> d <> 0%N).
Proof.
  unfold str_of_N.
  destruct (digits_of_spec (S (N.to_nat (N.log2 n))) n []) as
    [d [ds [Heq [Hall [Hval Hlead]]]]].
  - rewrite Nat2N.inj_succ, N2Nat.id.
    destruct n as [|p]; [reflexivity|]. apply N.log2_spec. reflexivity.
  - discriminate.
  - exists d, ds. rewrite Heq, app_nil_r.
    split; [reflexivity|]. split; [exact Hall|]. split; [|exact Hlead].
    rewrite Hval. lia.
Qed.

Lemma digits_value_digits (ds : list N) :
  Forall (fun x => (x < 10)%N) ds ->
  forall a b,
    ds <> [] \/ b = true ->
    digits_value a b (map digit_char ds) = Some (digits_number ds a).
Proof.
  induction 1 as [|d ds Hd Hall IH]; intros a b Hne.
  - destruct Hne as [Hne | ->]; [contradiction|reflexivity].
  - cbn [map digits_value].
    destruct (digit_char_spec d Hd) as [Hdig [Hval _]].
    rewrite Hdig, Hval. rewrite IH by now right. reflexivity.
Qed.

Lemma span_number_digits (ds : list N) (rest : str) :
  Forall (fun x => (x < 10)%N) ds ->
  ends_number rest = true ->
  span_number (map digit_char ds ++ rest) = (map digit_char ds, rest).
Proof.
  intros Hall Hrest. induction Hall as [|d ds Hd Hall IH].
  - destruct rest as [|c r]; [reflexivity|].
    cbn [map app span_number]. cbn [ends_number] in Hrest.
    apply negb_true_iff in Hrest. now rewrite Hrest.
  - cbn [map app span_number].
    destruct (digit_char_spec d Hd) as [Hdig _].
    rewrite Hdig, IH. reflexivity.
Qed.

(** A decimal number written by [str] reads back as the number. *)
Lemma int_literal_str_of_N (n : N) (rest : str) :
  ends_number rest = true ->
  int_literal (str_of_N n ++ rest) = Ok (Z.of_N n, rest) /\
  exists c r, str_of_N n = c :: r /\ isdigit c = true.
Proof.
  intros Hrest.
  destruct (str_of_N_spec n) as [d [ds [Heq [Hall [Hval Hlead]]]]].
  rewrite Heq. split.
  - unfold int_literal. rewrite (span_number_digits _ _ Hall Hrest).
    rewrite (digits_value_digits _ Hall) by (left; discriminate).
    rewrite Hval. cbn [map].
    inversion Hall as [|x l Hd Hds]; subst.
    destruct (digit_char_spec d Hd) as [_ [_ [_ Hzero]]].
    destruct (Ascii.eqb (digit_char d) "0") eqn:E; [|reflexivity].
    destruct (Z.eqb_spec (Z.of_N n) 0) as [Hz|Hnz]; [reflexivity|].
    exfalso. apply Hlead; [lia|]. now apply Hzero.
  - cbn [map]. eexists _, _. split; [reflexivity|].
    inversion Hall; subst. now apply digit_char_spec.
Qed.

Lemma skip_space_digit (nested : bool) (c : ascii) (r : str) :
  isdigit c = true -> skip_space nested (c :: r) = c :: r.
Proof.
  intros Hc. destruct c as [[] [] [] [] [] [] [] []];
    try discriminate Hc; destruct nested; reflexivity.
Qed.

Lemma digit_not_special (c : ascii) :
  isdigit c = true ->
  Ascii.eqb c squote || Ascii.eqb c dquote = false.
Proof.
  intros Hc. destruct c as [[] [] [] [] [] [] [] []];
    try discriminate Hc; reflexivity.
Qed.

(** An integer written by [str] reads back as the integer. *)
Lemma literal_value_str_of_int (z : Z) (fuel : nat) (nested : bool)
      (rest : str) :
  ends_number rest = true ->
  literal_value (S fuel) nested (str_of_int z ++ rest) = Ok (VInt z, rest).
Proof.
  intros Hrest. destruct z as [|p|p].
  - destruct nested; cbn [str_of_int lit list_ascii_of_string app];
      cbn [literal_value];
      rewrite (skip_space_digit _ "0"%char rest eq_refl);
      change (int_literal ("0"%char :: rest))
        with (int_literal (str_of_N 0 ++ rest));
      rewrite (proj1 (int_literal_str_of_N 0 rest Hrest)); reflexivity.
  - cbn [str_of_int].
    destruct (int_literal_str_of_N (Npos p) rest Hrest)
      as [Hint [c [r [Heq Hc]]]].
    rewrite Heq in *. cbn [app] in *. cbn [literal_value].
    rewrite (skip_space_digit _ _ _ Hc), (digit_not_special _ Hc), Hc, Hint.
    reflexivity.
  - cbn [str_of_int app]. cbn [literal_value].
    destruct (int_literal_str_of_N (Npos p) rest Hrest)
      as [Hint [c [r [Heq Hc]]]].
    rewrite Heq in *. cbn [app] in *.
    replace (skip_space nested ("-"%char :: c :: r ++ rest))
      with ("-"%char :: c :: r ++ rest) by (destruct nested; reflexivity).
    change (Ascii.eqb "-" squote || Ascii.eqb "-" dquote) with false.
    change (isdigit "-") with false.
    change (Ascii.eqb "-" "-" || Ascii.eqb "-" "+") with true.
    cbv iota.
    rewrite (skip_space_digit _ _ _ Hc), Hc, Hint. reflexivity.
Qed.

End ReprInt.

Section ReprDict.

Variable V : Type.
Variable repr_value : V -> str.
Variable value_of : V -> pyval.
Variable wf : V -> Prop.

Hypothesis Hvalue :
  forall v fuel rest,
    wf v -> length (repr_value v) < fuel -> closes rest = true ->
    literal_value fuel true (repr_value v ++ rest) = Ok (value_of v, rest).

Let item (kv : str * V) : str :=
  repr_str (fst kv) ++ lit ": " ++ repr_value (snd kv).

Let entry (kv : str * V) : pykey * pyval :=
  (KStr (fst kv), value_of (snd kv)).

Lemma items_set_fresh (acc : list (pykey * pyval)) (k : str) (v : pyval) :
  ~ In (KStr k) (map fst acc) ->
  items_set acc (KStr k) v = acc ++ [(KStr k, v)].
Proof.
  induction acc as [|[k' v'] r IH]; intros Hfresh; [reflexivity|].
  cbn [items_set app]. cbn [map fst In] in Hfresh.
  destruct (pykey_eqb k' (KStr k)) eqn:E.
  - exfalso. apply Hfresh. left. destruct k' as [z|s']; [discriminate|].
    cbn in E. apply str_eqb_eq in E. now subst.
  - rewrite IH; [reflexivity|]. tauto.
Qed.

Lemma literal_value_space (fuel : nat) (nested : bool) (s : str) :
  literal_value fuel nested (" "%char :: s) = literal_value fuel nested s.
Proof. destruct fuel; reflexivity. Qed.

Lemma literal_items_space (fuel : nat) (s : str)
      (acc : list (pykey * pyval)) :
  literal_items fuel (" "%char :: s) acc = literal_items fuel s acc.
Proof. destruct fuel; reflexivity. Qed.

Lemma literal_items_close (fuel : nat) (rest : str)
      (acc : list (pykey * pyval)) :
  literal_items (S fuel) ("}"%char :: rest) acc = Ok (VDict acc, rest).
Proof. reflexivity. Qed.

Lemma literal_items_S (fuel : nat) (s : str) (acc : list (pykey * pyval)) :
  literal_items (S fuel) s acc =
  match skip_space true s with
  | [] => Raise SyntaxError
  | c :: r =>
      if Ascii.eqb c "}" then Ok (VDict acc, r)
      else
        kr <- literal_value fuel true (c :: r) ;;
        key <- key_of_value (fst kr) ;;
        match skip_space true (snd kr) with
        | c1 :: r1 =>
            if Ascii.eqb c1 ":" then
              vr <- literal_value fuel true r1 ;;
              let acc' := items_set acc key (fst vr) in
              match skip_space true (snd vr) with
              | c2 :: r2 =>
                  if Ascii.eqb c2 "," then literal_items fuel r2 acc'
                  else if Ascii.eqb c2 "}" then Ok (VDict acc', r2)
                  else Raise SyntaxError
              | [] => Raise SyntaxError
              end
            else Raise SyntaxError
        | [] => Raise SyntaxError
        end
  end.
Proof. reflexivity. Qed.

Lemma skip_space_closes (tail : str) :
  closes tail = true -> skip_space true tail = tail.
Proof.
  destruct tail as [|c r]; [discriminate|]. cbn [closes]. intros H.
  apply orb_true_iff in H.
  destruct H as [H|H]; apply Ascii.eqb_eq in H; subst c; reflexivity.
Qed.

(** One item of a dict display: the key, the colon, the value, and what
    comes after the value. *)
Lemma literal_items_item (fuel : nat) (k : str) (v : V) (tail : str)
      (acc : list (pykey * pyval)) :
  wf v -> closes tail = true ->
  length (item (k, v)) <= fuel ->
  ~ In (KStr k) (map fst acc) ->
  literal_items (S fuel) (item (k, v) ++ tail) acc =
  match tail with
  | c :: r =>
      if Ascii.eqb c "," then literal_items fuel r (acc ++ [entry (k, v)])
      else Ok (VDict (acc ++ [entry (k, v)]), r)
  | [] => Raise SyntaxError
  end.
Proof.
  intros Hwf Htail Hlen Hfresh. unfold item in *. cbn [fst snd] in *.
  destruct (repr_str_quote k) as [quote [Hq Heq]].
  rewrite Heq in *. rewrite !length_app in Hlen. cbn [length] in Hlen.
  rewrite literal_items_S.
  cbn [lit list_ascii_of_string app]. rewrite <- !app_assoc. cbn [app].
  rewrite (skip_space_quote _ _ _ Hq).
  replace (Ascii.eqb quote "}") with false
    by (destruct Hq as [-> | ->]; reflexivity).
  destruct fuel as [|fuel']; [lia|].
  rewrite (literal_value_quoted quote k fuel' true _ Hq).
  cbn [bind fst snd key_of_value].
  change (skip_space true (":"%char :: " "%char :: repr_value v ++ tail))
    with (":"%char :: " "%char :: repr_value v ++ tail).
  change (Ascii.eqb ":" ":") with true. cbv iota.
  rewrite literal_value_space.
  rewrite (Hvalue v (S fuel') tail Hwf) by (auto; lia).
  cbn [bind fst snd]. cbv zeta. rewrite (items_set_fresh _ _ _ Hfresh).
  rewrite (skip_space_closes _ Htail).
  destruct tail as [|c r]; [discriminate|].
  cbn [closes] in Htail. unfold entry. cbn [fst snd].
  destruct (Ascii.eqb c ",") eqn:Ecomma; [reflexivity|].
  cbn [orb] in Htail. now rewrite Htail.
Qed.

Lemma join_cons (sep p : str) (q : str) (ps : list str) :
  join sep (p :: q :: ps) = p ++ sep ++ join sep (q :: ps).
Proof. reflexivity. Qed.

(** The items of a dict display, up to the closing brace. *)
Lemma literal_items_repr (d : Dict.dict V) :
  forall fuel acc rest,
    d <> [] ->
    NoDup (Dict.keys d) ->
    (forall k, In k (Dict.keys d) -> ~ In (KStr k) (map fst acc)) ->
    Forall wf (Dict.values d) ->
    length (join (lit ", ") (map item d)) < fuel ->
    literal_items fuel (join (lit ", ") (map item d) ++ "}"%char :: rest) acc
    = Ok (VDict (acc ++ map entry d), rest).
Proof.
  induction d as [|[k v] more IH]; intros fuel acc rest Hne Hnd Hfresh Hwf Hlen;
    [contradiction|].
  cbn [Dict.keys map fst] in Hnd, Hfresh.
  inversion Hnd as [|x l Hk Hnd']; subst.
  cbn [Dict.values map snd] in Hwf.
  inversion Hwf as [|x l Hv Hwf']; subst.
  destruct fuel as [|fuel]; [lia|].
  destruct more as [|kv' more'].
  - change (join (lit ", ") (map item [(k, v)])) with (item (k, v)) in *.
    rewrite (literal_items_item fuel k v ("}"%char :: rest) acc Hv eq_refl);
      [reflexivity|lia|apply Hfresh; now left].
  - change (map item ((k, v) :: kv' :: more'))
      with (item (k, v) :: item kv' :: map item more') in *.
    rewrite join_cons in *.
    change (item kv' :: map item more') with (map item (kv' :: more')) in *.
    rewrite !length_app in Hlen. cbn [lit list_ascii_of_string length] in Hlen.
    rewrite <- !app_assoc. cbn [lit list_ascii_of_string app].
    change [","%char; " "%char] with (lit ", ").
    rewrite (literal_items_item fuel k v
               (","%char :: " "%char
                :: join (lit ", ") (map item (kv' :: more'))
                ++ "}"%char :: rest) acc Hv eq_refl);
      [|lia|apply Hfresh; now left].
    change (Ascii.eqb "," ",") with true.
    cbv iota. rewrite literal_items_space.
    rewrite (IH fuel (acc ++ [entry (k, v)]) rest).
    + now rewrite <- app_assoc.
    + discriminate.
    + exact Hnd'.
    + intros k' Hk' Hin. rewrite map_app in Hin. apply in_app_or in Hin.
      destruct Hin as [Hin|Hin].
      * apply (Hfresh k'); [now right|exact Hin].
      * cbn in Hin. destruct Hin as [Hin|[]]. inversion Hin; subst.
        apply Hk. exact Hk'.
    + exact Hwf'.
    + change [","%char; " "%char] with (lit ", ") in Hlen.
      pose proof (repr_str_length k) as Hk2.
      unfold item in Hlen at 1. rewrite length_app in Hlen.
      cbn [fst] in Hlen. lia.
Qed.

Lemma literal_value_brace (fuel : nat) (nested : bool) (s : str) :
  literal_value (S fuel) nested ("{"%char :: s) = literal_items fuel s [].
Proof. destruct nested; reflexivity. Qed.

(** A dict written by [repr] reads back as the dict. *)
Lemma literal_value_repr_dict (d : Dict.dict V) (fuel : nat)
      (nested : bool) (rest : str) :
  keys_unique d -> Forall wf (Dict.values d) ->
  length (repr_dict repr_value d) < fuel ->
  literal_value fuel nested (repr_dict repr_value d ++ rest)
  = Ok (value_of_dict value_of d, rest).
Proof.
  intros Hnd Hwf Hlen.
  change (repr_dict repr_value d)
    with ("{"%char :: join (lit ", ") (map item d) ++ lit "}") in *.
  cbn [length] in Hlen. rewrite length_app in Hlen.
  change (length (lit "}")) with 1 in Hlen.
  destruct fuel as [|fuel]; [lia|].
  cbn [app]. rewrite <- app_assoc.
  change (lit "}" ++ rest) with ("}"%char :: rest).
  rewrite literal_value_brace. unfold value_of_dict.
  destruct d as [|kv more].
  - destruct fuel as [|fuel]; [cbn in Hlen; lia|]. reflexivity.
  - rewrite literal_items_repr; auto; [discriminate|lia].
Qed.

End ReprDict.

Section PlainText.

(** [repr] writes no character at which [splitlines] breaks. *)
Lemma no_break_app (a b : str) :
  no_break (a ++ b) = no_break a && no_break b.
Proof. apply forallb_app. Qed.

Lemma no_break_repr_char (quote c : ascii) :
  quote = squote \/ quote = dquote ->
  no_break (repr_char quote c) = true.
Proof.
  intros [-> | ->]; destruct c as [[] [] [] [] [] [] [] []]; reflexivity.
Qed.

Lemma no_break_repr_str (s : str) : no_break (repr_str s) = true.
Proof.
  destruct (repr_str_quote s) as [quote [Hq ->]].
  assert (Hquote : no_break [quote] = true)
    by (destruct Hq as [-> | ->]; reflexivity).
  change (quote :: flat_map (repr_char quote) s ++ [quote])
    with ([quote] ++ flat_map (repr_char quote) s ++ [quote]).
  rewrite !no_break_app, Hquote, andb_true_r. cbn [andb].
  induction s as [|c r IH]; [reflexivity|].
  cbn [flat_map]. now rewrite no_break_app, (no_break_repr_char _ _ Hq).
Qed.

Lemma no_break_digit (c : ascii) :
  isdigit c = true -> negb (islinebreak c) = true.
Proof.
  destruct c as [[] [] [] [] [] [] [] []]; intros H;
    try discriminate H; reflexivity.
Qed.

Lemma no_break_str_of_N (n : N) : no_break (str_of_N n) = true.
Proof.
  destruct (str_of_N_spec n) as [d [ds [-> [Hall _]]]].
  unfold no_break. apply forallb_forall.
  intros c Hc. apply in_map_iff in Hc. destruct Hc as [x [<- Hx]].
  rewrite Forall_forall in Hall.
  apply no_break_digit. now apply digit_char_spec, Hall.
Qed.

Lemma no_break_str_of_int (z : Z) : no_break (str_of_int z) = true.
Proof.
  destruct z as [|p|p]; [reflexivity|apply no_break_str_of_N|].
  cbn [str_of_int]. change (no_break ("-"%char :: str_of_N (N.pos p)))
    with (no_break (str_of_N (N.pos p))). apply no_break_str_of_N.
Qed.

Lemma no_break_repr_dict (V : Type) (repr_value : V -> str)
      (d : Dict.dict V) :
  (forall v, no_break (repr_value v) = true) ->
  no_break (repr_dict repr_value d) = true.
Proof.
  intros Hvalue. unfold repr_dict. rewrite !no_break_app.
  change (no_break (lit "{")) with true.
  change (no_break (lit "}")) with true. rewrite andb_true_r. cbn [andb].
  induction d as [|[k v] more IH]; [reflexivity|].
  assert (Hitem : no_break (repr_str k ++ lit ": " ++ repr_value v) = true).
  { rewrite !no_break_app, no_break_repr_str, Hvalue. reflexivity. }
  destruct more as [|kv' more']; [exact Hitem|].
  cbn [map fst snd] in *.
  change (join (lit ", ") (?a :: ?b :: ?c))
    with (a ++ lit ", " ++ join (lit ", ") (b :: c)).
  rewrite !no_break_app. rewrite !no_break_app in Hitem.
  rewrite Hitem, IH. reflexivity.
Qed.

Lemma no_break_serialize_usage (usage : usage_record) :
  no_break (serialize_usage usage) = true.
Proof.
  unfold serialize_usage.
  apply no_break_repr_dict. intros by_type.
  apply no_break_repr_dict. intros by_node.
  apply no_break_repr_dict. apply no_break_str_of_int.
Qed.

End PlainText.

Section RoundTrip.

Lemma closes_ends_number (rest : str) :
  closes rest = true -> ends_number rest = true.
Proof.
  destruct rest as [|c r]; [discriminate|]. cbn [closes ends_number].
  intros H. apply orb_true_iff in H.
  destruct H as [H|H]; apply Ascii.eqb_eq in H; subst c; reflexivity.
Qed.

Lemma literal_value_count (z : Z) (fuel : nat) (rest : str) :
  True -> length (str_of_int z) < fuel -> closes rest = true ->
  literal_value fuel true (str_of_int z ++ rest) = Ok (VInt z, rest).
Proof.
  intros _ Hlen Hrest. destruct fuel as [|fuel]; [lia|].
  apply literal_value_str_of_int. now apply closes_ends_number.
Qed.

Lemma Forall_True {A : Type} (l : list A) : Forall (fun _ => True) l.
Proof. apply Forall_forall. auto. Qed.

Lemma literal_value_by_node (by_node : Dict.dict Z) (fuel : nat)
      (rest : str) :
  keys_unique by_node ->
  length (repr_dict str_of_int by_node) < fuel -> closes rest = true ->
  literal_value fuel true (repr_dict str_of_int by_node ++ rest)
  = Ok (value_of_dict VInt by_node, rest).
Proof.
  intros Hk Hlen _.
  apply (literal_value_repr_dict Z str_of_int VInt (fun _ => True)
           literal_value_count); auto using Forall_True.
Qed.

Lemma literal_value_by_type (by_type : Dict.dict (Dict.dict Z))
      (fuel : nat) (rest : str) :
  keys_unique by_type /\ Forall keys_unique (Dict.values by_type) ->
  length (repr_dict (repr_dict str_of_int) by_type) < fuel ->
  closes rest = true ->
  literal_value fuel true (repr_dict (repr_dict str_of_int) by_type ++ rest)
  = Ok (value_of_dict (value_of_dict VInt) by_type, rest).
Proof.
  intros [Hk Hv] Hlen _.
  apply (literal_value_repr_dict _ (repr_dict str_of_int)
           (value_of_dict VInt) keys_unique literal_value_by_node); auto.
Qed.

(** What [serialize_usage] writes, [ast.literal_eval] reads back. *)
Lemma literal_eval_serialize_usage (usage : usage_record) :
  usage_wf usage ->
  literal_eval (serialize_usage usage) = Ok (value_of_usage usage).
Proof.
  intros [Hk Hv]. unfold literal_eval.
  assert (Hskip : skip_space true (serialize_usage usage)
                  = serialize_usage usage) by reflexivity.
  rewrite Hskip.
  rewrite <- (app_nil_r (serialize_usage usage)) at 2.
  unfold serialize_usage, value_of_usage.
  rewrite (literal_value_repr_dict _ (repr_dict (repr_dict str_of_int))
             (value_of_dict (value_of_dict VInt))
             (fun d => keys_unique d /\ Forall keys_unique (Dict.values d))
             literal_value_by_type); auto.
Qed.

Lemma splitlines_row (line : str) :
  no_break line = true ->
  forall cur more,
    splitlines cur (line ++ newline :: more)
    = (rev cur ++ line) :: splitlines [] more.
Proof.
  induction line as [|c r IH]; intros Hline cur more.
  - rewrite app_nil_r. destruct more; reflexivity.
  - cbn [no_break forallb] in Hline. apply andb_true_iff in Hline.
    destruct Hline as [Hc Hr]. apply negb_true_iff in Hc.
    cbn [app splitlines]. rewrite Hc, (IH Hr). cbn [rev].
    now rewrite <- app_assoc.
Qed.

Lemma split_first_row (ts : str) (usage_text : str) :
  forallb (fun c => negb (isspace c)) ts = true ->
  usage_text <> [] -> lstrip usage_text = usage_text ->
  forall cur,
    cur <> [] \/ ts <> [] ->
    split_first cur (ts ++ " "%char :: usage_text)
    = [rev cur ++ ts; usage_text].
Proof.
  intros Hts Hne Hstrip. induction ts as [|c r IH]; intros cur Hcur.
  - destruct Hcur as [Hcur|Hcur]; [|contradiction].
    cbn [app split_first]. change (isspace " ") with true. cbv iota.
    rewrite Hstrip, app_nil_r.
    destruct cur; [contradiction|]. destruct usage_text; [contradiction|].
    reflexivity.
  - cbn [forallb] in Hts. apply andb_true_iff in Hts.
    destruct Hts as [Hc Hr]. apply negb_true_iff in Hc.
    cbn [app split_first]. rewrite Hc, (IH Hr).
    + cbn [rev]. now rewrite <- app_assoc.
    + left. discriminate.
Qed.

End RoundTrip.

(** C9: a usage record (a dict holds each key once) whose text form is
    written by [serialize_usage] is read back by [ast.literal_eval] as the
    same structure, zero counts included; and a log to which [run]
    appended one row per sample is read back by [deserialize_usage] as
    those samples, in order. *)
Theorem usage_round_trip
        (datetime : Type) (strptime : str -> result datetime)
        (stamp : str -> datetime) (usage : usage_record)
        (samples : list (str * usage_record))
        (Hwf : usage_wf usage)
        (Hsamples : Forall (fun s => is_token (fst s) = true /\
                                     strptime (fst s) = Ok (stamp (fst s)) /\
                                     usage_wf (snd s)) samples) :
  literal_eval (serialize_usage usage) = Ok (value_of_usage usage) /\
  deserialize_usage datetime strptime
    (Some (flat_map (fun s => log_row (fst s) (snd s)) samples))
  = Ok (map (fun s => (stamp (fst s), value_of_usage (snd s))) samples).
Proof.
  split; [now apply literal_eval_serialize_usage|].
  unfold deserialize_usage.
  assert (Hrows : forall data,
             deserialize_rows datetime strptime
               (splitlines []
                  (flat_map (fun s => log_row (fst s) (snd s)) samples)) data
             = Ok (data ++ map (fun s => (stamp (fst s),
                                          value_of_usage (snd s))) samples)).
  { induction Hsamples as [|[ts u] more [Htok [Hdt Hu]] Hmore IH];
      intros data.
    - cbn. now rewrite app_nil_r.
    - cbn [flat_map fst snd] in *. unfold log_row at 1.
      apply andb_true_iff in Htok. destruct Htok as [Hlen Hchars].
      assert (Hts : ts <> []).
      { intros ->. discriminate Hlen. }
      assert (Hbreak : no_break (ts ++ lit " " ++ serialize_usage u) = true).
      { rewrite !no_break_app, no_break_serialize_usage.
        change (no_break (lit " ")) with true. cbn [andb].
        rewrite andb_true_r. unfold no_break. apply forallb_forall.
        intros c Hc. rewrite forallb_forall in Hchars.
        specialize (Hchars c Hc). apply negb_true_iff in Hchars.
        apply negb_true_iff.
        destruct c as [[] [] [] [] [] [] [] []];
          try discriminate Hchars; reflexivity. }
      replace ((ts ++ lit " " ++ serialize_usage u ++ [newline])
               ++ flat_map (fun s => log_row (fst s) (snd s)) more)
        with ((ts ++ lit " " ++ serialize_usage u)
              ++ newline
              :: flat_map (fun s => log_row (fst s) (snd s)) more)
        by (now rewrite <- !app_assoc).
      rewrite (splitlines_row _ Hbreak). cbn [rev app deserialize_rows].
      change (ts ++ lit " " ++ serialize_usage u)
        with (ts ++ " "%char :: serialize_usage u).
      rewrite (split_first_row ts (serialize_usage u) Hchars);
        [|discriminate|reflexivity|now right].
      cbn [rev app]. rewrite Hdt. cbn [bind].
      rewrite (literal_eval_serialize_usage u Hu). cbn [bind].
      rewrite IH. cbn [map fst snd]. now rewrite <- app_assoc. }
  apply (Hrows []).
Qed.

Ltac distinct_keys :=
  repeat (apply NoDup_cons; [cbn; intuition discriminate|]);
  apply NoDup_nil.

Lemma usage_round_trip_witness :
  let usage :=
    [(lit "alice", [(lit "v100", [(lit "nodeA", 3%Z); (lit "nodeB", 0%Z)])]);
     (lit "bob", [])] in
  literal_eval (serialize_usage usage) = Ok (value_of_usage usage) /\
  deserialize_usage str (fun ts => Ok ts)
    (Some (log_row (lit "2020-01-01_00:00:00") usage
           ++ log_row (lit "2020-01-01_12:00:00") []))
  = Ok [(lit "2020-01-01_00:00:00", value_of_usage usage);
        (lit "2020-01-01_12:00:00", VDict [])].
Proof.
  cbv zeta.
  assert (Hwf : usage_wf
            [(lit "alice",
              [(lit "v100", [(lit "nodeA", 3%Z); (lit "nodeB", 0%Z)])]);
             (lit "bob", [])]).
  { unfold usage_wf, keys_unique.
    cbn [Dict.keys Dict.values map fst snd].
    split; [distinct_keys|].
    apply Forall_cons;
      [split; [distinct_keys
              |apply Forall_cons; [distinct_keys|apply Forall_nil]]|].
    apply Forall_cons; [split; [distinct_keys|apply Forall_nil]
                       |apply Forall_nil]. }
  assert (Hempty : usage_wf []).
  { unfold usage_wf, keys_unique. split; constructor. }
  pose proof (usage_round_trip str (fun ts => Ok ts) (fun ts => ts) _
                [(lit "2020-01-01_00:00:00",
                  [(lit "alice",
                    [(lit "v100",
                      [(lit "nodeA", 3%Z); (lit "nodeB", 0%Z)])]);
                   (lit "bob", [])]);
                 (lit "2020-01-01_12:00:00", [])]
                Hwf) as H.
  cbn [flat_map map fst snd app] in H. rewrite app_nil_r in H.
  apply H.
  apply Forall_cons; [split; [reflexivity|split; [reflexivity|exact Hwf]]|].
  apply Forall_cons; [split; [reflexivity|split; [reflexivity|exact Hempty]]|].
  apply Forall_nil.
Defined.

(** * Further properties *)

(** ** NodeRangeParser: names, groups and composition *)

Section ParserEdges.

#[local] Arguments Ascii.eqb : simpl never.

(** X1: a stripped expression without bracket or comma is one node name:
    the top-level split returns it as its only piece, and
    [parse_node_names] returns it unchanged as its only name. *)
Theorem parse_node_names_literal (name : str)
        (Hstrip : strip name = name)
        (Hplain : free_of (lit "[],") name = true) :
  split_node_str name = Ok [name] /\ parse_node_names name = Ok [name].
Proof.
  assert (Hsplit : split_node_str name = Ok [name]).
  { rewrite split_node_str_cut, Hstrip, top_commas_no_comma.
    - cbn [cut_at]. now rewrite slice_all.
    - apply (free_of_contains _ _ _ Hplain). reflexivity.
    - rewrite depth_after_plain; [discriminate| |];
        apply (free_of_contains _ _ _ Hplain); reflexivity. }
  split; [exact Hsplit|].
  unfold parse_node_names. rewrite Hsplit. cbn [bind expand_specs].
  rewrite (free_of_contains _ _ _ Hplain) by reflexivity. reflexivity.
Qed.

Lemma parse_node_names_literal_witness :
  parse_node_names (lit "gpu-node042") = Ok [lit "gpu-node042"].
Proof.
  apply (parse_node_names_literal (lit "gpu-node042")); reflexivity.
Defined.

(** X3: an empty bracket group is not an empty list of names: for a prefix
    without bracket or comma, "prefix[]" yields the one name [prefix]. *)
Theorem parse_node_names_empty_group (prefix : str)
        (Hstrip : lstrip prefix = prefix)
        (Hplain : free_of (lit "[],") prefix = true) :
  parse_node_names (prefix ++ lit "[]") = Ok [prefix].
Proof.
  change (prefix ++ lit "[]") with (prefix ++ "["%char :: [] ++ ["]"%char]).
  rewrite parse_node_names_single; auto.
  unfold expand_subspec. cbn [contains existsb negb]. now rewrite app_nil_r.
Qed.

Lemma parse_node_names_empty_group_witness :
  parse_node_names (lit "node[]") = Ok [lit "node"].
Proof.
  apply (parse_node_names_empty_group (lit "node")); reflexivity.
Defined.

Lemma range_length (a b : Z) : length (range a b) = Z.to_nat (b - a).
Proof. unfold range. now rewrite length_map, length_seq. Qed.

Lemma free_of_weaken (s : str) :
  free_of (lit "[],-") s = true -> free_of (lit "[],") s = true.
Proof.
  intros Hs. apply forallb_forall. intros c Hc.
  unfold free_of in Hs. rewrite forallb_forall in Hs.
  specialize (Hs c Hc). apply negb_true_iff in Hs.
  apply negb_true_iff. simpl in *.
  repeat (apply orb_false_iff in Hs; destruct Hs as [? Hs]).
  repeat (apply orb_false_iff; split); auto.
Qed.

(** X4: a range "prefix[start-end]" yields [int(end) - int(start) + 1]
    names when that is positive; a reversed range is no error and yields
    no name at all. *)
Theorem parse_node_names_range_count (prefix start end_ : str) (a b : Z)
        (Hstrip : lstrip prefix = prefix)
        (Hprefix : free_of (lit "[],") prefix = true)
        (Hstart : free_of (lit "[],-") start = true)
        (Hend : free_of (lit "[],-") end_ = true)
        (Ha : int start = Ok a) (Hb : int end_ = Ok b) :
  exists names,
    parse_node_names (prefix ++ lit "[" ++ start ++ lit "-" ++ end_ ++ lit "]")
    = Ok names /\
    length names = Z.to_nat (b - a + 1) /\
    ((b < a)%Z -> names = []).
Proof.
  exists (map (fun x => prefix ++ zfill (str_of_int x) (length start))
              (range a (b + 1))).
  split; [|split].
  - change (prefix ++ lit "[" ++ start ++ lit "-" ++ end_ ++ lit "]")
      with (prefix ++ "["%char :: start ++ "-"%char :: end_ ++ ["]"%char]).
    replace (start ++ "-"%char :: end_ ++ ["]"%char])
      with ((start ++ "-"%char :: end_) ++ ["]"%char])
      by (now rewrite <- app_assoc).
    rewrite parse_node_names_single; auto.
    + apply expand_subspec_range; auto.
      * apply (free_of_contains _ _ _ Hstart). reflexivity.
      * apply (free_of_contains _ _ _ Hend). reflexivity.
    + unfold free_of. rewrite forallb_app.
      apply andb_true_intro. split; [exact (free_of_weaken _ Hstart)|].
      exact (free_of_weaken _ Hend).
  - rewrite length_map, range_length. f_equal. lia.
  - intros Hlt. unfold range.
    replace (Z.to_nat (b + 1 - a)) with 0 by lia. reflexivity.
Qed.

Lemma parse_node_names_range_count_witness :
  exists names,
    parse_node_names (lit "n[5-3]") = Ok names /\
    length names = 0 /\ ((3 < 5)%Z -> names = []).
Proof.
  apply (parse_node_names_range_count (lit "n") (lit "5") (lit "3") 5%Z 3%Z);
    reflexivity.
Defined.

End ParserEdges.

Section ZeroFill.

Lemma zfill_length (s : str) (width : nat) :
  length (zfill s width) = Nat.max width (length s).
Proof.
  unfold zfill. destruct (Nat.leb_spec width (length s)) as [Hle|Hgt]; [lia|].
  destruct s as [|c r].
  - rewrite repeat_length. cbn [length]. lia.
  - destruct (Ascii.eqb c "+" || Ascii.eqb c "-");
      cbn [length]; rewrite length_app, repeat_length; cbn [length]; lia.
Qed.

Lemma digit_plain (c : ascii) :
  isdigit c = true ->
  int_space c = false /\ Ascii.eqb c "+" = false /\ Ascii.eqb c "-" = false.
Proof.
  destruct c as [[] [] [] [] [] [] [] []]; intros H;
    try discriminate H; repeat split.
Qed.

Lemma int_lstrip_digit (c : ascii) (r : str) :
  isdigit c = true -> int_lstrip (c :: r) = c :: r.
Proof.
  intros H. cbn [int_lstrip]. now rewrite (proj1 (digit_plain c H)).
Qed.

(** [int] reads a run of decimal digits as the number they write. *)
Lemma int_digits (d : N) (ds : list N) :
  Forall (fun x => (x < 10)%N) (d :: ds) ->
  int (map digit_char (d :: ds)) = Ok (digits_number (d :: ds) 0).
Proof.
  intros Hall. unfold int.
  assert (Hfirst : isdigit (digit_char d) = true).
  { inversion Hall; subst. now apply digit_char_spec. }
  cbn [map]. rewrite (int_lstrip_digit _ _ Hfirst).
  assert (Hrev : int_lstrip (rev (digit_char d :: map digit_char ds))
                 = rev (digit_char d :: map digit_char ds)).
  { change (digit_char d :: map digit_char ds)
      with (map digit_char (d :: ds)).
    rewrite <- map_rev.
    assert (Hall' : Forall (fun x => (x < 10)%N) (rev (d :: ds)))
      by (apply Forall_rev; exact Hall).
    destruct (rev (d :: ds)) as [|x xs] eqn:E.
    - apply (f_equal (@length N)) in E. rewrite length_rev in E.
      discriminate E.
    - cbn [map]. apply int_lstrip_digit.
      inversion Hall'; subst. now apply digit_char_spec. }
  rewrite Hrev, rev_involutive.
  destruct (digit_plain _ Hfirst) as [_ [Hplus Hminus]].
  rewrite Hplus, Hminus.
  change (digit_char d :: map digit_char ds) with (map digit_char (d :: ds)).
  rewrite (digits_value_digits _ Hall) by (left; discriminate).
  reflexivity.
Qed.

Lemma digits_number_zeros (k : nat) (ds : list N) :
  digits_number (repeat 0%N k ++ ds) 0 = digits_number ds 0.
Proof.
  unfold digits_number. rewrite fold_left_app. f_equal.
  induction k as [|k IH]; [reflexivity|]. exact IH.
Qed.

(** X5: the number part of a generated name, [str(x).zfill(width)] for
    [0 <= x], reads back as [x] and is [max(width, len(str(x)))]
    characters long: padding never truncates or changes a number wider
    than the start of its range. *)
Theorem zfill_keeps_number (x : Z) (width : nat) (Hx : (0 <= x)%Z) :
  int (zfill (str_of_int x) width) = Ok x /\
  length (zfill (str_of_int x) width)
  = Nat.max width (length (str_of_int x)).
Proof.
  split; [|apply zfill_length].
  assert (Hdigits : exists d ds,
             str_of_int x = map digit_char (d :: ds) /\
             Forall (fun y => (y < 10)%N) (d :: ds) /\
             digits_number (d :: ds) 0 = x).
  { destruct x as [|p|p]; [| |lia].
    - exists 0%N, []. repeat split. repeat constructor.
    - destruct (str_of_N_spec (Npos p)) as [d [ds [Heq [Hall [Hval _]]]]].
      exists d, ds. cbn [str_of_int]. rewrite Heq, Hval. auto. }
  destruct Hdigits as [d [ds [Heq [Hall Hval]]]].
  rewrite Heq. unfold zfill.
  destruct (width <=? length (map digit_char (d :: ds))).
  - now rewrite (int_digits d ds Hall), Hval.
  - cbn [map].
    assert (Hd : isdigit (digit_char d) = true).
    { inversion Hall; subst. now apply digit_char_spec. }
    destruct (digit_plain _ Hd) as [_ [-> ->]]. cbn [orb].
    set (k := width - length (digit_char d :: map digit_char ds)).
    change (digit_char d :: map digit_char ds)
      with (map digit_char (d :: ds)).
    replace (repeat "0"%char k) with (map digit_char (repeat 0%N k))
      by (rewrite map_repeat; reflexivity).
    rewrite <- map_app.
    assert (Hall' : Forall (fun y => (y < 10)%N) (repeat 0%N k ++ d :: ds)).
    { apply Forall_app. split; [|exact Hall].
      apply Forall_forall. intros y Hy. apply repeat_spec in Hy. now subst. }
    destruct (repeat 0%N k ++ d :: ds) as [|z zs] eqn:E.
    + destruct (repeat 0%N k); discriminate E.
    + rewrite (int_digits z zs Hall'), <- E, digits_number_zeros, Hval.
      reflexivity.
Qed.

Lemma zfill_keeps_number_witness :
  int (zfill (str_of_int 7) 3) = Ok 7%Z.
Proof. apply (zfill_keeps_number 7 3). lia. Defined.

End ZeroFill.

Section Unclosed.

#[local] Arguments Ascii.eqb : simpl never.

Lemma contains_lstrip (c : ascii) (s : str) :
  isspace c = false -> contains c (lstrip s) = contains c s.
Proof.
  intros Hc. induction s as [|x r IH]; [reflexivity|].
  cbn [lstrip]. destruct (isspace x) eqn:Hx; [|reflexivity].
  rewrite IH. cbn [contains existsb].
  destruct (Ascii.eqb c x) eqn:E; [|reflexivity].
  apply Ascii.eqb_eq in E. subst x. congruence.
Qed.

Lemma contains_rev (c : ascii) (s : str) :
  contains c (rev s) = contains c s.
Proof.
  unfold contains. destruct (existsb (Ascii.eqb c) s) eqn:E.
  - apply existsb_exists in E. destruct E as [x [Hin Hx]].
    apply existsb_exists. exists x. split; [|exact Hx].
    now apply in_rev in Hin.
  - apply not_true_is_false. intros H. apply existsb_exists in H.
    destruct H as [x [Hin Hx]]. apply in_rev in Hin.
    assert (existsb (Ascii.eqb c) s = true)
      by (apply existsb_exists; eauto).
    congruence.
Qed.

Lemma contains_strip (c : ascii) (s : str) :
  isspace c = false -> contains c (strip s) = contains c s.
Proof.
  intros Hc. unfold strip, rstrip.
  now rewrite contains_rev, (contains_lstrip _ _ Hc), contains_rev,
    (contains_lstrip _ _ Hc).
Qed.

Lemma depth_after_no_close (s : str) :
  forall d, contains "]" s = false -> depth_after d s <> None.
Proof.
  induction s as [|c r IH]; intros d Hc; [discriminate|].
  cbn [contains existsb] in Hc. apply orb_false_iff in Hc.
  destruct Hc as [Hc Hr]. rewrite Ascii.eqb_sym in Hc.
  cbn [depth_after]. rewrite Hc.
  destruct (Ascii.eqb c "["); now apply IH.
Qed.

Lemma contains_join (c : ascii) (parts : list str) :
  contains c (join (lit ",") parts) = true ->
  Ascii.eqb c "," = false ->
  Exists (fun p => contains c p = true) parts.
Proof.
  intros Hc Hcomma. induction parts as [|p ps IH]; [discriminate|].
  destruct ps as [|p' ps'].
  - constructor. exact Hc.
  - change (join (lit ",") (p :: p' :: ps'))
      with (p ++ ","%char :: join (lit ",") (p' :: ps')) in Hc.
    rewrite contains_app, contains_cons, Hcomma in Hc. cbn [orb] in Hc.
    apply orb_true_iff in Hc. destruct Hc as [Hc|Hc].
    + now constructor.
    + apply Exists_cons_tl. now apply IH.
Qed.

Lemma join_contains (c : ascii) (parts : list str) :
  contains c (join (lit ",") parts) = false ->
  Forall (fun p => contains c p = false) parts.
Proof.
  induction parts as [|p ps IH]; intros Hc; [constructor|].
  destruct ps as [|p' ps'].
  - repeat constructor. exact Hc.
  - change (join (lit ",") (p :: p' :: ps'))
      with (p ++ ","%char :: join (lit ",") (p' :: ps')) in Hc.
    rewrite contains_app, contains_cons in Hc.
    apply orb_false_iff in Hc. destruct Hc as [Hp Hc].
    apply orb_false_iff in Hc. destruct Hc as [_ Hc].
    constructor; [exact Hp|now apply IH].
Qed.

Lemma index_absent (c : ascii) (s : str) :
  contains c s = false -> index c s = Raise ValueError.
Proof.
  induction s as [|x r IH]; [reflexivity|].
  cbn [contains existsb index]. intros H. apply orb_false_iff in H.
  destruct H as [Hx Hr]. rewrite Ascii.eqb_sym, Hx, (IH Hr). reflexivity.
Qed.

Lemma index_present (c : ascii) (s : str) :
  contains c s = true -> exists i, index c s = Ok i.
Proof.
  induction s as [|x r IH]; [discriminate|].
  cbn [contains existsb index]. intros H.
  destruct (Ascii.eqb x c) eqn:E; [now exists 0|].
  rewrite Ascii.eqb_sym, E in H. cbn [orb] in H.
  destruct (IH H) as [i ->]. now exists (S i).
Qed.

Lemma expand_specs_unclosed (node_specs : list str) :
  Forall (fun p => contains "]" p = false) node_specs ->
  Exists (fun p => contains "[" p = true) node_specs ->
  forall names, expand_specs node_specs names = Raise ValueError.
Proof.
  intros Hclose Hopen.
  induction Hclose as [|p ps Hp Hps IH]; intros names;
    [inversion Hopen|].
  cbn [expand_specs]. destruct (contains "[" p) eqn:E; cbn [negb].
  - destruct (index_present _ _ E) as [i ->]. cbn [bind].
    now rewrite (index_absent _ _ Hp).
  - apply IH. inversion Hopen; subst; [congruence|assumption].
Qed.

(** X6: an expression with an opening bracket and no closing bracket
    passes the top-level split, and [parse_node_names] then fails with the
    ValueError of [node_spec.index("]")]. *)
Theorem parse_node_names_unclosed (node_str : str)
        (Hopen : contains "[" node_str = true)
        (Hclose : contains "]" node_str = false) :
  (exists node_specs, split_node_str node_str = Ok node_specs) /\
  parse_node_names node_str = Raise ValueError.
Proof.
  rewrite <- (contains_strip "[" node_str) in Hopen by reflexivity.
  rewrite <- (contains_strip "]" node_str) in Hclose by reflexivity.
  unfold parse_node_names. rewrite split_node_str_cut.
  destruct (top_commas 0 (strip node_str)) as [q|] eqn:Hq.
  - split; [eauto|]. cbn [bind].
    destruct (cut_at_well_split _ _ _ Hq) as [Hjoin _].
    apply expand_specs_unclosed.
    + apply join_contains. change (lit ",") with [","%char] in *.
      now rewrite Hjoin.
    + apply contains_join; [|reflexivity].
      change (lit ",") with [","%char] in *. now rewrite Hjoin.
  - apply top_commas_depth_after in Hq.
    now apply depth_after_no_close in Hq.
Qed.

Lemma parse_node_names_unclosed_witness :
  parse_node_names (lit "a[1,2") = Raise ValueError.
Proof. apply (parse_node_names_unclosed (lit "a[1,2")); reflexivity. Defined.

End Unclosed.

Section Concatenation.

#[local] Arguments Ascii.eqb : simpl never.

Lemma top_commas_bound (a : str) :
  forall d qa,
    top_commas d a = Some qa -> Forall (fun p => p < length a) qa.
Proof.
  induction a as [|c r IH]; intros d qa Hq; cbn [top_commas] in Hq.
  - inversion Hq. constructor.
  - assert (Hstep : forall d' q',
               top_commas d' r = Some q' ->
               Forall (fun p => p < length (c :: r)) (map S q')).
    { intros d' q' Hq'. apply Forall_map.
      apply Forall_impl with (P := fun p => p < length r);
        [cbn [length]; intros; lia|]. now apply (IH d'). }
    destruct (Ascii.eqb c "[").
    { destruct (top_commas (S d) r) as [q'|] eqn:E; [|discriminate].
      inversion Hq. now apply (Hstep (S d)). }
    destruct (Ascii.eqb c "]").
    { destruct d as [|d']; [discriminate|].
      destruct (top_commas d' r) as [q'|] eqn:E; [|discriminate].
      inversion Hq. now apply (Hstep d'). }
    destruct ((d =? 0) && Ascii.eqb c ",").
    { destruct (top_commas 0 r) as [q'|] eqn:E; [|discriminate].
      inversion Hq. constructor; [cbn [length]; lia|].
      now apply (Hstep 0). }
    destruct (top_commas d r) as [q'|] eqn:E; [|discriminate].
    inversion Hq. now apply (Hstep d).
Qed.

Lemma top_commas_concat (a b : str) (qb : list nat) :
  top_commas 0 b = Some qb ->
  forall d qa,
    top_commas d a = Some qa -> depth_after d a = Some 0 ->
    top_commas d (a ++ ","%char :: b)
    = Some (qa ++ length a :: map (fun p => S (length a + p)) qb).
Proof.
  intros Hb. induction a as [|c r IH]; intros d qa Hq Hd.
  - cbn [depth_after] in Hd. inversion Hd; subst d.
    cbn [top_commas] in Hq. inversion Hq; subst qa.
    cbn [app top_commas length].
    change (Ascii.eqb "," "[") with false.
    change (Ascii.eqb "," "]") with false.
    change ((0 =? 0) && Ascii.eqb "," ",") with true. cbv iota.
    rewrite Hb. reflexivity.
  - cbn [top_commas depth_after] in Hq, Hd. cbn [app top_commas].
    assert (Hstep : forall d' q',
               top_commas d' r = Some q' -> depth_after d' r = Some 0 ->
               option_map (map S) (top_commas d' (r ++ ","%char :: b))
               = Some (map S q' ++ length (c :: r)
                       :: map (fun p => S (length (c :: r) + p)) qb)).
    { intros d' q' Hq' Hd'. rewrite (IH d' q' Hq' Hd').
      cbn [option_map]. rewrite map_app. cbn [map length].
      now rewrite map_map. }
    destruct (Ascii.eqb c "[").
    { destruct (top_commas (S d) r) as [q'|] eqn:E; [|discriminate].
      inversion Hq; subst qa. now apply Hstep. }
    destruct (Ascii.eqb c "]").
    { destruct d as [|d']; [discriminate|].
      destruct (top_commas d' r) as [q'|] eqn:E; [|discriminate].
      inversion Hq; subst qa. now apply Hstep. }
    destruct ((d =? 0) && Ascii.eqb c ",") eqn:Hcomma.
    { destruct (top_commas 0 r) as [q'|] eqn:E; [|discriminate].
      inversion Hq; subst qa.
      apply andb_true_iff in Hcomma. destruct Hcomma as [Hd0 _].
      apply Nat.eqb_eq in Hd0. subst d.
      rewrite (IH 0 q' E Hd). cbn [option_map]. rewrite map_app.
      cbn [map length app]. now rewrite map_map. }
    destruct (top_commas d r) as [q'|] eqn:E; [|discriminate].
    inversion Hq; subst qa. now apply Hstep.
Qed.

Lemma slice_app_left (a x : str) (start p : nat) :
  p <= length a -> slice (a ++ x) start p = slice a start p.
Proof.
  intros Hp. unfold slice.
  destruct (Nat.le_gt_cases start (length a)) as [Hs|Hs].
  - rewrite skipn_app.
    replace (start - length a) with 0 by lia. cbn [skipn].
    rewrite firstn_app, length_skipn.
    replace (p - start - (length a - start)) with 0 by lia.
    cbn [firstn]. now rewrite app_nil_r.
  - replace (p - start) with 0 by lia. reflexivity.
Qed.

Lemma cut_at_suffix (pre b : str) (qb : list nat) :
  forall start,
    cut_at (pre ++ b) (length pre + start)
           (map (fun p => length pre + p) qb)
    = cut_at b start qb.
Proof.
  assert (Hslice : forall i j,
             slice (pre ++ b) (length pre + i) (length pre + j)
             = slice b i j).
  { intros i j. unfold slice.
    replace (length pre + j - (length pre + i)) with (j - i) by lia.
    rewrite skipn_app, skipn_all2 by lia.
    replace (length pre + i - length pre) with i by lia. reflexivity. }
  induction qb as [|p q IH]; intros start; cbn [map cut_at].
  - rewrite length_app. now rewrite Hslice.
  - rewrite Hslice. f_equal.
    replace (S (length pre + p)) with (length pre + S p) by lia. apply IH.
Qed.

Lemma cut_at_concat (a b : str) (qb : list nat) (qa : list nat) :
  Forall (fun p => p < length a) qa ->
  forall start,
    cut_at (a ++ ","%char :: b) start
           (qa ++ length a :: map (fun p => S (length a + p)) qb)
    = cut_at a start qa ++ cut_at b 0 qb.
Proof.
  induction 1 as [|p qa' Hp Hall IH]; intros start.
  - cbn [app cut_at]. rewrite slice_app_left by lia. f_equal.
    replace (a ++ ","%char :: b) with ((a ++ [","%char]) ++ b)
      by (now rewrite <- app_assoc).
    replace (S (length a)) with (length (a ++ [","%char]) + 0)
      by (rewrite length_app; cbn [length]; lia).
    replace (map (fun p => S (length a + p)) qb)
      with (map (fun p => length (a ++ [","%char]) + p) qb)
      by (apply map_ext; intros; rewrite length_app; cbn [length]; lia).
    apply cut_at_suffix.
  - cbn [app cut_at]. rewrite slice_app_left by lia. f_equal. apply IH.
Qed.

Lemma expand_subspecs_names (prefix : str) (subspecs : list str) :
  forall names,
    expand_subspecs prefix subspecs names =
    x <- expand_subspecs prefix subspecs [] ;; Ok (names ++ x).
Proof.
  induction subspecs as [|s r IH]; intros names; cbn [expand_subspecs bind].
  - now rewrite app_nil_r.
  - destruct (expand_subspec prefix s) as [sub|e]; cbn [bind]; [|reflexivity].
    rewrite (IH (names ++ sub)), (IH ([] ++ sub)).
    destruct (expand_subspecs prefix r []); cbn [bind app]; [|reflexivity].
    now rewrite app_assoc.
Qed.

Lemma expand_specs_names (node_specs : list str) :
  forall names,
    expand_specs node_specs names =
    x <- expand_specs node_specs [] ;; Ok (names ++ x).
Proof.
  induction node_specs as [|s r IH]; intros names; cbn [expand_specs bind].
  - now rewrite app_nil_r.
  - destruct (negb (contains "[" s)).
    + rewrite (IH (names ++ [s])), (IH ([] ++ [s])).
      destruct (expand_specs r []); cbn [bind app]; [|reflexivity].
      now rewrite <- app_assoc.
    + destruct (index "[" s) as [head|e]; cbn [bind]; [|reflexivity].
      destruct (index "]" s) as [tail|e]; cbn [bind]; [|reflexivity].
      rewrite (expand_subspecs_names _ _ names).
      destruct (expand_subspecs (firstn head s)
                  (split "," (slice s (head + 1) tail)) []) as [sub|e];
        cbn [bind]; [|reflexivity].
      cbn [app]. rewrite (IH (names ++ sub)), (IH sub).
      destruct (expand_specs r []); cbn [bind app]; [|reflexivity].
      now rewrite app_assoc.
Qed.

Lemma expand_specs_app (l1 l2 : list str) :
  expand_specs (l1 ++ l2) [] =
  x <- expand_specs l1 [] ;; y <- expand_specs l2 [] ;; Ok (x ++ y).
Proof.
  assert (G : forall names,
             expand_specs (l1 ++ l2) names =
             x <- expand_specs l1 names ;; expand_specs l2 x).
  { induction l1 as [|s r IH]; intros names; cbn [app expand_specs bind];
      [reflexivity|].
    destruct (negb (contains "[" s)); [apply IH|].
    destruct (index "[" s) as [head|e]; cbn [bind]; [|reflexivity].
    destruct (index "]" s) as [tail|e]; cbn [bind]; [|reflexivity].
    destruct (expand_subspecs (firstn head s)
                (split "," (slice s (head + 1) tail)) names); cbn [bind];
      [apply IH|reflexivity]. }
  rewrite G. destruct (expand_specs l1 []) as [x|e]; cbn [bind];
    [|reflexivity].
  apply expand_specs_names.
Qed.

Lemma lstrip_same_length (s : str) :
  length (lstrip s) = length s -> lstrip s = s.
Proof.
  destruct s as [|c r]; [reflexivity|]. cbn [lstrip].
  destruct (isspace c); [|reflexivity].
  intros H. pose proof (lstrip_length r). cbn [length] in H. lia.
Qed.

Lemma strip_fixed_parts (s : str) :
  strip s = s -> lstrip s = s /\ lstrip (rev s) = rev s.
Proof.
  intros H. unfold strip, rstrip in H.
  assert (L1 : length (lstrip s) <= length s) by apply lstrip_length.
  assert (L2 : length (lstrip (rev (lstrip s))) <= length (rev (lstrip s)))
    by apply lstrip_length.
  apply (f_equal (@length ascii)) in H as Hlen.
  rewrite length_rev in Hlen. rewrite length_rev in L2.
  assert (E1 : lstrip s = s) by (apply lstrip_same_length; lia).
  split; [exact E1|].
  rewrite E1 in Hlen. apply lstrip_same_length. now rewrite length_rev.
Qed.

Lemma lstrip_app_fixed (a b : str) (c : ascii) :
  lstrip a = a -> isspace c = false -> lstrip (a ++ c :: b) = a ++ c :: b.
Proof.
  intros Ha Hc. destruct a as [|x r].
  - cbn [app lstrip]. now rewrite Hc.
  - cbn [app lstrip]. now rewrite (lstrip_fixed_head x r Ha).
Qed.

Lemma strip_concat (a b : str) :
  strip a = a -> strip b = b ->
  strip (a ++ ","%char :: b) = a ++ ","%char :: b.
Proof.
  intros Ha Hb.
  destruct (strip_fixed_parts a Ha) as [Ha1 _].
  destruct (strip_fixed_parts b Hb) as [_ Hb2].
  unfold strip, rstrip.
  rewrite (lstrip_app_fixed a b ","%char Ha1 eq_refl).
  rewrite rev_app_distr. cbn [rev]. rewrite <- app_assoc. cbn [app].
  rewrite (lstrip_app_fixed (rev b) (rev a) ","%char Hb2 eq_refl).
  change (rev b ++ ","%char :: rev a) with (rev b ++ [","%char] ++ rev a).
  rewrite app_assoc, rev_app_distr, rev_involutive.
  rewrite rev_app_distr, rev_involutive. reflexivity.
Qed.

(** X2: for stripped expressions [a] and [b] that parse, [a] with balanced
    brackets, the pieces of "a,b" are the pieces of [a] followed by those
    of [b], and the names of "a,b" are the names of [a] followed by the
    names of [b]. *)
Theorem parse_node_names_concat (a b : str) (na nb : list str)
        (Hstrip_a : strip a = a) (Hstrip_b : strip b = b)
        (Hbalanced : depth_after 0 a = Some 0)
        (Ha : parse_node_names a = Ok na)
        (Hb : parse_node_names b = Ok nb) :
  (exists sa sb,
      split_node_str a = Ok sa /\ split_node_str b = Ok sb /\
      split_node_str (a ++ lit "," ++ b) = Ok (sa ++ sb)) /\
  parse_node_names (a ++ lit "," ++ b) = Ok (na ++ nb).
Proof.
  change (a ++ lit "," ++ b) with (a ++ ","%char :: b).
  unfold parse_node_names in *.
  rewrite split_node_str_cut, Hstrip_a in Ha.
  rewrite split_node_str_cut, Hstrip_b in Hb.
  rewrite !split_node_str_cut, Hstrip_a, Hstrip_b.
  rewrite (strip_concat a b Hstrip_a Hstrip_b).
  destruct (top_commas 0 a) as [qa|] eqn:Hqa; [|discriminate].
  destruct (top_commas 0 b) as [qb|] eqn:Hqb; [|discriminate].
  rewrite (top_commas_concat a b qb Hqb 0 qa Hqa Hbalanced).
  rewrite (cut_at_concat a b qb qa (top_commas_bound a 0 qa Hqa) 0).
  split; [eauto|].
  cbn [bind] in *. rewrite expand_specs_app, Ha. cbn [bind].
  rewrite Hb. reflexivity.
Qed.

Lemma parse_node_names_concat_witness :
  parse_node_names (lit "node[001-002]" ++ lit "," ++ lit "node004")
  = Ok ([lit "node001"; lit "node002"] ++ [lit "node004"]).
Proof.
  apply (parse_node_names_concat (lit "node[001-002]") (lit "node004")
           [lit "node001"; lit "node002"] [lit "node004"]);
    reflexivity.
Defined.

End Concatenation.

(** ** NodeRangeParser: a range among other subspecs *)

Section RangedSubspec.

Lemma index_contains (c : ascii) (s : str) (i : nat) :
  index c s = Ok i -> contains c s = true.
Proof.
  intros Hi. destruct (contains c s) eqn:E; [reflexivity|].
  rewrite (index_absent c s E) in Hi. discriminate.
Qed.

Lemma expand_subspecs_app (prefix : str) (l1 l2 : list str) :
  forall names,
    expand_subspecs prefix (l1 ++ l2) names =
    x <- expand_subspecs prefix l1 names ;; expand_subspecs prefix l2 x.
Proof.
  induction l1 as [|s r IH]; intros names;
    cbn [app expand_subspecs bind]; [reflexivity|].
  destruct (expand_subspec prefix s); cbn [bind]; [apply IH|reflexivity].
Qed.

(** The names of one bracket group in which a range stands between other
    subspecs. *)
Lemma expand_subspecs_range (prefix start end_ : str) (a b : Z)
      (subs_before subs_after group_before group_after : list str) :
  contains "-" start = false -> contains "-" end_ = false ->
  int start = Ok a -> int end_ = Ok b ->
  expand_subspecs prefix subs_before [] = Ok group_before ->
  expand_subspecs prefix subs_after [] = Ok group_after ->
  forall names,
    expand_subspecs prefix
      (subs_before ++ (start ++ "-"%char :: end_) :: subs_after) names
    = Ok (names ++ group_before
          ++ map (fun x => prefix ++ zfill (str_of_int x) (length start))
                 (range a (b + 1))
          ++ group_after).
Proof.
  intros Hstart Hend Ha Hb Hgb Hga names.
  rewrite expand_subspecs_app, expand_subspecs_names, Hgb. cbn [bind].
  cbn [expand_subspecs].
  rewrite (expand_subspec_range prefix start end_ a b Hstart Hend Ha Hb).
  cbn [bind]. rewrite expand_subspecs_names, Hga. cbn [bind].
  now rewrite <- !app_assoc.
Qed.

(** C7: every ranged subspec [start-end], wherever it stands in a bracket
    group of an expression whose other specs and subspecs expand, emits
    the prefix of its group followed by every integer from [int(start)] to
    [int(end)] inclusive, ascending, each zero-filled to the width of the
    digit string [start], between the names of what stands before it and
    the names of what stands after it; so "x[01-03]" gives "x01", "x02",
    "x03". *)
Theorem parse_node_names_range
        (node_str : str) (before after : list str) (node_spec : str)
        (head tail : nat) (subs_before subs_after : list str)
        (start end_ : str) (a b : Z)
        (names_before group_before group_after names_after : list str)
        (Hsplit : split_node_str node_str
                  = Ok (before ++ node_spec :: after))
        (Hhead : index "[" node_spec = Ok head)
        (Htail : index "]" node_spec = Ok tail)
        (Hsubs : split "," (slice node_spec (head + 1) tail)
                 = subs_before ++ (start ++ lit "-" ++ end_) :: subs_after)
        (Hstart : contains "-" start = false)
        (Hend : contains "-" end_ = false)
        (Ha : int start = Ok a) (Hb : int end_ = Ok b)
        (Hbefore : expand_specs before [] = Ok names_before)
        (Hgroup_before :
           expand_subspecs (firstn head node_spec) subs_before []
           = Ok group_before)
        (Hgroup_after :
           expand_subspecs (firstn head node_spec) subs_after []
           = Ok group_after)
        (Hafter : expand_specs after [] = Ok names_after) :
  parse_node_names node_str =
    Ok (names_before ++ group_before
        ++ map (fun x => firstn head node_spec
                         ++ zfill (str_of_int x) (length start))
               (range a (b + 1))
        ++ group_after ++ names_after) /\
  (forall x, In x (range a (b + 1)) <-> (a <= x <= b)%Z) /\
  StronglySorted Z.lt (range a (b + 1)) /\
  parse_node_names (lit "x[01-03]") = Ok [lit "x01"; lit "x02"; lit "x03"].
Proof.
  split; [|split; [|split; [apply range_sorted|reflexivity]]].
  2:{ intros x. rewrite range_in. lia. }
  unfold parse_node_names. rewrite Hsplit. cbn [bind].
  rewrite expand_specs_app, Hbefore. cbn [bind expand_specs].
  rewrite (index_contains _ _ _ Hhead), Hhead, Htail. cbn [negb bind].
  rewrite Hsubs.
  change (start ++ lit "-" ++ end_) with (start ++ "-"%char :: end_).
  rewrite (expand_subspecs_range (firstn head node_spec) start end_ a b
             subs_before subs_after group_before group_after
             Hstart Hend Ha Hb Hgroup_before Hgroup_after []).
  cbn [bind app]. rewrite expand_specs_names, Hafter. cbn [bind].
  now rewrite <- !app_assoc.
Qed.

End RangedSubspec.

Lemma parse_node_names_range_witness :
  parse_node_names (lit "a,n[1-3,07-09,x],b") =
  Ok ([lit "a"] ++ [lit "n1"; lit "n2"; lit "n3"]
      ++ map (fun x => firstn 1 (lit "n[1-3,07-09,x]")
                       ++ zfill (str_of_int x) (length (lit "07")))
             (range 7 (9 + 1))
      ++ [lit "nx"] ++ [lit "b"]).
Proof.
  apply (parse_node_names_range (lit "a,n[1-3,07-09,x],b")
           [lit "a"] [lit "b"] (lit "n[1-3,07-09,x]") 1 13
           [lit "1-3"] [lit "x"] (lit "07") (lit "09") 7%Z 9%Z
           [lit "a"] [lit "n1"; lit "n2"; lit "n3"] [lit "nx"] [lit "b"]);
    reflexivity.
Defined.

(** ** Dictionaries: lookup after assignment *)

Section DictFacts.

Context {V : Type}.

Lemma get_set_same (d : Dict.dict V) (k : str) (v : V) :
  Dict.get (Dict.set d k v) k = Some v.
Proof.
  induction d as [|[k' v'] r IH]; cbn [Dict.set Dict.get].
  - now rewrite str_eqb_refl.
  - destruct (str_eqb k' k) eqn:E; cbn [Dict.get]; rewrite E; auto.
Qed.

Lemma get_set_other (d : Dict.dict V) (k k' : str) (v : V) :
  k' <> k -> Dict.get (Dict.set d k v) k' = Dict.get d k'.
Proof.
  intros Hne. induction d as [|[k0 v0] r IH]; cbn [Dict.set Dict.get].
  - destruct (str_eqb k k') eqn:E; [|reflexivity].
    apply str_eqb_eq in E. congruence.
  - destruct (str_eqb k0 k) eqn:E; cbn [Dict.get].
    + apply str_eqb_eq in E. subst k0.
      destruct (str_eqb k k') eqn:E'; [|reflexivity].
      apply str_eqb_eq in E'. congruence.
    + now rewrite IH.
Qed.

Lemma keys_set (d : Dict.dict V) (k : str) (v : V) :
  Dict.keys (Dict.set d k v) =
  match Dict.get d k with
  | Some _ => Dict.keys d
  | None => Dict.keys d ++ [k]
  end.
Proof.
  induction d as [|[k' v'] r IH]; cbn [Dict.set Dict.get Dict.keys map fst];
    [reflexivity|].
  destruct (str_eqb k' k); [reflexivity|].
  cbn [map fst]. fold (Dict.keys (Dict.set r k v)). rewrite IH.
  destruct (Dict.get r k); reflexivity.
Qed.

Lemma get_none_keys (d : Dict.dict V) (k : str) :
  Dict.get d k = None <-> ~ In k (Dict.keys d).
Proof.
  induction d as [|[k' v'] r IH]; cbn [Dict.get Dict.keys map fst In].
  - tauto.
  - destruct (str_eqb k' k) eqn:E.
    + apply str_eqb_eq in E. subst. split; [discriminate|tauto].
    + rewrite IH. split; [|tauto].
      intros H [Heq|Hin]; [|tauto]. subst.
      rewrite str_eqb_refl in E. discriminate.
Qed.

(** Assignment keeps the keys of a dict distinct. *)
Lemma keys_unique_set (d : Dict.dict V) (k : str) (v : V) :
  keys_unique d -> keys_unique (Dict.set d k v).
Proof.
  unfold keys_unique. intros Hnd. rewrite keys_set.
  destruct (Dict.get d k) eqn:E; [exact Hnd|].
  apply get_none_keys in E.
  apply NoDup_rev in Hnd. rewrite <- (rev_involutive (Dict.keys d ++ [k])).
  apply NoDup_rev. rewrite rev_app_distr. cbn [rev app].
  constructor; [|exact Hnd]. now rewrite <- in_rev.
Qed.

End DictFacts.

Lemma sum_app (a b : list Z) : sum (a ++ b) = (sum a + sum b)%Z.
Proof.
  induction a as [|x r IH]; [reflexivity|].
  cbn [app]. rewrite !sum_cons, IH. lia.
Qed.

Lemma sum_values_set (d : Dict.dict Z) (k : str) (v : Z) :
  sum (Dict.values (Dict.set d k v))
  = (sum (Dict.values d) - Dict.get_default d k 0%Z + v)%Z.
Proof.
  unfold Dict.get_default.
  induction d as [|[k' v'] r IH]; cbn [Dict.set Dict.get Dict.values map snd].
  - rewrite sum_cons. unfold sum. cbn. lia.
  - destruct (str_eqb k' k); cbn [Dict.values map snd].
    + rewrite !sum_cons. lia.
    + rewrite !sum_cons. fold (Dict.values (Dict.set r k v)).
      fold (Dict.values r). rewrite IH. lia.
Qed.

(** ** InventoryBuilder and the summaries by type *)

Section ByType.

Lemma add_specs_get (h : heap) (specs : list addr) (t : str) :
  forall by_type,
    Dict.get_default (add_specs h specs by_type) t 0%Z =
    (Dict.get_default by_type t 0%Z
     + sum (map spec_count
                (filter (fun spec => str_eqb (spec_type spec) t)
                        (map (heap_get h) specs))))%Z.
Proof.
  induction specs as [|a rest IH]; intros by_type; cbn [add_specs map filter].
  - unfold sum. cbn. lia.
  - rewrite IH. unfold Dict.get_default at 1.
    destruct (str_eqb (spec_type (heap_get h a)) t) eqn:E.
    + apply str_eqb_eq in E. rewrite E, get_set_same.
      cbn [map]. rewrite sum_cons. unfold Dict.get_default. lia.
    + rewrite get_set_other.
      * unfold Dict.get_default. lia.
      * intros ->. now rewrite str_eqb_refl in E.
Qed.

Lemma add_specs_sum (h : heap) (specs : list addr) :
  forall by_type,
    sum (Dict.values (add_specs h specs by_type)) =
    (sum (Dict.values by_type)
     + sum (map spec_count (map (heap_get h) specs)))%Z.
Proof.
  induction specs as [|a rest IH]; intros by_type; cbn [add_specs map].
  - unfold sum at 3. cbn. lia.
  - rewrite IH, sum_values_set, sum_cons. lia.
Qed.

Lemma add_specs_keys (h : heap) (specs : list addr) :
  forall by_type,
    keys_unique by_type -> keys_unique (add_specs h specs by_type).
Proof.
  induction specs as [|a rest IH]; intros by_type Hk; cbn [add_specs];
    [exact Hk|].
  apply IH. now apply keys_unique_set.
Qed.

Lemma fold_add_specs (h : heap) (lists : list (list addr)) :
  forall by_type,
    fold_left (fun acc specs => add_specs h specs acc) lists by_type
    = add_specs h (concat lists) by_type.
Proof.
  induction lists as [|l r IH]; intros by_type; cbn [fold_left concat];
    [reflexivity|].
  rewrite IH. clear IH. revert by_type.
  induction l as [|a l' IHl]; intros by_type; [reflexivity|].
  cbn [app add_specs]. apply IHl.
Qed.

Lemma resource_by_type_totals_aux (h : heap) (resources : inventory) :
  (forall gpu_type,
      Dict.get_default (resource_by_type h resources) gpu_type 0%Z
      = type_total h resources gpu_type) /\
  sum (Dict.values (resource_by_type h resources))
  = sum (map spec_count (inventory_specs h resources)) /\
  keys_unique (resource_by_type h resources).
Proof.
  unfold resource_by_type, type_total, inventory_specs.
  rewrite fold_add_specs. split; [|split].
  - intros gpu_type. rewrite add_specs_get.
    change (Dict.get_default [] gpu_type 0%Z) with 0%Z. lia.
  - rewrite add_specs_sum.
    change (sum (Dict.values (@nil (str * Z)))) with 0%Z. lia.
  - apply add_specs_keys. constructor.
Qed.

(** X13: [resource_by_type] loses and invents nothing: the entry of a type
    is the sum of the counts of the records of that type over all nodes
    (zero when it has no entry), the entries add up to the sum of all
    counts, and no type has two entries. *)
Theorem resource_by_type_totals (h : heap) (resources : inventory)
        (gpu_type : str) :
  Dict.get_default (resource_by_type h resources) gpu_type 0%Z
  = type_total h resources gpu_type /\
  sum (Dict.values (resource_by_type h resources))
  = sum (map spec_count (inventory_specs h resources)) /\
  keys_unique (resource_by_type h resources).
Proof.
  destruct (resource_by_type_totals_aux h resources) as [H1 [H2 H3]].
  auto.
Qed.

Lemma sum_filter_le {A : Type} (f : A -> Z) (p : A -> bool) (l : list A) :
  Forall (fun x => (0 <= f x)%Z) l ->
  (sum (map f (filter p l)) <= sum (map f l))%Z.
Proof.
  induction 1 as [|x r Hx Hr IH]; [reflexivity|].
  cbn [filter map]. destruct (p x); cbn [map]; rewrite ?sum_cons; lia.
Qed.

Lemma sum_concat_filter_le (h : heap) (p : str * list addr -> bool)
      (resources : inventory) :
  Forall (fun a => (0 <= spec_count (heap_get h a))%Z)
         (concat (Dict.values resources)) ->
  (sum (map spec_count (inventory_specs h (filter p resources)))
   <= sum (map spec_count (inventory_specs h resources)))%Z.
Proof.
  unfold inventory_specs.
  induction resources as [|[k v] r IH]; intros Hpos; [reflexivity|].
  cbn [Dict.values map snd concat] in Hpos.
  apply Forall_app in Hpos. destruct Hpos as [Hv Hr].
  assert (Hvsum : (0 <= sum (map spec_count (map (heap_get h) v)))%Z).
  { apply sum_nonneg. rewrite map_map. apply Forall_map. exact Hv. }
  specialize (IH Hr). cbn [filter].
  destruct (p (k, v)); cbn [Dict.values map snd concat];
    fold (Dict.values r); rewrite ?map_app, ?sum_app;
    try fold (Dict.values (filter p r)); lia.
Qed.

(** X14: when no count is negative, the total over the accessible nodes
    (the "accessible" summary) is at most the total over all nodes (the
    "up" summary). *)
Theorem accessible_total_le_up (h : heap) (resources : inventory)
        (states : node_state_map)
        (Hcounts : Forall (fun a => (0 <= spec_count (heap_get h a))%Z)
                          (concat (Dict.values resources))) :
  (sum (Dict.values (resource_by_type h (accessible resources states)))
   <= sum (Dict.values (resource_by_type h resources)))%Z.
Proof.
  rewrite (proj1 (proj2 (resource_by_type_totals_aux h
                           (accessible resources states)))).
  rewrite (proj1 (proj2 (resource_by_type_totals_aux h resources))).
  now apply sum_concat_filter_le.
Qed.

End ByType.

Section InventoryRows.


Lemma append_specs_extends (node_names : list str) (gpu_type : str)
      (gpu_count : Z) :
  forall h resources,
    (exists ext,
        fst (append_specs node_names gpu_type gpu_count h resources)
        = h ++ ext) /\
    (forall node specs,
        Dict.get resources node = Some specs ->
        exists more,
          Dict.get
            (snd (append_specs node_names gpu_type gpu_count h resources))
            node
          = Some (specs ++ more)).
Proof.
  induction node_names as [|name rest IH]; intros h resources;
    cbn [append_specs].
  - split; [exists []; now rewrite app_nil_r|].
    intros node specs Hget. exists []. now rewrite app_nil_r.
  - destruct (IH (h ++ [mkSpec gpu_type gpu_count])
                (Dict.set resources name
                   (Dict.get_default resources name [] ++ [length h])))
      as [[ext Hext] Hkeep].
    split.
    + exists (mkSpec gpu_type gpu_count :: ext). rewrite Hext.
      now rewrite <- app_assoc.
    + intros node specs Hget.
      destruct (list_eq_dec ascii_dec node name) as [->|Hne].
      * destruct (Hkeep name (specs ++ [length h])) as [more Hmore].
        { rewrite get_set_same. unfold Dict.get_default.
          now rewrite Hget. }
        exists ([length h] ++ more). rewrite Hmore.
        now rewrite <- app_assoc.
      * apply Hkeep. now rewrite get_set_other.
Qed.

Lemma parse_resource_strs_extends (default_gpus : Z) (node_str : str)
      (resource_strs : list str) :
  forall h resources h' resources',
    parse_resource_strs default_gpus node_str resource_strs h resources
    = Ok (h', resources') ->
    (exists ext, h' = h ++ ext) /\
    (forall node specs,
        Dict.get resources node = Some specs ->
        exists more, Dict.get resources' node = Some (specs ++ more)).
Proof.
  induction resource_strs as [|resource_str rest IH];
    intros h resources h' resources' Hrun; cbn [parse_resource_strs] in Hrun.
  - inversion Hrun; subst. split; [exists []; now rewrite app_nil_r|].
    intros node specs Hget. exists []. now rewrite app_nil_r.
  - destruct (negb (startswith resource_str (lit "gpu")));
      [now apply (IH h resources)|].
    destruct (getitem_list (split ":" (strip resource_str)) 2)
      as [count_field|]; [|discriminate].
    cbn [bind] in Hrun.
    destruct (getitem_list (split ":" (strip resource_str)) 1)
      as [gpu_type|]; [|discriminate].
    cbn [bind] in Hrun.
    destruct (match count_field with
              | [] => Ok default_gpus
              | _ :: _ => int count_field
              end) as [gpu_count|]; [|discriminate].
    cbn [bind] in Hrun.
    destruct (parse_node_names node_str) as [node_names|]; [|discriminate].
    cbn [bind] in Hrun.
    destruct (append_specs_extends node_names gpu_type gpu_count h resources)
      as [[ext1 Hext1] Hkeep1].
    destruct (append_specs node_names gpu_type gpu_count h resources)
      as [h1 resources1]. cbn [fst snd] in *.
    destruct (IH h1 resources1 h' resources' Hrun) as [[ext2 Hext2] Hkeep2].
    split.
    + exists (ext1 ++ ext2). now rewrite Hext2, Hext1, <- app_assoc.
    + intros node specs Hget.
      destruct (Hkeep1 node specs Hget) as [more1 H1].
      destruct (Hkeep2 node _ H1) as [more2 H2].
      exists (more1 ++ more2). now rewrite H2, <- app_assoc.
Qed.

Lemma parse_gpu_rows_extends (default_gpus : Z) (rows : list str) :
  forall h resources h' resources',
    parse_gpu_rows default_gpus rows h resources = Ok (h', resources') ->
    (exists ext, h' = h ++ ext) /\
    (forall node specs,
        Dict.get resources node = Some specs ->
        exists more, Dict.get resources' node = Some (specs ++ more)).
Proof.
  induction rows as [|row rest IH];
    intros h resources h' resources' Hrun; cbn [parse_gpu_rows] in Hrun.
  - inversion Hrun; subst. split; [exists []; now rewrite app_nil_r|].
    intros node specs Hget. exists []. now rewrite app_nil_r.
  - destruct (split "|" row) as [|node_str [|resource_strs [|x l]]];
      try discriminate.
    destruct (parse_resource_strs default_gpus node_str
                (split "," resource_strs) h resources)
      as [[h1 resources1]|] eqn:Hrow; [|discriminate].
    cbn [bind fst snd] in Hrun.
    destruct (parse_resource_strs_extends _ _ _ _ _ _ _ Hrow)
      as [[ext1 Hext1] Hkeep1].
    destruct (IH h1 resources1 h' resources' Hrun) as [[ext2 Hext2] Hkeep2].
    split.
    + exists (ext1 ++ ext2). now rewrite Hext2, Hext1, <- app_assoc.
    + intros node specs Hget.
      destruct (Hkeep1 node specs Hget) as [more1 H1].
      destruct (Hkeep2 node _ H1) as [more2 H2].
      exists (more1 ++ more2). now rewrite H2, <- app_assoc.
Qed.

Lemma parse_gpu_rows_app (default_gpus : Z) (rows1 rows2 : list str) :
  forall h resources,
    parse_gpu_rows default_gpus (rows1 ++ rows2) h resources =
    hr <- parse_gpu_rows default_gpus rows1 h resources ;;
    parse_gpu_rows default_gpus rows2 (fst hr) (snd hr).
Proof.
  induction rows1 as [|row rest IH]; intros h resources;
    cbn [app parse_gpu_rows bind]; [reflexivity|].
  destruct (split "|" row) as [|node_str [|resource_strs [|x l]]];
    try reflexivity.
  destruct (parse_resource_strs default_gpus node_str
              (split "," resource_strs) h resources) as [hr|e];
    cbn [bind]; [apply IH|reflexivity].
Qed.

(** X11: rows of [sinfo] only add: with more rows after the same first rows,
    the store of records is extended at its end, the records already there
    are the same, and every node keeps the records it had, in order,
    before any new one. *)
Theorem parse_all_gpus_accumulates (default_gpus : Z)
        (earlier later : list str) (random : nat -> nat)
        (states_rows jobs : list str)
        (h0 h1 h2 : heap) (resources1 resources2 : inventory)
        (Hearlier :
           parse_all_gpus default_gpus
             (mkScheduler earlier states_rows jobs random) h0
           = Ok (h1, resources1))
        (Hall :
           parse_all_gpus default_gpus
             (mkScheduler (earlier ++ later) states_rows jobs random) h0
           = Ok (h2, resources2)) :
  (exists ext, h2 = h1 ++ ext) /\
  (forall node specs,
      Dict.get resources1 node = Some specs ->
      exists more, Dict.get resources2 node = Some (specs ++ more)) /\
  (forall a, a < length h1 -> heap_get h2 a = heap_get h1 a).
Proof.
  unfold parse_all_gpus in *. cbn [sinfo_gpus] in *.
  rewrite parse_gpu_rows_app, Hearlier in Hall. cbn [bind fst snd] in Hall.
  destruct (parse_gpu_rows_extends _ _ _ _ _ _ Hall) as [[ext Hext] Hkeep].
  split; [eauto|]. split; [exact Hkeep|].
  intros a Ha. subst h2. unfold heap_get. now apply app_nth1.
Qed.

Lemma parse_all_gpus_accumulates_witness :
  exists more,
    Dict.get [(lit "n1", [0; 1])] (lit "n1") = Some ([0] ++ more).
Proof.
  apply (parse_all_gpus_accumulates 4
           [lit "n1|gpu:v100:2"] [lit "n1|gpu:k80:"] (fun _ => 0) [] []
           [] [mkSpec (lit "v100") 2]
           [mkSpec (lit "v100") 2; mkSpec (lit "k80") 4]
           [(lit "n1", [0])] [(lit "n1", [0; 1])]);
    reflexivity.
Defined.

Lemma parse_resource_strs_skip (default_gpus : Z) (node_str : str)
      (skipped rest : list str) :
  forallb (fun s => negb (startswith s (lit "gpu"))) skipped = true ->
  forall h resources,
    parse_resource_strs default_gpus node_str (skipped ++ rest) h resources
    = parse_resource_strs default_gpus node_str rest h resources.
Proof.
  intros Hskip h resources. induction skipped as [|s r IH]; [reflexivity|].
  cbn [forallb] in Hskip. apply andb_true_iff in Hskip.
  destruct Hskip as [Hs Hr]. cbn [app parse_resource_strs].
  rewrite Hs. now apply IH.
Qed.

(** X12: a resource token that starts with "gpu" but has fewer than three
    colon-separated fields (such as "gpu:4"), the tokens before it not
    starting with "gpu", makes [parse_all_gpus] fail with IndexError on the
    first row. *)
Theorem parse_all_gpus_untyped_token (default_gpus : Z) (sched : scheduler)
        (h : heap) (row : str) (rows : list str)
        (node_str resource_strs token : str) (skipped more : list str)
        (Hrows : sinfo_gpus sched = row :: rows)
        (Hrow : split "|" row = [node_str; resource_strs])
        (Htokens : split "," resource_strs = skipped ++ token :: more)
        (Hskipped : forallb (fun s => negb (startswith s (lit "gpu")))
                            skipped = true)
        (Hgpu : startswith token (lit "gpu") = true)
        (Hfields : length (split ":" (strip token)) < 3) :
  parse_all_gpus default_gpus sched h = Raise IndexError.
Proof.
  unfold parse_all_gpus. rewrite Hrows. cbn [parse_gpu_rows].
  rewrite Hrow, Htokens, (parse_resource_strs_skip _ _ _ _ Hskipped).
  cbn [parse_resource_strs]. rewrite Hgpu. cbn [negb].
  unfold getitem_list at 1.
  replace (nth_error (split ":" (strip token)) 2) with (@None str)
    by (symmetry; apply nth_error_None; lia).
  reflexivity.
Qed.

Lemma parse_all_gpus_untyped_token_witness :
  parse_all_gpus 4
    (mkScheduler [lit "node1|(null),gpu:4"] [] [] (fun _ => 0)) []
  = Raise IndexError.
Proof.
  apply (parse_all_gpus_untyped_token 4 _ [] (lit "node1|(null),gpu:4") []
           (lit "node1") (lit "(null),gpu:4") (lit "gpu:4")
           [lit "(null)"] []);
    try reflexivity.
  change (2 < 3). lia.
Defined.

(** X15: the mapping of accessible nodes has no entry for a node whose
    state, "down" when [sinfo] gave none, is in INACCESSIBLE, and the very
    list of records of the original mapping for any other node. *)
Theorem accessible_get_state (resources : inventory)
        (states : node_state_map) (node : str) :
  Dict.get (accessible resources states) node =
  if in_set (Dict.get_default states node (lit "down")) INACCESSIBLE
  then None
  else Dict.get resources node.
Proof.
  destruct (in_set (Dict.get_default states node (lit "down")) INACCESSIBLE)
    eqn:Hstate.
  - apply accessible_get_none. now rewrite Hstate.
  - unfold accessible.
    induction resources as [|[key val] rest IH]; [reflexivity|].
    cbn [filter fst Dict.get].
    destruct (str_eqb key node) eqn:E.
    + apply str_eqb_eq in E. subst key. rewrite Hstate.
      cbn [negb Dict.get]. now rewrite str_eqb_refl.
    + destruct (negb (in_set (Dict.get_default states key (lit "down"))
                             INACCESSIBLE)); [|exact IH].
      cbn [Dict.get]. now rewrite E.
Qed.

End InventoryRows.

(** ** UsageAggregator: what the record holds *)

Section UsageRecord.

Lemma get_default_set_same {V : Type} (d : Dict.dict V) (k : str)
      (v default : V) :
  Dict.get_default (Dict.set d k v) k default = v.
Proof. unfold Dict.get_default. now rewrite get_set_same. Qed.

Lemma get_default_set_other {V : Type} (d : Dict.dict V) (k k' : str)
      (v default : V) :
  k' <> k ->
  Dict.get_default (Dict.set d k v) k' default = Dict.get_default d k' default.
Proof. intros H. unfold Dict.get_default. now rewrite get_set_other. Qed.

(** X16: one allocation adds [num_gpus] to the count of its
    (user, type, node) entry, a missing entry counting as zero, and leaves
    the count of every other entry as it was. *)
Theorem add_usage_count (usage : usage_record)
        (user gpu_type node_name : str) (num_gpus : Z)
        (user' gpu_type' node_name' : str) :
  usage_count (add_usage usage user gpu_type node_name num_gpus)
              user' gpu_type' node_name' =
  if str_eqb user' user && str_eqb gpu_type' gpu_type
     && str_eqb node_name' node_name
  then (usage_count usage user gpu_type node_name + num_gpus)%Z
  else usage_count usage user' gpu_type' node_name'.
Proof.
  unfold usage_count, add_usage.
  destruct (str_eqb user' user) eqn:Eu.
  - apply str_eqb_eq in Eu. subst user'. rewrite get_default_set_same.
    destruct (str_eqb gpu_type' gpu_type) eqn:Et.
    + apply str_eqb_eq in Et. subst gpu_type'. rewrite get_default_set_same.
      destruct (str_eqb node_name' node_name) eqn:En; cbn [andb].
      * apply str_eqb_eq in En. subst node_name'.
        now rewrite get_default_set_same.
      * rewrite get_default_set_other; [reflexivity|].
        intros ->. now rewrite str_eqb_refl in En.
    + cbn [andb]. rewrite get_default_set_other; [reflexivity|].
      intros ->. now rewrite str_eqb_refl in Et.
  - cbn [andb]. rewrite get_default_set_other; [reflexivity|].
    intros ->. now rewrite str_eqb_refl in Eu.
Qed.

Lemma values_set_Forall {V : Type} (P : V -> Prop) (d : Dict.dict V)
      (k : str) (v : V) :
  Forall P (Dict.values d) -> P v -> Forall P (Dict.values (Dict.set d k v)).
Proof.
  intros Hall Hv. induction d as [|[k' v'] r IH];
    cbn [Dict.set Dict.values map snd].
  - repeat constructor. exact Hv.
  - cbn [Dict.values map snd] in Hall. inversion Hall; subst.
    destruct (str_eqb k' k); cbn [map snd]; constructor; auto.
Qed.

Lemma get_default_Forall {V : Type} (P : V -> Prop) (d : Dict.dict V)
      (k : str) (default : V) :
  Forall P (Dict.values d) -> P default -> P (Dict.get_default d k default).
Proof.
  intros Hall Hd. unfold Dict.get_default.
  destruct (Dict.get d k) as [v|] eqn:E; [|exact Hd].
  apply get_in in E. rewrite Forall_forall in Hall. apply Hall.
  unfold Dict.values. apply in_map_iff. now exists (k, v).
Qed.

Lemma add_usage_wf (usage : usage_record) (user gpu_type node_name : str)
      (num_gpus : Z) :
  usage_wf usage ->
  usage_wf (add_usage usage user gpu_type node_name num_gpus).
Proof.
  intros [Hk Hv]. unfold add_usage.
  assert (Hbt : keys_unique (Dict.get_default usage user []) /\
                Forall keys_unique
                       (Dict.values (Dict.get_default usage user []))).
  { apply (get_default_Forall
             (fun by_type => keys_unique by_type /\
                             Forall keys_unique (Dict.values by_type)));
      [exact Hv|]. split; constructor. }
  destruct Hbt as [Hbk Hbv].
  assert (Hbn : keys_unique
                  (Dict.get_default (Dict.get_default usage user [])
                                    gpu_type [])).
  { apply (get_default_Forall keys_unique); [exact Hbv|constructor]. }
  split; [now apply keys_unique_set|].
  apply values_set_Forall; [exact Hv|].
  split; [now apply keys_unique_set|].
  apply values_set_Forall; [exact Hbv|]. now apply keys_unique_set.
Qed.

Lemma gpu_usage_node_usage (sched : scheduler) (h : heap)
      (kind : mapping_kind) (user : str) (num_gpus : Z) (node_name : str)
      (st st' : usage_state) :
  gpu_usage_node sched h kind user num_gpus node_name st = Ok st' ->
  exists gpu_type,
    st_usage st' = add_usage (st_usage st) user gpu_type node_name num_gpus /\
    st_gpu_type st' = TypeName gpu_type.
Proof.
  unfold gpu_usage_node.
  destruct (getitem_resources kind (st_resources st) node_name)
    as [[specs resources]|]; [|discriminate].
  cbn [bind].
  destruct (match st_gpu_type st with
            | Unbound => Raise UnboundLocalError
            | PyNone => _
            | TypeName gpu_type => _
            end) as [[[gpu_type out] draws]|]; [|discriminate].
  cbn [bind]. intros H. inversion H; subst. cbn [st_usage st_gpu_type].
  eauto.
Qed.

Lemma sum_map_values_set {V : Type} (f : V -> Z) (d : Dict.dict V)
      (k : str) (v default : V) :
  f default = 0%Z ->
  sum (map f (Dict.values (Dict.set d k v)))
  = (sum (map f (Dict.values d)) - f (Dict.get_default d k default) + f v)%Z.
Proof.
  intros Hd. unfold Dict.get_default.
  induction d as [|[k' v'] r IH]; cbn [Dict.set Dict.get Dict.values map snd].
  - rewrite sum_cons, Hd. unfold sum. cbn. lia.
  - destruct (str_eqb k' k); cbn [Dict.values map snd].
    + rewrite !sum_cons. lia.
    + rewrite !sum_cons. fold (Dict.values (Dict.set r k v)).
      fold (Dict.values r). rewrite IH. lia.
Qed.

Let nodes_total (by_node : Dict.dict Z) : Z := sum (Dict.values by_node).

Let types_total (by_type : Dict.dict (Dict.dict Z)) : Z :=
  sum (map nodes_total (Dict.values by_type)).

Lemma usage_total_nested (usage : usage_record) :
  usage_total usage = sum (map types_total (Dict.values usage)).
Proof.
  unfold usage_total, usage_triples.
  induction usage as [|[user by_type] rest IH]; [reflexivity|].
  cbn [flat_map Dict.values map snd fst]. rewrite map_app, sum_app, sum_cons.
  fold (Dict.values rest). rewrite IH. f_equal.
  unfold types_total. clear IH.
  induction by_type as [|[t by_node] more IHt]; [reflexivity|].
  cbn [flat_map Dict.values map snd fst]. rewrite map_app, sum_app, sum_cons.
  fold (Dict.values more). rewrite IHt. f_equal.
  unfold nodes_total. rewrite map_map. reflexivity.
Qed.

Lemma add_usage_total (usage : usage_record) (user gpu_type node_name : str)
      (num_gpus : Z) :
  usage_total (add_usage usage user gpu_type node_name num_gpus)
  = (usage_total usage + num_gpus)%Z.
Proof.
  rewrite !usage_total_nested. unfold add_usage.
  rewrite (sum_map_values_set types_total usage user _ []) by reflexivity.
  unfold types_total at 3.
  rewrite (sum_map_values_set nodes_total _ gpu_type _ []) by reflexivity.
  unfold nodes_total at 3. rewrite sum_values_set.
  fold (nodes_total
          (Dict.get_default (Dict.get_default usage user []) gpu_type [])).
  fold (types_total (Dict.get_default usage user [])). lia.
Qed.

Lemma gpu_usage_nodes_state (sched : scheduler) (h : heap)
      (kind : mapping_kind) (user : str) (num_gpus : Z)
      (node_names : list str) :
  forall st st',
    gpu_usage_nodes sched h kind user num_gpus node_names st = Ok st' ->
    (usage_wf (st_usage st) -> usage_wf (st_usage st')) /\
    usage_total (st_usage st')
    = (usage_total (st_usage st)
       + num_gpus * Z.of_nat (length node_names))%Z.
Proof.
  induction node_names as [|node rest IH]; intros st st' Hrun;
    cbn [gpu_usage_nodes] in Hrun.
  - inversion Hrun; subst. split; [auto|cbn [length]; lia].
  - destruct (gpu_usage_node sched h kind user num_gpus node st)
      as [st1|] eqn:Hnode; [|discriminate].
    cbn [bind] in Hrun.
    destruct (gpu_usage_node_usage _ _ _ _ _ _ _ _ Hnode) as [t [Hu _]].
    destruct (IH st1 st' Hrun) as [Hwf Htotal]. split.
    + intros H. apply Hwf. rewrite Hu. now apply add_usage_wf.
    + rewrite Htotal, Hu, add_usage_total. cbn [length]. lia.
Qed.

(** X17: a row that is processed without error adds its GPU count once for
    each node name of its node list to the sum of all counts of the usage
    record: the count of a job is charged in full to each of its nodes. *)
Theorem gpu_usage_nodes_charge (sched : scheduler) (h : heap)
        (kind : mapping_kind) (user : str) (num_gpus : Z)
        (node_names : list str) (st st' : usage_state)
        (Hrun : gpu_usage_nodes sched h kind user num_gpus node_names st
                = Ok st') :
  usage_total (st_usage st')
  = (usage_total (st_usage st) + num_gpus * Z.of_nat (length node_names))%Z.
Proof. now apply (gpu_usage_nodes_state sched h kind user num_gpus node_names). Qed.

Lemma gpu_usage_row_wf (sched : scheduler) (h : heap) (kind : mapping_kind)
      (row : str) (st st' : usage_state) :
  gpu_usage_row sched h kind row st = Ok st' ->
  usage_wf (st_usage st) -> usage_wf (st_usage st').
Proof.
  unfold gpu_usage_row.
  destruct ((length (split_whitespace [] row) <? 3)
            || negb (startswith (nth 0 (split_whitespace [] row) [])
                                (lit "gpu"))).
  - intros H. now inversion H.
  - destruct (split_whitespace [] row) as [|tok [|node_str [|user [|x l]]]];
      try discriminate.
    destruct (last_item (split ":" tok)) as [cf|]; [|discriminate].
    cbn [bind]. destruct (int cf) as [n|]; [|discriminate].
    cbn [bind].
    destruct (parse_node_names node_str) as [names|]; [|discriminate].
    cbn [bind]. intros Hrun Hwf.
    now apply (proj1 (gpu_usage_nodes_state _ _ _ _ _ _ _ _ Hrun)).
Qed.

Lemma gpu_usage_rows_wf (sched : scheduler) (h : heap) (kind : mapping_kind)
      (rows : list str) :
  forall st st',
    gpu_usage_rows sched h kind rows st = Ok st' ->
    usage_wf (st_usage st) -> usage_wf (st_usage st').
Proof.
  induction rows as [|row rest IH]; intros st st' Hrun Hwf;
    cbn [gpu_usage_rows] in Hrun.
  - now inversion Hrun; subst.
  - destruct (gpu_usage_row sched h kind row st) as [st1|] eqn:Hrow;
      [|discriminate].
    cbn [bind] in Hrun. apply (IH st1 st' Hrun).
    now apply (gpu_usage_row_wf _ _ _ _ _ _ Hrow).
Qed.

Lemma gpu_usage_wf (sched : scheduler) (h : heap) (kind : mapping_kind)
      (resources : inventory) (out : list str) (draws : nat)
      (st : usage_state) :
  gpu_usage sched h kind resources out draws = Ok st ->
  usage_wf (st_usage st).
Proof.
  unfold gpu_usage. intros Hrun.
  apply (gpu_usage_rows_wf _ _ _ _ _ _ Hrun).
  split; constructor.
Qed.

End UsageRecord.

Section UsageErrors.

(** X18: whatever [squeue] printed, a usage record that [gpu_usage] returns
    has no duplicate key at any level, and its serialization is read back
    by [ast.literal_eval] as the same record. *)
Theorem gpu_usage_round_trips (sched : scheduler) (h : heap)
        (kind : mapping_kind) (resources : inventory) (out : list str)
        (draws : nat) (st : usage_state)
        (Hrun : gpu_usage sched h kind resources out draws = Ok st) :
  usage_wf (st_usage st) /\
  literal_eval (serialize_usage (st_usage st))
  = Ok (value_of_usage (st_usage st)).
Proof.
  pose proof (gpu_usage_wf _ _ _ _ _ _ _ Hrun) as Hwf.
  split; [exact Hwf|]. now apply literal_eval_serialize_usage.
Qed.

Lemma gpu_usage_round_trips_witness :
  usage_wf
    [(lit "alice", [(lit "v100", [(lit "n1", 2%Z); (lit "n2", 2%Z)])]);
     (lit "bob", [(lit "v100", [(lit "n1", 1%Z)])])].
Proof.
  apply (gpu_usage_round_trips
           (mkScheduler [] []
              [lit "gpu:v100:2 n[1-2] alice"; lit "gpu:v100:1 n1 bob"]
              (fun _ => 0))
           [mkSpec (lit "v100") 4; mkSpec (lit "v100") 4] PlainDict
           [(lit "n1", [0]); (lit "n2", [1])] [] 0
           (mkUsageState [(lit "n1", [0]); (lit "n2", [1])]
              [(lit "alice",
                [(lit "v100", [(lit "n1", 2%Z); (lit "n2", 2%Z)])]);
               (lit "bob", [(lit "v100", [(lit "n1", 1%Z)])])]
              (TypeName (lit "v100")) [] 0)).
  reflexivity.
Defined.

Lemma gpu_usage_node_plain (sched : scheduler) (h : heap) (user : str)
      (num_gpus : Z) (node_name : str) (st st' : usage_state) :
  gpu_usage_node sched h PlainDict user num_gpus node_name st = Ok st' ->
  st_resources st' = st_resources st /\
  Dict.get (st_resources st) node_name <> None.
Proof.
  unfold gpu_usage_node, getitem_resources.
  destruct (Dict.get (st_resources st) node_name) as [specs|];
    [|discriminate].
  cbn [bind].
  destruct (match st_gpu_type st with
            | Unbound => Raise UnboundLocalError
            | PyNone => _
            | TypeName gpu_type => _
            end) as [[[gpu_type out] draws]|]; [|discriminate].
  cbn [bind]. intros H. inversion H; subst. cbn [st_resources].
  split; [reflexivity|discriminate].
Qed.

Lemma gpu_usage_nodes_plain (sched : scheduler) (h : heap) (user : str)
      (num_gpus : Z) (node_names : list str) :
  forall st st',
    gpu_usage_nodes sched h PlainDict user num_gpus node_names st = Ok st' ->
    st_resources st' = st_resources st.
Proof.
  induction node_names as [|node rest IH]; intros st st' Hrun;
    cbn [gpu_usage_nodes] in Hrun.
  - now inversion Hrun.
  - destruct (gpu_usage_node sched h PlainDict user num_gpus node st)
      as [st1|] eqn:Hnode; [|discriminate].
    cbn [bind] in Hrun. rewrite (IH st1 st' Hrun).
    now apply (gpu_usage_node_plain _ _ _ _ _ _ _ Hnode).
Qed.

Lemma gpu_usage_row_plain (sched : scheduler) (h : heap) (row : str)
      (st st' : usage_state) :
  gpu_usage_row sched h PlainDict row st = Ok st' ->
  st_resources st' = st_resources st.
Proof.
  unfold gpu_usage_row.
  destruct ((length (split_whitespace [] row) <? 3)
            || negb (startswith (nth 0 (split_whitespace [] row) [])
                                (lit "gpu"))).
  - intros H. now inversion H.
  - destruct (split_whitespace [] row) as [|tok [|node_str [|user [|x l]]]];
      try discriminate.
    destruct (last_item (split ":" tok)) as [cf|]; [|discriminate].
    cbn [bind]. destruct (int cf) as [n|]; [|discriminate].
    cbn [bind].
    destruct (parse_node_names node_str) as [names|]; [|discriminate].
    cbn [bind]. intros Hrun.
    now rewrite (gpu_usage_nodes_plain _ _ _ _ _ _ _ Hrun).
Qed.

Lemma gpu_usage_rows_plain (sched : scheduler) (h : heap)
      (rows : list str) :
  forall st st',
    gpu_usage_rows sched h PlainDict rows st = Ok st' ->
    st_resources st' = st_resources st.
Proof.
  induction rows as [|row rest IH]; intros st st' Hrun;
    cbn [gpu_usage_rows] in Hrun.
  - now inversion Hrun.
  - destruct (gpu_usage_row sched h PlainDict row st) as [st1|] eqn:Hrow;
      [|discriminate].
    cbn [bind] in Hrun. rewrite (IH st1 st' Hrun).
    now apply (gpu_usage_row_plain _ _ _ _ _ Hrow).
Qed.

Lemma gpu_usage_rows_app (sched : scheduler) (h : heap)
      (kind : mapping_kind) (rows1 rows2 : list str) :
  forall st,
    gpu_usage_rows sched h kind (rows1 ++ rows2) st =
    st' <- gpu_usage_rows sched h kind rows1 st ;;
    gpu_usage_rows sched h kind rows2 st'.
Proof.
  induction rows1 as [|row rest IH]; intros st;
    cbn [app gpu_usage_rows bind]; [reflexivity|].
  destruct (gpu_usage_row sched h kind row st); cbn [bind];
    [apply IH|reflexivity].
Qed.

(** X19: when [squeue] lists a GPU job whose first node has an inaccessible
    state (or none), the rows before it being processed without error,
    [available] fails with KeyError: the usage is gathered against the
    plain mapping of the accessible nodes. *)
Theorem available_job_on_inaccessible_node
        (sched : scheduler) (resources : inventory)
        (states : node_state_map) (h : heap)
        (before after : list str) (row token node_str user : str)
        (count_field : str) (num_gpus : Z) (node : str) (more : list str)
        (st : usage_state)
        (Hjobs : squeue_jobs sched = before ++ row :: after)
        (Hbefore :
           gpu_usage_rows sched h PlainDict before
             (mkUsageState (accessible resources states) [] Unbound [] 0)
           = Ok st)
        (Hrow : split_whitespace [] row = [token; node_str; user])
        (Hgpu : startswith token (lit "gpu") = true)
        (Hfield : last_item (split ":" token) = Ok count_field)
        (Hcount : int count_field = Ok num_gpus)
        (Hnodes : parse_node_names node_str = Ok (node :: more))
        (Hstate : in_set (Dict.get_default states node (lit "down"))
                         INACCESSIBLE = true) :
  available_from sched resources states h = Raise KeyError.
Proof.
  unfold available_from, gpu_usage.
  rewrite Hjobs, gpu_usage_rows_app, Hbefore. cbn [bind gpu_usage_rows].
  unfold gpu_usage_row. rewrite Hrow. cbn [length nth Nat.ltb Nat.leb].
  rewrite Hgpu. cbn [negb orb]. rewrite Hfield. cbn [bind].
  rewrite Hcount. cbn [bind]. rewrite Hnodes. cbn [bind gpu_usage_nodes].
  unfold gpu_usage_node at 1. cbn [st_resources].
  rewrite (gpu_usage_rows_plain _ _ _ _ _ Hbefore). cbn [st_resources].
  unfold getitem_resources.
  rewrite accessible_get_none by (now rewrite Hstate).
  reflexivity.
Qed.

Lemma available_job_on_inaccessible_node_witness :
  available_from
    (mkScheduler [] [] [lit "gpu:v100:1 n1 alice"; lit "gpu:v100:2 n2 bob"]
                 (fun _ => 0))
    [(lit "n1", [0]); (lit "n2", [1])]
    [(lit "n1", lit "mix"); (lit "n2", lit "drng")]
    [mkSpec (lit "v100") 4; mkSpec (lit "v100") 4]
  = Raise KeyError.
Proof.
  apply (available_job_on_inaccessible_node _ _ _ _
           [lit "gpu:v100:1 n1 alice"] [] (lit "gpu:v100:2 n2 bob")
           (lit "gpu:v100:2") (lit "n2") (lit "bob") (lit "2") 2
           (lit "n2") []
           (mkUsageState [(lit "n1", [0])]
              [(lit "alice", [(lit "v100", [(lit "n1", 1%Z)])])]
              (TypeName (lit "v100")) [] 0));
    reflexivity.
Defined.

End UsageErrors.

(** ** AvailabilityEstimator: bounds, failures and repeated runs *)

Section EstimatorBounds.

Lemma set_count_beyond (h : heap) :
  forall a count, length h <= a -> set_count h a count = h.
Proof.
  induction h as [|x r IH]; intros [|a] count Hlen; cbn [set_count length] in *;
    try reflexivity; try lia.
  f_equal. apply IH. lia.
Qed.

Lemma set_count_get (h : heap) (a a' : addr) (count : Z) :
  spec_count (heap_get (set_count h a count) a') =
  if (a' =? a) && (a <? length h) then count
  else spec_count (heap_get h a').
Proof.
  destruct (Nat.eqb_spec a' a) as [->|Hne]; cbn [andb].
  - destruct (Nat.ltb_spec a (length h)) as [Hlt|Hge].
    + now apply set_count_same.
    + now rewrite set_count_beyond.
  - now rewrite set_count_other.
Qed.

Lemma subtract_triples_bounds (res : inventory)
      (triples : list (str * str * Z)) :
  forall h h',
    subtract_triples res triples h = Ok h' ->
    (forall a, (0 <= spec_count (heap_get h a))%Z) ->
    Forall (fun q => (0 <= snd q)%Z) triples ->
    forall a,
      (0 <= spec_count (heap_get h' a) <= spec_count (heap_get h a))%Z.
Proof.
  induction triples as [|[[t n] k] rest IH]; intros h h' Hrun Hcap Hpos a;
    cbn [subtract_triples fst snd] in Hrun.
  - inversion Hrun; subst. specialize (Hcap a). lia.
  - rewrite subtract_one_target in Hrun.
    destruct (target res h t n) as [a_t|]; [|discriminate].
    cbn [bind] in Hrun. inversion Hpos as [|q r Hk Hpos']; subst.
    cbn [snd] in Hk.
    set (h1 := set_count h a_t
                 (Z.max (spec_count (heap_get h a_t) - k) 0)) in *.
    assert (Hstep : forall x,
               (0 <= spec_count (heap_get h1 x)
                <= spec_count (heap_get h x))%Z).
    { intros x. unfold h1. rewrite set_count_get.
      pose proof (Hcap x) as Hx. pose proof (Hcap a_t) as Ht.
      destruct ((x =? a_t) && (a_t <? length h)) eqn:E; [|lia].
      apply andb_true_iff in E. destruct E as [E _].
      apply Nat.eqb_eq in E. subst x. lia. }
    assert (Hcap1 : forall x, (0 <= spec_count (heap_get h1 x))%Z)
      by (intros x; apply Hstep).
    pose proof (IH h1 h' Hrun Hcap1 Hpos' a) as Hrest.
    pose proof (Hstep a). lia.
Qed.

(** X20: when the loops of [available] succeed on non-negative counts and
    allocations, the store has as many records as before and the count of
    every record is between zero and its count before: counts are only
    lowered. *)
Theorem available_counts_bounded (res : inventory) (usage : usage_record)
        (h h' : heap)
        (Hrun : subtract_usage res usage h = Ok h')
        (Hcap : Forall (fun spec => (0 <= spec_count spec)%Z) h)
        (Halloc : Forall (fun q => (0 <= snd q)%Z) (usage_triples usage)) :
  length h' = length h /\
  forall a, (0 <= spec_count (heap_get h' a) <= spec_count (heap_get h a))%Z.
Proof.
  rewrite subtract_usage_triples in Hrun. split.
  - now apply (subtract_triples_frame _ _ _ _ Hrun).
  - apply (subtract_triples_bounds _ _ _ _ Hrun); [|exact Halloc].
    intros a. unfold heap_get.
    destruct (Nat.lt_ge_cases a (length h)) as [Hlt|Hge].
    + rewrite Forall_forall in Hcap. apply Hcap. now apply nth_In.
    + rewrite nth_overflow by exact Hge. reflexivity.
Qed.

Lemma available_counts_bounded_witness :
  (0 <= spec_count (heap_get [mkSpec (lit "v100") 0] 0%nat)
   <= spec_count (heap_get [mkSpec (lit "v100") 4] 0%nat))%Z.
Proof.
  apply (available_counts_bounded [(lit "nodeA", [0])]
           [(lit "alice", [(lit "v100", [(lit "nodeA", 5%Z)])])]
           [mkSpec (lit "v100") 4] [mkSpec (lit "v100") 0]).
  - reflexivity.
  - repeat constructor. cbn. lia.
  - repeat constructor. cbn. lia.
Defined.

Lemma target_types (res : inventory) (h h' : heap) (t n : str) :
  (forall a, spec_type (heap_get h' a) = spec_type (heap_get h a)) ->
  target res h' t n = target res h t n.
Proof.
  intros Hty. unfold target. destruct (Dict.get res n); [|reflexivity].
  replace (types_of h' l) with (types_of h l); [reflexivity|].
  unfold types_of. apply map_ext. intros a. now rewrite Hty.
Qed.

Lemma in_inventory_target (res : inventory) (h : heap)
      (q : str * str * Z) :
  in_inventory h res q = true <->
  exists a, target res h (fst (fst q)) (snd (fst q)) = Ok a.
Proof.
  unfold in_inventory, target.
  destruct (Dict.get res (snd (fst q))) as [specs|].
  - split.
    + intros H. destruct (list_index_in _ _ H) as [i ->]. cbn. eauto.
    + intros [a Ha].
      destruct (list_index (types_of h specs) (fst (fst q))) as [i|] eqn:E;
        [|discriminate].
      apply list_index_nth in E. apply nth_error_In in E.
      unfold in_set. apply existsb_exists.
      exists (fst (fst q)). split; [exact E|].
      rewrite str_eqb_refl. reflexivity.
  - split; [discriminate|]. intros [a Ha]. discriminate.
Qed.

Lemma target_error (res : inventory) (h : heap) (t n : str) (e : exn) :
  target res h t n = Raise e -> e = KeyError \/ e = ValueError.
Proof.
  unfold target. destruct (Dict.get res n) as [specs|].
  - assert (G : forall l x e', list_index l x = Raise e' -> e' = ValueError).
    { clear. induction l as [|y r IH]; intros x e' H; cbn in H.
      - now inversion H.
      - destruct (str_eqb y x); [discriminate|].
        destruct (list_index r x) eqn:E; [discriminate|].
        cbn in H. inversion H; subst. now apply (IH x). }
    destruct (list_index (types_of h specs) t) eqn:E; [discriminate|].
    cbn. intros H. inversion H; subst. right. now apply (G _ _ _ E).
  - intros H. inversion H. now left.
Qed.

Lemma subtract_triples_outcome (res : inventory)
      (triples : list (str * str * Z)) :
  forall h,
    match subtract_triples res triples h with
    | Ok _ => forallb (in_inventory h res) triples = true
    | Raise e =>
        forallb (in_inventory h res) triples = false /\
        (e = KeyError \/ e = ValueError)
    end.
Proof.
  induction triples as [|q rest IH]; intros h; [reflexivity|].
  cbn [subtract_triples forallb]. rewrite subtract_one_target.
  destruct (target res h (fst (fst q)) (snd (fst q))) as [a_t|e] eqn:Ht;
    cbn [bind].
  - assert (Hq : in_inventory h res q = true)
      by (apply in_inventory_target; eauto).
    rewrite Hq. cbn [andb].
    set (h1 := set_count h a_t
                 (Z.max (spec_count (heap_get h a_t) - snd q) 0)).
    assert (Hsame : forallb (in_inventory h1 res) rest
                    = forallb (in_inventory h res) rest).
    { clear. induction rest as [|x r IHr]; [reflexivity|].
      cbn [forallb]. rewrite IHr. f_equal. unfold in_inventory.
      destruct (Dict.get res (snd (fst x))); [|reflexivity].
      unfold h1. now rewrite set_count_types_of. }
    specialize (IH h1). rewrite Hsame in IH. exact IH.
  - split; [|now apply (target_error _ _ _ _ _ Ht)].
    destruct (in_inventory h res q) eqn:Hq; [|reflexivity].
    apply in_inventory_target in Hq. destruct Hq as [a Ha]. congruence.
Qed.

(** X21: the loops of [available] succeed exactly when every
    (type, node) pair of the usage record is in the inventory; otherwise
    they fail with KeyError (unknown node) or ValueError (type not on the
    node), never otherwise. *)
Theorem subtract_usage_outcome (res : inventory) (usage : usage_record)
        (h : heap) :
  match subtract_usage res usage h with
  | Ok _ => forallb (in_inventory h res) (usage_triples usage) = true
  | Raise e =>
      forallb (in_inventory h res) (usage_triples usage) = false /\
      (e = KeyError \/ e = ValueError)
  end.
Proof.
  rewrite subtract_usage_triples. apply subtract_triples_outcome.
Qed.

(** X22: the subtraction is not idempotent: run a second time on the
    records it has already lowered, it leaves, in the record [.index]
    finds for a (node, type) pair, the original count minus twice the
    allocation, floored at zero. *)
Theorem available_twice_subtracts_twice
        (res : inventory) (usage : usage_record) (h : heap)
        (Hwf : inventory_wf h res)
        (Hcap : Forall (fun a => (0 <= spec_count (heap_get h a))%Z)
                       (concat (Dict.values res)))
        (Halloc : Forall (fun q => (0 <= snd q)%Z) (usage_triples usage))
        (Hpresent : forallb (in_inventory h res) (usage_triples usage)
                    = true) :
  exists h1 h2,
    subtract_usage res usage h = Ok h1 /\
    subtract_usage res usage h1 = Ok h2 /\
    forall node_name specs i a,
      Dict.get res node_name = Some specs ->
      nth_error specs i = Some a ->
      first_of_type (types_of h specs) i = true ->
      spec_count (heap_get h2 a) =
      Z.max (spec_count (heap_get h a)
             - 2 * allocated usage node_name (spec_type (heap_get h a))) 0.
Proof.
  destruct Hwf as [Hnd Hvalid].
  destruct (subtract_triples_floor res (usage_triples usage) h
              Hvalid Halloc Hpresent) as [h1 [Hrun1 Hcount1]].
  destruct (subtract_triples_frame _ _ _ _ Hrun1) as [Hlen [Hty _]].
  assert (Hvalid1 : Forall (fun a => a < length h1)
                           (concat (Dict.values res)))
    by (now rewrite Hlen).
  assert (Hpresent1 : forallb (in_inventory h1 res) (usage_triples usage)
                      = true).
  { rewrite <- Hpresent. clear - Hty.
    induction (usage_triples usage) as [|x r IHr]; [reflexivity|].
    cbn [forallb]. rewrite IHr. f_equal. unfold in_inventory.
    destruct (Dict.get res (snd (fst x))); [|reflexivity].
    replace (types_of h1 l) with (types_of h l); [reflexivity|].
    unfold types_of. apply map_ext. intros a. now rewrite Hty. }
  destruct (subtract_triples_floor res (usage_triples usage) h1
              Hvalid1 Halloc Hpresent1) as [h2 [Hrun2 Hcount2]].
  exists h1, h2. rewrite !subtract_usage_triples.
  split; [exact Hrun1|]. split; [exact Hrun2|].
  intros node_name specs i a Hget Hnth Hfirst.
  assert (Ha : In a (concat (Dict.values res))).
  { apply (in_values res node_name specs); [now apply get_in|].
    now apply nth_error_In with i. }
  assert (Hc : (0 <= spec_count (heap_get h a))%Z).
  { rewrite Forall_forall in Hcap. now apply Hcap. }
  assert (Hsame : allocated_at res h1 (usage_triples usage) a
                  = allocated_at res h (usage_triples usage) a).
  { unfold allocated_at. do 2 f_equal. apply filter_ext. intros q.
    unfold targets. now rewrite (target_types res h h1 _ _ Hty). }
  pose proof (allocated_at_nonneg res h (usage_triples usage) a Halloc)
    as Hnonneg.
  rewrite Hcount2, Hsame, (Hcount1 a Ha Hc); [|exact Ha|].
  - rewrite (allocated_at_first res h usage node_name specs i a Hnd Hget Hnth)
      in *.
    rewrite Hfirst in *. lia.
  - rewrite (Hcount1 a Ha Hc). lia.
Qed.

Lemma available_twice_subtracts_twice_witness :
  exists h1 h2,
    subtract_usage [(lit "nodeA", [0])]
      [(lit "alice", [(lit "v100", [(lit "nodeA", 3%Z)])])]
      [mkSpec (lit "v100") 8] = Ok h1 /\
    subtract_usage [(lit "nodeA", [0])]
      [(lit "alice", [(lit "v100", [(lit "nodeA", 3%Z)])])] h1 = Ok h2 /\
    spec_count (heap_get h2 0) = 2%Z.
Proof.
  destruct (available_twice_subtracts_twice [(lit "nodeA", [0])]
      [(lit "alice", [(lit "v100", [(lit "nodeA", 3%Z)])])]
      [mkSpec (lit "v100") 8]) as [h1 [h2 [H1 [H2 Hcount]]]].
  - split; repeat constructor; simpl; tauto.
  - repeat constructor. simpl. lia.
  - repeat constructor; simpl; lia.
  - reflexivity.
  - exists h1, h2. split; [exact H1|]. split; [exact H2|].
    exact (Hcount (lit "nodeA") [0] 0 0 eq_refl eq_refl eq_refl).
Defined.

End EstimatorBounds.

(** ** The log, the daemon and the command output *)

Section LogAppend.

Variable datetime : Type.
Variable strptime : str -> result datetime.

Lemma splitlines_complete (n : nat) :
  forall body cur rest,
    length body <= n ->
    splitlines cur ((body ++ [newline]) ++ rest)
    = splitlines cur (body ++ [newline]) ++ splitlines [] rest.
Proof.
  induction n as [|n IH]; intros body cur rest Hlen.
  - destruct body; [|cbn [length] in Hlen; lia].
    destruct rest; reflexivity.
  - destruct body as [|c r]; [destruct rest; reflexivity|].
    cbn [length] in Hlen. cbn [app splitlines].
    destruct (islinebreak c).
    + destruct r as [|c' r'].
      * cbn [app].
        destruct (Ascii.eqb c carriage_return && Ascii.eqb newline newline).
        -- reflexivity.
        -- apply (f_equal (cons (rev cur))).
           apply (IH [] [] rest). cbn [length]. lia.
      * cbn [app].
        destruct (Ascii.eqb c carriage_return && Ascii.eqb c' newline).
        -- apply (f_equal (cons (rev cur))).
           apply (IH r' [] rest). cbn [length] in Hlen. lia.
        -- apply (f_equal (cons (rev cur))).
           apply (IH (c' :: r') [] rest). lia.
    + apply IH. lia.
Qed.

Lemma splitlines_app (log rest : str) :
  log = [] \/ (exists body, log = body ++ [newline]) ->
  splitlines [] (log ++ rest) = splitlines [] log ++ splitlines [] rest.
Proof.
  intros [->|[body ->]]; [reflexivity|].
  now apply (splitlines_complete (length body)).
Qed.

Lemma deserialize_rows_data (rows : list str) :
  forall data,
    deserialize_rows datetime strptime rows data =
    d <- deserialize_rows datetime strptime rows [] ;; Ok (data ++ d).
Proof.
  induction rows as [|row rest IH]; intros data; cbn [deserialize_rows bind].
  - now rewrite app_nil_r.
  - destruct (split_first [] row) as [|ts [|usage [|x l]]]; try reflexivity.
    destruct (strptime ts) as [dt|]; cbn [bind]; [|reflexivity].
    destruct (literal_eval usage) as [v|]; cbn [bind]; [|reflexivity].
    rewrite (IH (data ++ [(dt, v)])), (IH ([] ++ [(dt, v)])).
    destruct (deserialize_rows datetime strptime rest []); cbn [bind app];
      [|reflexivity].
    now rewrite <- app_assoc.
Qed.

Lemma deserialize_rows_app (rows1 rows2 : list str) :
  forall data,
    deserialize_rows datetime strptime (rows1 ++ rows2) data =
    d <- deserialize_rows datetime strptime rows1 data ;;
    deserialize_rows datetime strptime rows2 d.
Proof.
  induction rows1 as [|row rest IH]; intros data;
    cbn [app deserialize_rows bind]; [reflexivity|].
  destruct (split_first [] row) as [|ts [|usage [|x l]]]; try reflexivity.
  destruct (strptime ts) as [dt|]; cbn [bind]; [|reflexivity].
  destruct (literal_eval usage) as [v|]; cbn [bind]; [|reflexivity].
  apply IH.
Qed.

Lemma token_no_break (ts : str) :
  forallb (fun c => negb (isspace c)) ts = true -> no_break ts = true.
Proof.
  intros Hchars. unfold no_break. apply forallb_forall.
  intros c Hc. rewrite forallb_forall in Hchars.
  specialize (Hchars c Hc). apply negb_true_iff in Hchars.
  apply negb_true_iff.
  destruct c as [[] [] [] [] [] [] [] []];
    try discriminate Hchars; reflexivity.
Qed.

(** The log after one more row reads back as the log before, then the
    new sample. *)
Lemma deserialize_usage_append (log : str)
      (data : list (datetime * pyval)) (timestamp : str) (dt : datetime)
      (usage : usage_record) :
  deserialize_usage datetime strptime (Some log) = Ok data ->
  log = [] \/ (exists body, log = body ++ [newline]) ->
  is_token timestamp = true -> strptime timestamp = Ok dt ->
  usage_wf usage ->
  deserialize_usage datetime strptime (Some (log ++ log_row timestamp usage))
  = Ok (data ++ [(dt, value_of_usage usage)]).
Proof.
  intros Hlog Hend Htok Hdt Hwf. unfold deserialize_usage in *.
  rewrite (splitlines_app _ _ Hend), deserialize_rows_app, Hlog.
  cbn [bind]. unfold log_row.
  apply andb_true_iff in Htok. destruct Htok as [Hlen Hchars].
  assert (Hts : timestamp <> []) by (intros ->; discriminate Hlen).
  assert (Hbreak : no_break (timestamp ++ lit " " ++ serialize_usage usage)
                   = true).
  { rewrite !no_break_app, no_break_serialize_usage, (token_no_break _ Hchars).
    reflexivity. }
  replace (timestamp ++ lit " " ++ serialize_usage usage ++ [newline])
    with ((timestamp ++ lit " " ++ serialize_usage usage) ++ newline :: [])
    by (now rewrite <- !app_assoc).
  rewrite (splitlines_row _ Hbreak). cbn [rev app splitlines deserialize_rows].
  change (timestamp ++ lit " " ++ serialize_usage usage)
    with (timestamp ++ " "%char :: serialize_usage usage).
  rewrite (split_first_row timestamp (serialize_usage usage) Hchars);
    [|discriminate|reflexivity|now right].
  cbn [rev app]. rewrite Hdt. cbn [bind].
  rewrite (literal_eval_serialize_usage usage Hwf). reflexivity.
Qed.

(** X24: one pass of the daemon's loop, on a log that is empty or ends with
    a newline and reads back as [data], leaves a log that ends with a
    newline and reads back as [data] followed by one sample: the pass'
    timestamp and the usage it gathered. *)
Theorem run_iteration_appends_sample
        (sched : scheduler) (timestamp : str) (dt : datetime)
        (h h' : heap) (out : list str) (log log' : str)
        (data : list (datetime * pyval))
        (Hlog : deserialize_usage datetime strptime (Some log) = Ok data)
        (Hend : log = [] \/ (exists body, log = body ++ [newline]))
        (Htoken : is_token timestamp = true)
        (Hstamp : strptime timestamp = Ok dt)
        (Hrun : run_iteration sched timestamp h log = Ok (h', out, log')) :
  exists usage,
    log' = log ++ log_row timestamp usage /\
    (exists body, log' = body ++ [newline]) /\
    deserialize_usage datetime strptime (Some log')
    = Ok (data ++ [(dt, value_of_usage usage)]).
Proof.
  unfold run_iteration in Hrun.
  destruct (parse_all_gpus 4 sched h) as [[h1 resources]|]; [|discriminate].
  cbn [bind fst snd] in Hrun.
  destruct (gpu_usage sched h1 DefaultDict resources [] 0) as [st|] eqn:Hu;
    [|discriminate].
  cbn [bind] in Hrun. inversion Hrun; subst.
  exists (st_usage st). split; [reflexivity|]. split.
  - exists (log ++ timestamp ++ lit " " ++ serialize_usage (st_usage st)).
    unfold log_row. now rewrite <- !app_assoc.
  - apply deserialize_usage_append; auto.
    now apply (gpu_usage_wf _ _ _ _ _ _ _ Hu).
Qed.

(** X25: a log that holds one row reads back as one sample, and the
    "history" action then fails with IndexError: [historical_summary]
    reads the sample at position 1 for its first line. *)
Theorem history_of_one_sample
        (show_datetime : datetime -> str)
        (timestamp : str) (dt : datetime) (usage : usage_record)
        (Htoken : is_token timestamp = true)
        (Hstamp : strptime timestamp = Ok dt)
        (Hwf : usage_wf usage) :
  deserialize_usage datetime strptime (Some (log_row timestamp usage))
  = Ok [(dt, value_of_usage usage)] /\
  history_action datetime strptime show_datetime
    (Some (log_row timestamp usage))
  = Raise IndexError.
Proof.
  assert (H : deserialize_usage datetime strptime
                (Some (log_row timestamp usage))
              = Ok [(dt, value_of_usage usage)]).
  { apply (deserialize_usage_append [] [] timestamp dt usage); auto. }
  split; [exact H|].
  unfold history_action. rewrite H. reflexivity.
Qed.

End LogAppend.

Lemma run_iteration_appends_sample_witness :
  exists usage,
    lit "2020-01-01_00:00:00 {'alice': {'v100': {'n1': 2}}}"
    ++ [newline]
    = [] ++ log_row (lit "2020-01-01_00:00:00") usage /\
    (exists body,
        lit "2020-01-01_00:00:00 {'alice': {'v100': {'n1': 2}}}"
        ++ [newline] = body ++ [newline]) /\
    deserialize_usage str (fun ts => Ok ts)
      (Some (lit "2020-01-01_00:00:00 {'alice': {'v100': {'n1': 2}}}"
             ++ [newline]))
    = Ok ([] ++ [(lit "2020-01-01_00:00:00", value_of_usage usage)]).
Proof.
  apply (run_iteration_appends_sample str (fun ts => Ok ts)
           (mkScheduler [lit "n1|gpu:v100:4"] []
                        [lit "gpu:v100:2 n1 alice"] (fun _ => 0))
           (lit "2020-01-01_00:00:00") (lit "2020-01-01_00:00:00")
           [] [mkSpec (lit "v100") 4] [] []
           (lit "2020-01-01_00:00:00 {'alice': {'v100': {'n1': 2}}}"
            ++ [newline]) []).
  - reflexivity.
  - now left.
  - reflexivity.
  - reflexivity.
  - reflexivity.
Defined.

Lemma history_of_one_sample_witness :
  history_action str (fun ts => Ok ts) (fun dt => dt)
    (Some (log_row (lit "2020-01-01_00:00:00")
             [(lit "alice", [(lit "v100", [(lit "n1", 2%Z)])])]))
  = Raise IndexError.
Proof.
  apply (history_of_one_sample str (fun ts => Ok ts) (fun dt => dt)
           (lit "2020-01-01_00:00:00") (lit "2020-01-01_00:00:00")
           [(lit "alice", [(lit "v100", [(lit "n1", 2%Z)])])]).
  - reflexivity.
  - reflexivity.
  - unfold usage_wf, keys_unique.
    cbn [Dict.keys Dict.values map fst snd].
    split; [distinct_keys|].
    apply Forall_cons; [|apply Forall_nil].
    split; [distinct_keys|].
    apply Forall_cons; [distinct_keys|apply Forall_nil].
Defined.

(** ** The lines of a command's output *)

Section CommandOutput.

Lemma split_concat (sep : ascii) (s : str) :
  concat (split sep s) = filter (fun c => negb (Ascii.eqb c sep)) s.
Proof.
  induction s as [|c r IH]; [reflexivity|].
  cbn [split filter]. destruct (Ascii.eqb c sep); cbn [negb concat app].
  - exact IH.
  - destruct (split sep r) as [|p ps]; cbn [concat app] in *.
    + now rewrite <- IH.
    + now rewrite <- IH.
Qed.

Lemma split_parts_free (sep : ascii) (s : str) :
  Forall (fun p => contains sep p = false) (split sep s).
Proof.
  induction s as [|c r IH]; [repeat constructor|].
  cbn [split]. destruct (Ascii.eqb c sep) eqn:E.
  - constructor; [reflexivity|exact IH].
  - destruct (split sep r) as [|p ps].
    + constructor; [|constructor].
      unfold contains. cbn [existsb]. rewrite Ascii.eqb_sym, E. reflexivity.
    + inversion IH as [|x l Hp Hps]; subst. constructor; [|exact Hps].
      unfold contains in *. cbn [existsb].
      rewrite Ascii.eqb_sym, E. exact Hp.
Qed.

Lemma concat_nonempty (l : list str) :
  concat (filter (fun x => negb (length x =? 0)) l) = concat l.
Proof.
  induction l as [|x r IH]; [reflexivity|].
  cbn [filter]. destruct x as [|c x']; cbn [length Nat.eqb negb concat app].
  - exact IH.
  - now rewrite IH.
Qed.

(** X7: no row returned by [parse_cmd] is empty or holds a newline, and the
    rows put end to end are the output without its newlines: nothing else
    is dropped or reordered. *)
Theorem parse_cmd_lines (output : str) :
  Forall (fun row => row <> [] /\ contains newline row = false)
         (parse_cmd output) /\
  concat (parse_cmd output)
  = filter (fun c => negb (Ascii.eqb c newline)) output.
Proof.
  unfold parse_cmd. split.
  - apply Forall_forall. intros row Hin.
    apply filter_In in Hin. destruct Hin as [Hin Hlen]. split.
    + intros ->. discriminate Hlen.
    + pose proof (split_parts_free newline output) as Hfree.
      rewrite Forall_forall in Hfree. now apply Hfree.
  - rewrite concat_nonempty. apply split_concat.
Qed.

End CommandOutput.

(** ** The states of the nodes *)

Section NodeStates.

Lemma node_states_rows_app (rows1 rows2 : list str) :
  forall states,
    node_states_rows (rows1 ++ rows2) states =
    s <- node_states_rows rows1 states ;; node_states_rows rows2 s.
Proof.
  induction rows1 as [|row rest IH]; intros states;
    cbn [app node_states_rows bind]; [reflexivity|].
  destruct (getitem_list (split_whitespace [] row) 4) as [state|];
    cbn [bind]; [|reflexivity].
  destruct (getitem_list (split_whitespace [] row) 5) as [names|];
    cbn [bind]; [|reflexivity].
  destruct (parse_node_names names); cbn [bind]; [apply IH|reflexivity].
Qed.

Lemma update_get (state : str) (node_names : list str) :
  forall (states : node_state_map) (name : str),
    Dict.get
      (fold_left (fun st name => Dict.set st name state) node_names states)
      name
    = if in_set name node_names then Some state else Dict.get states name.
Proof.
  induction node_names as [|n r IH]; intros states name;
    cbn [fold_left]; [reflexivity|].
  rewrite IH. unfold in_set. cbn [existsb].
  destruct (existsb (str_eqb name) r).
  - now rewrite orb_true_r.
  - rewrite orb_false_r. destruct (str_eqb name n) eqn:E.
    + apply str_eqb_eq in E. subst. apply get_set_same.
    + apply get_set_other. intros ->. rewrite str_eqb_refl in E.
      discriminate.
Qed.

(** X8: after one more row of [sinfo], every node the row names has the
    state of that row, also when an earlier row gave it another state, and
    every other node keeps the state it had. *)
Theorem node_states_later_row_wins
        (rows : list str) (row : str) (states before : node_state_map)
        (state names : str) (node_names : list str)
        (Hbefore : node_states_rows rows states = Ok before)
        (Hstate : getitem_list (split_whitespace [] row) 4 = Ok state)
        (Hnames : getitem_list (split_whitespace [] row) 5 = Ok names)
        (Hnodes : parse_node_names names = Ok node_names) :
  exists after,
    node_states_rows (rows ++ [row]) states = Ok after /\
    forall name,
      Dict.get after name
      = if in_set name node_names then Some state
        else Dict.get before name.
Proof.
  rewrite node_states_rows_app, Hbefore. cbn [bind node_states_rows].
  rewrite Hstate, Hnames. cbn [bind]. rewrite Hnodes. cbn [bind].
  eexists. split; [reflexivity|]. intros name. apply update_get.
Qed.

(** X9: when the rows before it are read without error, a row of
    [sinfo --noheader] with fewer than six fields makes [node_states] fail
    with IndexError, whatever follows it. *)
Theorem node_states_short_row
        (sched : scheduler) (rows rest : list str) (row : str)
        (before : node_state_map)
        (Hrows : sinfo_states sched = rows ++ row :: rest)
        (Hbefore : node_states_rows rows [] = Ok before)
        (Hshort : length (split_whitespace [] row) < 6) :
  node_states sched = Raise IndexError.
Proof.
  unfold node_states. rewrite Hrows, node_states_rows_app, Hbefore.
  cbn [bind node_states_rows]. unfold getitem_list.
  destruct (nth_error (split_whitespace [] row) 4) as [state|] eqn:E4;
    [|reflexivity].
  cbn [bind].
  destruct (nth_error (split_whitespace [] row) 5) as [names|] eqn:E5;
    [|reflexivity].
  assert (Hlen : 5 < length (split_whitespace [] row)).
  { apply nth_error_Some. congruence. }
  lia.
Qed.

End NodeStates.

Lemma node_states_later_row_wins_witness :
  exists after,
    node_states_rows
      ([lit "gpu up infinite 2 idle node[1-2]"]
       ++ [lit "gpu up infinite 1 drain node2"]) []
    = Ok after /\
    forall name,
      Dict.get after name
      = if in_set name [lit "node2"] then Some (lit "drain")
        else Dict.get [(lit "node1", lit "idle"); (lit "node2", lit "idle")]
                      name.
Proof.
  apply (node_states_later_row_wins
           [lit "gpu up infinite 2 idle node[1-2]"]
           (lit "gpu up infinite 1 drain node2") []
           [(lit "node1", lit "idle"); (lit "node2", lit "idle")]
           (lit "drain") (lit "node2") [lit "node2"]);
    reflexivity.
Defined.

Lemma node_states_short_row_witness :
  node_states
    (mkScheduler [] [lit "gpu up infinite 2 idle node[1-2]"; lit "gpu up"]
                 [] (fun _ => 0))
  = Raise IndexError.
Proof.
  apply (node_states_short_row _ [lit "gpu up infinite 2 idle node[1-2]"]
           [] (lit "gpu up")
           [(lit "node1", lit "idle"); (lit "node2", lit "idle")]).
  - reflexivity.
  - reflexivity.
  - change (2 < 6). lia.
Defined.

(** ** A cluster without GPU jobs *)

Section NoJobs.

Lemma gpu_usage_rows_ignored (sched : scheduler) (h : heap)
      (kind : mapping_kind) (rows : list str) (st : usage_state) :
  forallb ignored_row rows = true ->
  gpu_usage_rows sched h kind rows st = Ok st.
Proof.
  induction rows as [|row rest IH]; intros Hrows; [reflexivity|].
  cbn [forallb] in Hrows. apply andb_true_iff in Hrows.
  destruct Hrows as [Hrow Hrest]. cbn [gpu_usage_rows].
  unfold gpu_usage_row. unfold ignored_row in Hrow. rewrite Hrow.
  cbn [bind]. now apply IH.
Qed.

(** X23: when no row of [squeue] has three fields and a first field that
    starts with "gpu", [available] changes no record and prints the sum of
    the counts of the accessible nodes, then their totals by type. *)
Theorem available_without_gpu_jobs
        (sched : scheduler) (resources : inventory)
        (states : node_state_map) (h : heap)
        (Hjobs : forallb ignored_row (squeue_jobs sched) = true) :
  let res := accessible resources states in
  available_from sched resources states h =
  Ok (h,
      [lit "There are "
       ++ str_of_int (sum (map spec_count (inventory_specs h res)))
       ++ lit " gpus available:"]
      ++ map (fun kv => fst kv ++ lit ": " ++ str_of_int (snd kv))
             (resource_by_type h res)).
Proof.
  intros res. unfold available_from, gpu_usage.
  rewrite (gpu_usage_rows_ignored _ _ _ _ _ Hjobs).
  cbn [bind st_usage st_out subtract_usage app]. fold res.
  now rewrite (proj1 (proj2 (resource_by_type_totals_aux h res))).
Qed.

End NoJobs.

Lemma available_without_gpu_jobs_witness :
  available_from
    (mkScheduler [] [] [lit "(null) node1 alice"; lit "PD"] (fun _ => 0))
    [(lit "node1", [0])] [(lit "node1", lit "idle")]
    [mkSpec (lit "v100") 4]
  = Ok ([mkSpec (lit "v100") 4],
        [lit "There are 4 gpus available:"; lit "v100: 4"]).
Proof.
  apply (available_without_gpu_jobs
           (mkScheduler [] [] [lit "(null) node1 alice"; lit "PD"]
                        (fun _ => 0))
           [(lit "node1", [0])] [(lit "node1", lit "idle")]
           [mkSpec (lit "v100") 4]).
  reflexivity.
Defined.

(** ** The summary by type *)

Section SummaryByType.

Let le_value (a b : str * Z) : Prop := (snd a <= snd b)%Z.

Lemma insert_by_value_perm (x : str * Z) (l : list (str * Z)) :
  Permutation (insert_by_value x l) (x :: l).
Proof.
  induction l as [|y r IH]; cbn [insert_by_value]; [reflexivity|].
  destruct (snd x <=? snd y)%Z; [reflexivity|].
  rewrite IH. apply perm_swap.
Qed.

Lemma insert_by_value_sorted (x : str * Z) (l : list (str * Z)) :
  StronglySorted le_value l -> StronglySorted le_value (insert_by_value x l).
Proof.
  induction 1 as [|y r Hr IH Hy]; cbn [insert_by_value].
  - repeat constructor.
  - destruct (snd x <=? snd y)%Z eqn:E.
    + apply Z.leb_le in E. constructor.
      * now constructor.
      * constructor; [exact E|].
        apply Forall_impl with (P := le_value y); [|exact Hy].
        unfold le_value. intros a Ha. lia.
    + apply Z.leb_gt in E. constructor; [exact IH|].
      apply (Permutation_Forall (Permutation_sym (insert_by_value_perm x r))).
      constructor; [unfold le_value; lia|exact Hy].
Qed.

Lemma sorted_by_value_spec (l : list (str * Z)) :
  Permutation (sorted_by_value l) l /\
  StronglySorted le_value (sorted_by_value l).
Proof.
  unfold sorted_by_value.
  induction l as [|x r [IHp IHs]]; cbn [fold_right].
  - split; constructor.
  - split.
    + rewrite insert_by_value_perm. now constructor.
    + now apply insert_by_value_sorted.
Qed.

(** X26: [summary_by_type] prints one line for each entry of
    [resource_by_type] and no other, in non-decreasing order of count,
    after a first line whose total is the sum of all counts of the
    inventory. *)
Theorem summary_by_type_sorted (h : heap) (resources : inventory)
        (tag : str) :
  exists items,
    Permutation items (resource_by_type h resources) /\
    StronglySorted (fun a b => (snd a <= snd b)%Z) items /\
    summary_by_type h resources tag =
    [lit "There are a total of "
     ++ str_of_int (sum (map spec_count (inventory_specs h resources)))
     ++ lit " gpus [" ++ tag ++ lit "]";
     join [newline]
          (map (fun kv => str_of_int (snd kv) ++ lit " " ++ fst kv
                          ++ lit " gpus") items)].
Proof.
  exists (sorted_by_value (resource_by_type h resources)).
  destruct (sorted_by_value_spec (resource_by_type h resources))
    as [Hperm Hsorted].
  split; [exact Hperm|]. split; [exact Hsorted|].
  unfold summary_by_type.
  now rewrite (proj1 (proj2 (resource_by_type_totals_aux h resources))).
Qed.

End SummaryByType.

(** ** Instances *)

Lemma parse_all_gpus_wf_witness :
  inventory_wf [mkSpec (lit "v100") 4; mkSpec (lit "k80") 2]
               [(lit "n1", [0; 1])].
Proof.
  apply (parse_all_gpus_wf 4
           (mkScheduler [lit "n1|gpu:v100:4,gpu:k80:2"] [] [] (fun _ => 0))
           [mkSpec (lit "v100") 4; mkSpec (lit "k80") 2]
           [(lit "n1", [0; 1])]).
  reflexivity.
Defined.

Lemma accessible_total_le_up_witness :
  (sum (Dict.values
          (resource_by_type [mkSpec (lit "v100") 4; mkSpec (lit "k80") 2]
             (accessible [(lit "n1", [0%nat]); (lit "n2", [1%nat])]
                         [(lit "n1", lit "idle"); (lit "n2", lit "down")])))
   <= sum (Dict.values
             (resource_by_type [mkSpec (lit "v100") 4; mkSpec (lit "k80") 2]
                [(lit "n1", [0%nat]); (lit "n2", [1%nat])])))%Z.
Proof.
  apply (accessible_total_le_up
           [mkSpec (lit "v100") 4; mkSpec (lit "k80") 2]
           [(lit "n1", [0]); (lit "n2", [1])]
           [(lit "n1", lit "idle"); (lit "n2", lit "down")]).
  apply Forall_cons; [simpl; lia|].
  apply Forall_cons; [simpl; lia|].
  apply Forall_nil.
Defined.

Lemma gpu_usage_nodes_charge_witness :
  usage_total
    [(lit "alice", [(lit "v100", [(lit "n1", 2%Z); (lit "n2", 2%Z)])])]
  = (usage_total [] + 2 * Z.of_nat (length [lit "n1"; lit "n2"]))%Z.
Proof.
  apply (gpu_usage_nodes_charge (mkScheduler [] [] [] (fun _ => 0))
           [mkSpec (lit "v100") 4; mkSpec (lit "v100") 4] PlainDict
           (lit "alice") 2 [lit "n1"; lit "n2"]
           (mkUsageState [(lit "n1", [0]); (lit "n2", [1])] []
                         (TypeName (lit "v100")) [] 0)
           (mkUsageState [(lit "n1", [0]); (lit "n2", [1])]
              [(lit "alice",
                [(lit "v100", [(lit "n1", 2%Z); (lit "n2", 2%Z)])])]
              (TypeName (lit "v100")) [] 0)).
  reflexivity.
Defined.
